(** * Property/photo consistency and caching: a shallow embedding

    The development follows the property service
    ([modules/properties/property.service], [property.routes]) and the
    stored procedure [create_property_with_photos] of the repository.
    Effectful code is written in a state-and-exception monad over a
    [World] that holds the two tables, the in-memory cache, the
    ownership cache of the authorization middleware, a script of store
    failures and a log of the calls that were made. *)

From Stdlib Require Import Ascii String QArith Qcanon Qround Qpower Lqa SpecFloat.
From stdpp Require Import gmap strings list fin_maps pretty.


(** ** JavaScript values *)

(** A JavaScript number.  Every finite double is a rational, so finite
    numbers are carried as canonical rationals.  [Math.max], [Math.min],
    [<], [>] and [Math.ceil] are exact on doubles; the division rounds
    its exact quotient to the nearest double ([js_div] below). *)
Inductive jsnum : Type :=
  | NaN
  | NegInfinity
  | PosInfinity
  | Fin (q : Qc).

(** A whole number. *)
Definition whole (z : Z) : jsnum := Fin (Qc_of_Z z).

Definition Qcltb (x y : Qc) : bool :=
  match (x ?= y)%Qc with Lt => true | _ => false end.

Definition Qceqb (x y : Qc) : bool :=
  match (x ?= y)%Qc with Eq => true | _ => false end.

(** [a < b] of JavaScript: false as soon as one side is [NaN]. *)
Definition js_lt (a b : jsnum) : bool :=
  match a, b with
  | NaN, _ | _, NaN => false
  | _, NegInfinity => false
  | NegInfinity, _ => true
  | PosInfinity, _ => false
  | Fin _, PosInfinity => true
  | Fin x, Fin y => Qcltb x y
  end.

(** [a > b] is [b < a]. *)
Definition js_gt (a b : jsnum) : bool := js_lt b a.

(** Truthiness of a number: [NaN] and zero are falsy. *)
Definition num_truthy (a : jsnum) : bool :=
  match a with
  | NaN => false
  | Fin q => negb (Qceqb q 0)
  | _ => true
  end.

(** [a || d] on numbers. *)
Definition num_or (a d : jsnum) : jsnum := if num_truthy a then a else d.

Definition Math_max (a b : jsnum) : jsnum :=
  match a, b with
  | NaN, _ | _, NaN => NaN
  | _, _ => if js_lt a b then b else a
  end.

Definition Math_min (a b : jsnum) : jsnum :=
  match a, b with
  | NaN, _ | _, NaN => NaN
  | _, _ => if js_lt b a then b else a
  end.

Definition Math_ceil (a : jsnum) : jsnum :=
  match a with
  | Fin q => whole (Qceiling q)
  | _ => a
  end.

(** *** Rounding to binary64 *)

(** The binade of a positive rational: the [e] with [2^e <= x < 2^(e+1)]. *)
Definition binade (x : Q) : Z :=
  let e0 := (Z.log2 (Qnum x) - Z.log2 (Zpos (Qden x)))%Z in
  if Qle_bool (2 ^ e0)%Q x then e0 else (e0 - 1)%Z.

(** The nearest whole number, a tie going to the even one. *)
Definition round_half_even (m : Q) : Z :=
  let f := Qfloor m in
  match ((m - inject_Z f) ?= (1 # 2))%Q with
  | Lt => f
  | Gt => (f + 1)%Z
  | Eq => if Z.even f then f else (f + 1)%Z
  end.

(** The exponent of the last place of the doubles around [x]: 53
    significant bits, and no exponent below that of the subnormals. *)
Definition ulp_exponent (x : Q) : Z := Z.max (binade x - 52) (-1074).

(** The double nearest to a positive rational (IEEE 754 binary64, round
    to nearest, ties to even); a result of [2^1024] or more overflows. *)
Definition nearest_double (x : Q) : jsnum :=
  let k := ulp_exponent x in
  let y := (inject_Z (round_half_even (x / 2 ^ k)) * 2 ^ k)%Q in
  if Qle_bool (2 ^ 1024)%Q y then PosInfinity else Fin (Q2Qc y).

Definition negate (a : jsnum) : jsnum :=
  match a with
  | NaN => NaN
  | NegInfinity => PosInfinity
  | PosInfinity => NegInfinity
  | Fin q => Fin (- q)%Qc
  end.

(** The double nearest to a rational. *)
Definition round64 (x : Q) : jsnum :=
  match (0 ?= x)%Q with
  | Eq => Fin 0%Qc
  | Lt => nearest_double x
  | Gt => negate (nearest_double (- x)%Q)
  end.

(** [a / b]. Division by zero gives an infinity or [NaN] as in IEEE 754;
    the quotient of two finite numbers is the double nearest to the
    exact quotient. *)
Definition js_div (a b : jsnum) : jsnum :=
  match a, b with
  | NaN, _ | _, NaN => NaN
  | Fin x, Fin y =>
      if Qceqb y 0 then
        (if Qceqb x 0 then NaN
         else if Qcltb x 0 then NegInfinity else PosInfinity)
      else round64 (x / y)%Qc
  | Fin _, _ => Fin 0%Qc
  | PosInfinity, Fin y => if Qcltb y 0 then NegInfinity else PosInfinity
  | NegInfinity, Fin y => if Qcltb y 0 then PosInfinity else NegInfinity
  | _, _ => NaN
  end.

(** The value of a float of the Standard Library's specification of
    IEEE 754 arithmetic. *)
Definition value_of_float (f : spec_float) : jsnum :=
  match f with
  | S754_zero _ => Fin 0%Qc
  | S754_infinity s => if s then NegInfinity else PosInfinity
  | S754_nan => NaN
  | S754_finite s m e =>
      Fin (Q2Qc ((if s then -1 else 1) * inject_Z (Zpos m) * 2 ^ e)%Q)
  end.

(** The binary64 float of a whole number. *)
Definition float_of_Z (z : Z) : spec_float := binary_normalize 53 1024 z 0 false.

Definition num_of_nat (n : nat) : jsnum := whole (Z.of_nat n).

(** A JavaScript value as it arrives in a request body. *)
#[warnings="-register-all"]
Inductive json : Type :=
  | JUndefined
  | JNull
  | JBool (b : bool)
  | JNum (n : jsnum)
  | JStr (s : string)
  | JArr (items : list json)
  | JObj (members : list (string * json)).

(** [obj[key]]: the member, or [undefined]. *)
Fixpoint member (key : string) (members : list (string * json)) : json :=
  match members with
  | [] => JUndefined
  | (k, v) :: rest => if String.eqb k key then v else member key rest
  end.

Definition get (key : string) (o : json) : json :=
  match o with
  | JObj members => member key members
  | _ => JUndefined
  end.

(** ** Completion of a call: a value, or a thrown [Error] *)

Inductive Outcome (A : Type) : Type :=
  | Return (a : A)
  | Throw (message : string).
Arguments Return {A} a.
Arguments Throw {A} message.

(** ** [validateImageUrls] *)

(** The body of the [for (const img of images)] loop. *)
Definition validateImageUrl (img : json) : Outcome unit :=
  match img with
  | JStr s =>
      if String.prefix "data:" s then
        Throw "Base64 images are not allowed. Upload to ImageKit first."
      else if negb (String.prefix "http://" s) && negb (String.prefix "https://" s) then
        Throw "Images must be valid URLs"
      else Return tt
  | _ => Throw "Images must be strings (ImageKit URLs)"
  end.

Fixpoint validateImageUrls_loop (images : list json) : Outcome unit :=
  match images with
  | [] => Return tt
  | img :: rest =>
      match validateImageUrl img with
      | Throw m => Throw m
      | Return _ => validateImageUrls_loop rest
      end
  end.

Definition validateImageUrls (images : json) : Outcome unit :=
  match images with
  | JArr items =>
      if (25 <? length items) then Throw "Maximum 25 images per property"
      else validateImageUrls_loop items
  | _ => Return tt
  end.

(** ** The image-URL contract, in the words of the specification *)

Definition is_string (v : json) : bool :=
  match v with JStr _ => true | _ => false end.

Definition begins_with_data_uri (v : json) : bool :=
  match v with JStr s => String.prefix "data:" s | _ => false end.

Definition is_absolute_http_url (v : json) : bool :=
  match v with
  | JStr s => String.prefix "http://" s || String.prefix "https://" s
  | _ => false
  end.

(** The list of images breaks the contract: more than 25 entries, or an
    entry that is not a string, or that begins with the data-URI scheme,
    or that is not an absolute http/https URL. *)
Definition violates_image_contract (items : list json) : bool :=
  (25 <? length items)
  || existsb (fun v => negb (is_string v)) items
  || existsb begins_with_data_uri items
  || existsb (fun v => negb (is_absolute_http_url v)) items.

(** ** Rows of the two tables *)

Record Property : Type := {
  prop_id : string;
  owner_id : option string;
  images : list string;
  view_count : nat;
  columns : list (string * json);
}.

(** The columns written by an [INSERT INTO photos]. *)
Record PhotoInsert : Type := {
  imagekit_file_id : string;
  url : string;
  thumbnail_url : string;
  category : string;
  uploader_id : option string;
  property_id : option string;
  metadata : json;
}.

Record Photo : Type := {
  photo_id : string;
  row : PhotoInsert;
}.

Definition set_property_id (pid : option string) (r : Photo) : Photo :=
  {| photo_id := photo_id r;
     row := {| imagekit_file_id := imagekit_file_id (row r);
               url := url (row r);
               thumbnail_url := thumbnail_url (row r);
               category := category (row r);
               uploader_id := uploader_id (row r);
               property_id := pid;
               metadata := metadata (row r) |} |}.

(** An orphan is a photo without a property reference. *)
Definition is_orphan (r : Photo) : bool :=
  match property_id (row r) with None => true | Some _ => false end.

Record Db : Type := {
  properties : list Property;
  photos : list Photo;
  next_id : nat;
}.

(** ** Pagination and cached values *)

Record Pagination : Type := {
  page : jsnum;
  limit : jsnum;
  total : nat;
  totalPages : jsnum;
  hasNextPage : bool;
  hasPrevPage : bool;
}.

Record GetPropertiesResult : Type := {
  result_properties : list Property;
  pagination : Pagination;
}.

Record GetPropertiesParams : Type := {
  propertyType : option string;
  city : option string;
  minPrice : option string;
  maxPrice : option string;
  status : option string;
  ownerId : option string;
  param_page : option string;
  param_limit : option string;
}.

(** What the cache holds: a property (detail entries) or a page of the
    listing. *)
Inductive CacheVal : Type :=
  | CachedProperty (p : Property)
  | CachedListing (r : GetPropertiesResult).

Record CacheEntry : Type := {
  value : CacheVal;
  expiry : nat;
}.

(** ** The world *)

(** How the next store statement goes: normally, with an [error] in its
    reply, or with a thrown exception. *)
Inductive Fault : Type :=
  | NoFault
  | ErrorResult (message : string)
  | Throws (message : string).

(** The calls that leave the service. *)
Inductive Event : Type :=
  | Rpc (fn : string)
  | Select (table : string)
  | Update (table : string)
  | Insert (table : string)
  | FindPropertyById (id : string)
  | FindAllProperties
  | UpdatePropertyRow (id : string)
  | DeletePropertyRow (id : string)
  | IncrementPropertyViews (id : string)
  | CacheGet (key : string)
  | CacheSet (key : string)
  | CacheInvalidate (target : string)
  | InvalidateOwnership (resource id : string).

Record World : Type := {
  db : Db;
  configured : bool;
  faults : list Fault;
  cache : gmap string CacheEntry;
  now : nat;
  ownership : gset (string * string);
  log : list Event;
}.

Definition with_db (d : Db) (w : World) : World :=
  {| db := d; configured := configured w; faults := faults w; cache := cache w;
     now := now w; ownership := ownership w; log := log w |}.

Definition with_faults (fs : list Fault) (w : World) : World :=
  {| db := db w; configured := configured w; faults := fs; cache := cache w;
     now := now w; ownership := ownership w; log := log w |}.

Definition with_cache (c : gmap string CacheEntry) (w : World) : World :=
  {| db := db w; configured := configured w; faults := faults w; cache := c;
     now := now w; ownership := ownership w; log := log w |}.

Definition with_ownership (o : gset (string * string)) (w : World) : World :=
  {| db := db w; configured := configured w; faults := faults w; cache := cache w;
     now := now w; ownership := o; log := log w |}.

Definition with_log (l : list Event) (w : World) : World :=
  {| db := db w; configured := configured w; faults := faults w; cache := cache w;
     now := now w; ownership := ownership w; log := l |}.

Definition with_now (t : nat) (w : World) : World :=
  {| db := db w; configured := configured w; faults := faults w; cache := cache w;
     now := t; ownership := ownership w; log := log w |}.

(** ** The monad of the service: state and exceptions *)

Definition M (A : Type) : Type := World → Outcome A * World.

Definition ret {A} (a : A) : M A := λ w, (Return a, w).

Definition throw {A} (message : string) : M A := λ w, (Throw message, w).

Definition bind {A B} (c : M A) (k : A → M B) : M B :=
  λ w, match c w with
       | (Return a, w') => k a w'
       | (Throw m, w') => (Throw m, w')
       end.

(** [try { c } catch (e) { handler e.message }] *)
Definition try_catch {A} (c : M A) (handler : string → M A) : M A :=
  λ w, match c w with
       | (Return a, w') => (Return a, w')
       | (Throw m, w') => handler m w'
       end.

Notation "x <- c ;; k" := (bind c (λ x, k))
  (at level 100, c at next level, right associativity).
Notation "c ;;; k" := (bind c (λ _, k))
  (at level 100, right associativity).

Definition emit (e : Event) : M unit :=
  λ w, (Return tt, with_log (log w ++ [e]) w).

Definition next_fault : M Fault :=
  λ w, match faults w with
       | [] => (Return NoFault, w)
       | f :: fs => (Return f, with_faults fs w)
       end.

Definition read_db : M Db := λ w, (Return (db w), w).
Definition write_db (d : Db) : M unit := λ w, (Return tt, with_db d w).

(** [o ?? d]: the value, or [d] when there is none. *)
Definition coalesce {A} (o : option A) (d : A) : A :=
  match o with
  | Some a => a
  | None => d
  end.

(** [s || fallback] on strings: the empty string is falsy. *)
Definition str_or (s fallback : string) : string :=
  if String.eqb s "" then fallback else s.

(** Truthiness of an optional string argument. *)
Definition truthy (s : option string) : bool :=
  match s with
  | Some s => negb (String.eqb s "")
  | None => false
  end.

(** ** The TTL cache *)

(** Modelled from the spec: the [cache] module (section 4.1).
    [get(key)] returns the value if present and unexpired; otherwise it
    behaves as a miss and evicts the stale entry. *)
Definition cache_get (key : string) : M (option CacheVal) :=
  emit (CacheGet key);;;
  λ w, match cache w !! key with
       | None => (Return None, w)
       | Some e =>
           if (expiry e <? now w)%nat
           then (Return None, with_cache (delete key (cache w)) w)
           else (Return (Some (value e)), w)
       end.

(** Modelled from the spec: [set(key, value, ttl)] stores the value with
    expiry = now + ttl. *)
Definition cache_set (key : string) (v : CacheVal) (ttl : nat) : M unit :=
  emit (CacheSet key);;;
  λ w, (Return tt,
        with_cache (<[key := {| value := v; expiry := now w + ttl |}]> (cache w)) w).

(** Modelled from the spec: [invalidate(target)] removes every entry
    whose key equals [target] or starts with [target]. *)
Definition cache_invalidate (target : string) : M unit :=
  emit (CacheInvalidate target);;;
  λ w, (Return tt,
        with_cache (filter (λ kv, String.prefix target kv.1 = false) (cache w)) w).

(** Modelled from the spec: [invalidateOwnershipCache(resource, id)] of
    the authorization middleware drops the ownership entry keyed by
    (resource type, id). *)
Definition invalidateOwnershipCache (resource id : string) : M unit :=
  emit (InvalidateOwnership resource id);;;
  λ w, (Return tt, with_ownership (ownership w ∖ {[ (resource, id) ]}) w).

(** ** The store client *)

(** The reply of a store statement: [{ data, error }]. *)
Record Reply (A : Type) : Type := {
  data : option A;
  error : option string;
}.
Arguments data {A} _.
Arguments error {A} _.

(** Modelled from the spec: a statement sent through the store client
    (section 6) answers [{ data, error }]; a failure shows in [error],
    or the call throws; a failed statement writes nothing. *)
Definition statement {A} (e : Event) (run : Db → Reply A * Db) : M (Reply A) :=
  emit e;;;
  f <- next_fault;;
  match f with
  | Throws m => throw m
  | ErrorResult m => ret {| data := None; error := Some m |}
  | NoFault =>
      d <- read_db;;
      let '(r, d') := run d in
      write_db d';;; ret r
  end.

Definition no_rows {A} : Reply A :=
  {| data := None; error := Some "JSON object requested, multiple (or no) rows returned" |}.

(** The [id, url] of the first [n] photos without a property reference. *)
Definition orphan_batch (n : nat) (rows : list Photo) : list (string * string) :=
  map (λ r, (photo_id r, url (row r))) (take n (List.filter is_orphan rows)).

(** [from("photos").select("id, url").is("property_id", null).limit(n)] *)
Definition select_orphan_photos (n : nat) : M (Reply (list (string * string))) :=
  statement (Select "photos")
    (λ d, ({| data := Some (orphan_batch n (photos d)); error := None |}, d)).

(** The id of the first property whose [images] contain [u]. *)
Definition property_containing (rows : list Property) (u : string) : Reply string :=
  match List.find (λ p, bool_decide (u ∈ images p)) rows with
  | Some p => {| data := Some (prop_id p); error := None |}
  | None => no_rows
  end.

(** [from("properties").select("id").contains("images", [u]).limit(1).single()] *)
Definition select_property_containing (u : string) : M (Reply string) :=
  statement (Select "properties") (λ d, (property_containing (properties d) u, d)).

(** [from("photos").select("id").eq("url", u).is("property_id", null).limit(1).single()] *)
Definition select_orphan_photo_by_url (u : string) : M (Reply string) :=
  statement (Select "photos")
    (λ d, (match List.find (λ r, String.eqb (url (row r)) u && is_orphan r) (photos d) with
           | Some r => {| data := Some (photo_id r); error := None |}
           | None => no_rows
           end, d)).

Definition set_photo_property (photo pid : string) (rows : list Photo) : list Photo :=
  map (λ r, if String.eqb (photo_id r) photo then set_property_id (Some pid) r else r) rows.

(** [from("photos").update({ property_id: pid }).eq("id", photo)] *)
Definition update_photo_property (photo pid : string) : M (Reply unit) :=
  statement (Update "photos")
    (λ d, ({| data := None; error := None |},
           {| properties := properties d;
              photos := set_photo_property photo pid (photos d);
              next_id := next_id d |})).

(** One [INSERT INTO photos]: the row gets a generated id. *)
Definition insert_photo (d : Db) (r : PhotoInsert) : Db :=
  {| properties := properties d;
     photos := photos d ++ [ {| photo_id := pretty (next_id d); row := r |} ];
     next_id := S (next_id d) |}.

(** [from("photos").insert(rows)] *)
Definition insert_photos (rows : list PhotoInsert) : M (Reply unit) :=
  statement (Insert "photos")
    (λ d, ({| data := None; error := None |}, foldl insert_photo d rows)).

(** ** The stored procedure [create_property_with_photos] *)

(** The procedure is read from
    [migrations/0002_create_property_with_photos.sql].  That file keeps
    the text of the procedure in a comment block and names a later
    migration as its replacement; the replacement is not among the
    sources, so the body below is that of the text that is there. *)

(** The columns filled by the [INSERT INTO properties] of the procedure. *)
Definition inserted_columns : list string :=
  [ "title"; "description"; "address"; "city"; "state"; "zip_code"; "price";
    "bedrooms"; "bathrooms"; "square_feet"; "property_type"; "amenities";
    "latitude"; "longitude"; "furnished"; "pets_allowed"; "lease_term";
    "utilities_included"; "status"; "listing_status"; "visibility";
    "expires_at"; "auto_unpublish"; "expiration_days"; "price_history";
    "view_count"; "save_count"; "application_count"; "listed_at";
    "scheduled_publish_at"; "address_verified"; "application_fee" ].

(** [p->>'key'] as text, [NULL] when the member is not a string. *)
Definition text_of (v : json) : option string :=
  match v with JStr s => Some s | _ => None end.

Definition count_of (v : json) : nat :=
  match v with
  | JNum (Fin q) => Z.to_nat (Qfloor q)
  | _ => 0
  end.

(** The row written by [INSERT INTO properties ... RETURNING * INTO new_prop];
    [images] is not among the inserted columns and keeps its default. *)
Definition new_prop (id : string) (p : json) : Property :=
  {| prop_id := id;
     owner_id := text_of (get "owner_id" p);
     images := [];
     view_count := count_of (get "view_count" p);
     columns := map (λ c, (c, get c p)) inserted_columns |}.

(** The row written for one [img] of the [FOREACH] loop. *)
Definition creation_photo (owner : option string) (pid img : string) : PhotoInsert :=
  {| imagekit_file_id := img;
     url := img;
     thumbnail_url := img;
     category := "property";
     uploader_id := owner;
     property_id := Some pid;
     metadata := JObj [ ("source", JStr "property_creation") ] |}.

(** A statement inside the procedure: it consumes one entry of the
    failure script, and any failure raises. *)
Definition sql_fault (fs : list Fault) : option string * list Fault :=
  match fs with
  | [] => (None, [])
  | NoFault :: rest => (None, rest)
  | ErrorResult m :: rest => (Some m, rest)
  | Throws m :: rest => (Some m, rest)
  end.

(** [FOREACH img IN ARRAY image_urls LOOP INSERT INTO photos ... END LOOP] *)
Fixpoint foreach_img (owner : option string) (pid : string) (image_urls : list string)
    (d : Db) (fs : list Fault) : (string + Db) * list Fault :=
  match image_urls with
  | [] => (inr d, fs)
  | img :: rest =>
      match sql_fault fs with
      | (Some m, fs') => (inl m, fs')
      | (None, fs') =>
          foreach_img owner pid rest (insert_photo d (creation_photo owner pid img)) fs'
      end
  end.

(** ** The property repository *)

(** Modelled from the spec: a call of [propertyRepository] (the module is
    not among the sources) is one statement against the store; a store
    fault surfaces as a thrown error and writes nothing. *)
Definition repository_call {A} (e : Event) (run : Db → A * Db) : M A :=
  emit e;;;
  f <- next_fault;;
  match f with
  | NoFault =>
      d <- read_db;;
      let '(a, d') := run d in
      write_db d';;; ret a
  | ErrorResult m => throw m
  | Throws m => throw m
  end.

Definition has_id (id : string) (p : Property) : bool := String.eqb (prop_id p) id.

(** Modelled from the spec: [findPropertyById(id)] reads the row from the
    store; absence is a normal outcome ([null]). *)
Definition propertyRepository_findPropertyById (id : string) : M (option Property) :=
  repository_call (FindPropertyById id)
    (λ d, (List.find (has_id id) (properties d), d)).

(** The string entries of a list. *)
Definition texts (items : list json) : list string := omap text_of items.

(** Modelled from the spec: the patch applied to one row; the identity of
    the row stays. *)
Definition patch_property (patch : json) (r : Property) : Property :=
  {| prop_id := prop_id r;
     owner_id := owner_id r;
     images := match get "images" patch with
               | JArr items => texts items
               | _ => images r
               end;
     view_count := view_count r;
     columns := match patch with
                | JObj members => members ++ columns r
                | _ => columns r
                end |}.

(** Modelled from the spec: [updateProperty(id, patch)] applies the patch
    to the store and returns the updated row. *)
Definition propertyRepository_updateProperty (id : string) (patch : json)
    : M (option Property) :=
  repository_call (UpdatePropertyRow id)
    (λ d, let rows := map (λ p, if has_id id p then patch_property patch p else p)
                          (properties d) in
          (List.find (has_id id) rows,
           {| properties := rows; photos := photos d; next_id := next_id d |})).

(** Modelled from the spec: [deleteProperty(id)] removes the row. *)
Definition propertyRepository_deleteProperty (id : string) : M unit :=
  repository_call (DeletePropertyRow id)
    (λ d, (tt, {| properties := List.filter (λ p, negb (has_id id p)) (properties d);
                  photos := photos d; next_id := next_id d |})).

(** Modelled from the spec: [incrementPropertyViews(id)] is a counter
    increment against the store. *)
Definition propertyRepository_incrementPropertyViews (id : string) : M unit :=
  repository_call (IncrementPropertyViews id)
    (λ d, (tt, {| properties :=
                    map (λ p, if has_id id p
                              then {| prop_id := prop_id p; owner_id := owner_id p;
                                      images := images p;
                                      view_count := S (view_count p);
                                      columns := columns p |}
                              else p) (properties d);
                  photos := photos d; next_id := next_id d |})).

(** The answer of [findAllProperties]: [{ data, count }], either of which
    may be [undefined]. *)
Record FindAllResult : Type := {
  found : option (list Property);
  count : option nat;
}.

(** ** Results and responses *)

(** [{ data?, error? }] of [createProperty]. *)
Record CreateResult : Type := {
  created : option Property;
  create_error : option string;
}.

Record Association : Type := {
  photoId : string;
  propertyId : string;
}.

Inductive Payload : Type :=
  | Success (message : string)
  | ErrorResponse (message : string)
  | Reconciled (reconciled : list Association).

Record Response : Type := {
  http_status : nat;
  payload : Payload;
}.

(** The result of [insertPropertySchema.safeParse]. *)
Inductive SafeParse : Type :=
  | ParseSuccess (parsed : json)
  | ParseFailure (errors : list string).

(** ** Answers of the routes *)

(** What a route sends as the [data] of a success. *)
Inductive Sent : Type :=
  | SentNull
  | SentValue (v : CacheVal)
  | SentProperty (p : option Property).

(** The body of an answer: [success(data, message)],
    [errorResponse(message)], or the object [{ error }]. *)
Inductive RouteBody : Type :=
  | RouteSuccess (sent : Sent) (message : string)
  | RouteError (message : string)
  | RouteErrorObject (error : string).

Record RouteResponse : Type := {
  route_status : nat;
  route_body : RouteBody;
}.

(** ** Text *)

(** The character [c] occurs in [s]. *)
Fixpoint has_char (c : ascii) (s : string) : bool :=
  match s with
  | EmptyString => false
  | String a rest => Ascii.eqb a c || has_char c rest
  end.

Definition colon_free (s : string) : Prop := has_char ":" s = false.

(** ** Sample instances of what the service takes from outside *)

(** A conversion of strings to numbers that reads decimal digits: the
    whole number written by the digits, [0] for the empty string, [NaN]
    otherwise. *)
Definition digit_value (a : ascii) : option N :=
  let n := N_of_ascii a in
  if (48 <=? n)%N && (n <=? 57)%N then Some (n - 48)%N else None.

Fixpoint digits_value (s : string) (acc : N) : option N :=
  match s with
  | EmptyString => Some acc
  | String a rest =>
      match digit_value a with
      | Some d => digits_value rest (10 * acc + d)%N
      | None => None
      end
  end.

Definition sample_parseNumber (s : string) : jsnum :=
  match digits_value s 0 with
  | Some n => whole (Z.of_N n)
  | None => NaN
  end.

(** A conversion of strings to numbers that also reads a decimal
    fraction ("1.4"): the double nearest to the number written, [NaN]
    for other texts. *)
Fixpoint fraction_value (s : string) (num den : N) : option (N * N) :=
  match s with
  | EmptyString => Some (num, den)
  | String a rest =>
      match digit_value a with
      | Some d => fraction_value rest (10 * num + d)%N (10 * den)%N
      | None => None
      end
  end.

Fixpoint decimal_value (s : string) (acc : N) : option (N * N) :=
  match s with
  | EmptyString => Some (acc, 1%N)
  | String a rest =>
      if Ascii.eqb a "." then fraction_value rest acc 1
      else match digit_value a with
           | Some d => decimal_value rest (10 * acc + d)%N
           | None => None
           end
  end.

Definition decimal_parseNumber (s : string) : jsnum :=
  if String.eqb s "." then NaN
  else match decimal_value s 0 with
       | Some (n, d) => round64 (Z.of_N n # N.succ_pos (N.pred d))
       | None => NaN
       end.

(** A conversion of numbers to strings: decimal for whole numbers,
    numerator/denominator for the other finite ones. *)
Definition sample_numberToString (x : jsnum) : string :=
  match x with
  | NaN => "NaN"
  | PosInfinity => "Infinity"
  | NegInfinity => "-Infinity"
  | Fin q =>
      if Pos.eqb (Qden q) 1 then pretty (Qnum q)
      else pretty (Qnum q) +:+ "/" +:+ pretty (Zpos (Qden q))
  end.

(** A sample of the text thrown when the client is missing. *)
Definition sample_client_missing : string := "Supabase client is not configured".

(** A sample of the casts of the procedure: the owner has to be written
    as a uuid (hexadecimal digits in groups of 8, 4, 4, 4 and 12). *)
Definition is_hex (a : ascii) : bool := has_char a "0123456789abcdefABCDEF".

Fixpoint uuid_from (i : nat) (s : string) : bool :=
  match s with
  | EmptyString => Nat.eqb i 36
  | String a rest =>
      (if Nat.eqb i 8 || Nat.eqb i 13 || Nat.eqb i 18 || Nat.eqb i 23
       then Ascii.eqb a "-" else is_hex a)
      && uuid_from (S i) rest
  end.

Definition sample_cast_error (p : json) : option string :=
  match get "owner_id" p with
  | JStr s =>
      if uuid_from 0 s then None
      else Some ("invalid input syntax for type uuid: " +:+ s)
  | _ => None
  end.

(** A user with a uuid. *)
Definition sample_user : string := "7c9e6679-7425-40de-944b-e07fc1f90ae7".

(** A sample of the texts that the store takes for an entry that is not
    a string. *)
Definition sample_entry_text (v : json) : string :=
  match v with
  | JStr s => s
  | JNull => "null"
  | JBool true => "true"
  | JBool false => "false"
  | _ => "[object Object]"
  end.

(** A sample ownership middleware: it lets the request through when the
    ownership cache holds the resource, or when the stored row belongs
    to the user, which it then remembers; otherwise it answers 403, or
    404 when there is no row. *)
Definition sample_requireOwnership (resource id user : string)
    : M (option RouteResponse) :=
  λ w, if bool_decide ((resource, id) ∈ ownership w) then (Return None, w)
       else match List.find (λ p, String.eqb (prop_id p) id) (properties (db w)) with
            | Some p =>
                if bool_decide (owner_id p = Some user)
                then (Return None, with_ownership ({[ (resource, id) ]} ∪ ownership w) w)
                else (Return (Some {| route_status := 403;
                                      route_body := RouteError "Forbidden" |}), w)
            | None =>
                (Return (Some {| route_status := 404;
                                 route_body := RouteError "Not found" |}), w)
            end.

(** Field rules that accept every body, and a listing query that answers
    all the rows. *)
Definition sample_field_rules (body : json) : SafeParse := ParseSuccess body.

Definition sample_select_properties (params : GetPropertiesParams)
    (page limit : jsnum) (rows : list Property) : FindAllResult :=
  {| found := Some rows; count := Some (length rows) |}.

(** An empty world with a configured client. *)
Definition empty_world : World :=
  {| db := {| properties := []; photos := []; next_id := 0 |};
     configured := true;
     faults := [];
     cache := ∅;
     now := 0;
     ownership := ∅;
     log := [] |}.

(** The failure script lets the next store statement through. *)
Definition ready (fs : list Fault) : bool :=
  match fs with
  | [] => true
  | NoFault :: _ => true
  | _ => false
  end.

(** The message of the failure at the head of the script. *)
Definition message_of (fs : list Fault) : string :=
  match fs with
  | ErrorResult m :: _ => m
  | Throws m :: _ => m
  | _ => ""
  end.

(** The store answers the next statement normally. *)
Definition store_ready (w : World) : bool := ready (faults w).
Arguments store_ready _ /.

(** The message of the failure scripted for the next store statement. *)
Definition fault_message (w : World) : string := message_of (faults w).
Arguments fault_message _ /.

(** Every character of [s] passes the test [P]. *)
Fixpoint all_chars (P : ascii → bool) (s : string) : bool :=
  match s with
  | EmptyString => true
  | String a rest => P a && all_chars P rest
  end.

(** A decimal digit or the minus sign. *)
Definition digit_or_dash (a : ascii) : bool :=
  has_char a "0123456789-".

(** ** Sample data *)

Definition sample_property (id owner : string) (urls : list string) : Property :=
  {| prop_id := id;
     owner_id := Some owner;
     images := urls;
     view_count := 0;
     columns := [ ("title", JStr "Test Property") ] |}.

Definition sample_photo (id u : string) (pid : option string) : Photo :=
  {| photo_id := id;
     row := {| imagekit_file_id := u;
               url := u;
               thumbnail_url := u;
               category := "property";
               uploader_id := None;
               property_id := pid;
               metadata := JObj [] |} |}.

(** Two properties, an orphan photo whose url is listed by the first
    property, an orphan photo that no property lists, and a photo that
    already belongs to the second property. *)
Definition sample_world : World :=
  {| db := {| properties :=
                [ sample_property "p1" "alice" [ "https://cdn/3.jpg" ];
                  sample_property "p2" "bob" [ "https://cdn/4.jpg" ] ];
              photos :=
                [ sample_photo "ph1" "https://cdn/3.jpg" None;
                  sample_photo "ph2" "https://cdn/9.jpg" None;
                  sample_photo "ph3" "https://cdn/4.jpg" (Some "p2") ];
              next_id := 0 |};
     configured := true;
     faults := [];
     cache := ∅;
     now := 0;
     ownership := {[ ("property", "p1") ]};
     log := [] |}.

Definition no_params : GetPropertiesParams :=
  {| propertyType := None; city := None; minPrice := None; maxPrice := None;
     status := None; ownerId := None; param_page := None; param_limit := None |}.

Definition params_of (type town : option string) (pg lim : option string)
    : GetPropertiesParams :=
  {| propertyType := type; city := town; minPrice := None; maxPrice := None;
     status := None; ownerId := None; param_page := pg; param_limit := lim |}.

(** A store of seven properties and no photos. *)
Definition seven_world : World :=
  with_db
    {| properties := map (λ i : nat, sample_property (pretty i) "alice" []) (seq 0 7);
       photos := [];
       next_id := 7 |}
    sample_world.

(** The body of the end-to-end example of the specification. *)
Definition sample_body : json :=
  JObj [ ("title", JStr "Test Property");
         ("address", JStr "123 Test Lane");
         ("city", JStr "Testville");
         ("price", JStr "1000.00");
         ("images", JArr [ JStr "https://cdn.example.com/prop/1.jpg";
                           JStr "https://cdn.example.com/prop/2.jpg" ]) ].

(** The rpc goes through, the property row and the first photo row go
    in, the second photo insertion fails. *)
Definition second_photo_fails : list Fault :=
  [ NoFault; NoFault; NoFault; ErrorResult "insert or update on table photos violates a constraint" ].

(** A patch that renames the property and lists two images: one that an
    orphan photo already carries, one that is new. *)
Definition sample_patch : json :=
  JObj [ ("title", JStr "Renamed");
         ("images", JArr [ JStr "https://cdn/3.jpg"; JStr "https://cdn/5.jpg" ]) ].

(** The associations of a reconcile response with status 200. *)
Definition reconciled_list (o : Outcome Response) : option (list Association) :=
  match o with
  | Return {| http_status := 200; payload := Reconciled l |} => Some l
  | _ => None
  end.

(** The sample store with a second orphan photo of the url that no
    property lists. *)
Definition twin_world : World :=
  with_db
    {| properties := properties (db sample_world);
       photos := photos (db sample_world) ++ [ sample_photo "ph4" "https://cdn/9.jpg" None ];
       next_id := 0 |}
    sample_world.

(** 201 orphan photos with the url that property [p1] lists. *)
Definition crowded_world : World :=
  with_db
    {| properties := properties (db sample_world);
       photos := map (λ i : nat, sample_photo (pretty i) "https://cdn/3.jpg" None) (seq 0 201);
       next_id := 201 |}
    sample_world.

(** ** The property service *)

Section Service.

(** [Number(s)] and [String(n)] of the language, on strings and numbers. *)
Variable parseNumber : string → jsnum.
Variable numberToString : jsnum → string.

(** The rules of [insertPropertySchema] on the fields other than
    [images], and the query behind [findAllProperties]; both belong to
    modules that are not among the sources. *)
Variable field_rules : json → SafeParse.
Variable select_properties :
  GetPropertiesParams → jsnum → jsnum → list Property → FindAllResult.

(** [CACHE_TTL.PROPERTIES_LIST] and [CACHE_TTL.PROPERTY_DETAIL]. *)
Variable PROPERTIES_LIST : nat.
Variable PROPERTY_DETAIL : nat.

(** The text that [getSupabaseOrThrow] of the server throws when it has
    no client: the module [../../supabase] that the service and the
    router import is not among the sources. *)
Variable CLIENT_MISSING : string.

(** The casts of the stored procedure ([::uuid] on the owner in its
    declarations, [::numeric], [::integer], [::boolean], [::timestamp]
    in its [SELECT] list): the error they raise on the argument [p], if
    any.  The input functions of the database are not among the
    sources. *)
Variable cast_error : json → option string.

(** What the store makes of an entry of [images] that is not a string:
    the text it compares with the [url] column in a filter, and the
    text it writes to a text column.  The store is not among the
    sources. *)
Variable filter_text : json → string.
Variable column_text : json → string.

(** *** The store client and the stored procedure *)

(** Modelled from the spec: the store client is a collaborator whose
    failures surface upward as store faults (sections 5 and 6).
    [getSupabaseOrThrow()] hands out the client, or throws when there is
    none. *)
Definition getSupabaseOrThrow : M unit :=
  λ w, if configured w then (Return tt, w) else (Throw CLIENT_MISSING, w).

(** The body of the procedure: the raised message, or the returned row
    and the tables as the body leaves them.  A cast that fails raises
    before a row is written. *)
Definition create_property_with_photos (p : json) (image_urls : list string)
    (d : Db) (fs : list Fault) : (string + Property * Db) * list Fault :=
  match cast_error p with
  | Some m => (inl m, fs)
  | None =>
      match sql_fault fs with
      | (Some m, fs1) => (inl m, fs1)
      | (None, fs1) =>
          let inserted := new_prop (pretty (next_id d)) p in
          let d1 := {| properties := properties d ++ [inserted];
                       photos := photos d;
                       next_id := S (next_id d) |} in
          match foreach_img (owner_id inserted) (prop_id inserted) image_urls d1 fs1 with
          | (inl m, fs2) => (inl m, fs2)
          | (inr d2, fs2) => (inr (inserted, d2), fs2)
          end
      end
  end.

(** [rpc('create_property_with_photos', { p, image_urls })].  The call is
    one statement for the database: when the body raises, every row it
    wrote is undone and the reply carries the error. *)
Definition rpc_create_property_with_photos (p : json) (image_urls : list string)
    : M (Reply Property) :=
  emit (Rpc "create_property_with_photos");;;
  f <- next_fault;;
  match f with
  | Throws m => throw m
  | ErrorResult m => ret {| data := None; error := Some m |}
  | NoFault =>
      λ w, match create_property_with_photos p image_urls (db w) (faults w) with
           | (inl m, fs) =>
               (Return {| data := None; error := Some m |}, with_faults fs w)
           | (inr (inserted, d), fs) =>
               (Return {| data := Some inserted; error := None |},
                with_faults fs (with_db d w))
           end
  end.

(** [Number(v)] of an optional string: [Number(undefined)] is [NaN]. *)
Definition Number (v : option string) : jsnum :=
  match v with
  | None => NaN
  | Some s => parseNumber s
  end.

(** Modelled from the spec: [insertPropertySchema.safeParse] (the schema
    of shared/schema is not among the sources).  Section 4.2, step 1:
    the image list has at most 25 entries, every entry is a string, no
    entry begins with a data-URI scheme, every entry is an absolute
    http/https URL; any violation is a validation fault. *)
Definition insertPropertySchema_safeParse (body : json) : SafeParse :=
  match get "images" body with
  | JArr items =>
      if violates_image_contract items
      then ParseFailure [ "Invalid image list" ]
      else field_rules body
  | _ => field_rules body
  end.

(** Modelled from the spec: [findAllProperties(args)] answers the page
    of rows together with the total row count. *)
Definition propertyRepository_findAllProperties
    (params : GetPropertiesParams) (page limit : jsnum) : M FindAllResult :=
  repository_call FindAllProperties
    (λ d, (select_properties params page limit (properties d), d)).

(** *** Queries *)

Definition clamp_page (params : GetPropertiesParams) : jsnum :=
  Math_max (whole 1) (num_or (Number (param_page params)) (whole 1)).

Definition clamp_limit (params : GetPropertiesParams) : jsnum :=
  Math_min (whole 100) (Math_max (whole 1) (num_or (Number (param_limit params)) (whole 20))).

Definition cacheKey (params : GetPropertiesParams) : string :=
  String.concat ":"
    [ "properties";
      coalesce (propertyType params) "";
      coalesce (city params) "";
      coalesce (minPrice params) "";
      coalesce (maxPrice params) "";
      coalesce (status params) "active";
      coalesce (ownerId params) "";
      numberToString (clamp_page params);
      numberToString (clamp_limit params) ].

Definition paginate (page limit : jsnum) (count : nat) : Pagination :=
  let totalPages := Math_ceil (js_div (num_of_nat count) limit) in
  {| page := page;
     limit := limit;
     total := count;
     totalPages := totalPages;
     hasNextPage := js_lt page totalPages;
     hasPrevPage := js_gt page (whole 1) |}.

Definition getProperties (params : GetPropertiesParams) : M CacheVal :=
  let page := clamp_page params in
  let limit := clamp_limit params in
  cached <- cache_get (cacheKey params);;
  match cached with
  | Some hit => ret hit
  | None =>
      r <- propertyRepository_findAllProperties params page limit;;
      let result :=
        {| result_properties := coalesce (found r) [];
           pagination := paginate page limit (coalesce (count r) 0) |} in
      cache_set (cacheKey params) (CachedListing result) PROPERTIES_LIST;;;
      ret (CachedListing result)
  end.

Definition getPropertyById (id : string) : M (option CacheVal) :=
  let cacheKey := "property:" +:+ id in
  cached <- cache_get cacheKey;;
  match cached with
  | Some hit => ret (Some hit)
  | None =>
      property <- propertyRepository_findPropertyById id;;
      match property with
      | None => ret None
      | Some property =>
          cache_set cacheKey (CachedProperty property) PROPERTY_DETAIL;;;
          ret (Some (CachedProperty property))
      end
  end.

(** *** Mutations *)

(** [{ ...parsed.data, owner_id: userId }] *)
Definition with_owner (parsed : json) (userId : string) : json :=
  match parsed with
  | JObj members => JObj (("owner_id", JStr userId) :: members)
  | _ => JObj [ ("owner_id", JStr userId) ]
  end.

(** [Array.isArray(images) ? images : []] for the images of the parsed
    body, as the [text[]] argument of the procedure. *)
Definition image_urls_of (parsed : json) : list string :=
  match get "images" parsed with
  | JArr items => texts items
  | _ => []
  end.

Definition createProperty (body : json) (userId : string) : M CreateResult :=
  match insertPropertySchema_safeParse body with
  | ParseFailure errors =>
      ret {| created := None; create_error := Some (coalesce (head errors) "Invalid input") |}
  | ParseSuccess parsed =>
      let propertyData := with_owner parsed userId in
      try_catch
        (getSupabaseOrThrow;;;
         let image_urls := image_urls_of parsed in
         reply <- rpc_create_property_with_photos propertyData image_urls;;
         match error reply with
         | Some message =>
             ret {| created := None;
                    create_error := Some (str_or message "Failed to create property") |}
         | None =>
             cache_invalidate "properties:";;;
             ret {| created := data reply; create_error := None |}
         end)
        (λ message,
           ret {| created := None;
                  create_error := Some (str_or message "Failed to save property to database") |})
  end.

(** The photo row queued by [updateProperty] for one url. *)
Definition update_photo (id : string) (userId : option string) (u : string) : PhotoInsert :=
  {| imagekit_file_id := u;
     url := u;
     thumbnail_url := u;
     category := "property";
     uploader_id := if truthy userId then userId else None;
     property_id := Some id;
     metadata := JObj [ ("source", JStr "property_update") ] |}.

(** The [url] of a [.eq('url', url)] filter and of a queued row, for
    an entry of [images]: a string as it is. *)
Definition url_filter (v : json) : string :=
  match v with JStr s => s | _ => filter_text v end.

Definition url_column (v : json) : string :=
  match v with JStr s => s | _ => column_text v end.

(** [for (const url of images) { try { ... } catch (e) { ... } }] with
    the queue [toInsert] threaded through.  The loop takes every entry
    of [images], whatever its type. *)
Fixpoint associate_images (id : string) (userId : option string)
    (urls : list json) (toInsert : list PhotoInsert) : M (list PhotoInsert) :=
  match urls with
  | [] => ret toInsert
  | u :: rest =>
      queued <- try_catch
        (existing <- select_orphan_photo_by_url (url_filter u);;
         if truthy (data existing) then
           update_photo_property (coalesce (data existing) "") id;;;
           ret toInsert
         else ret (toInsert ++ [update_photo id userId (url_column u)]))
        (λ _, ret (toInsert ++ [update_photo id userId (url_column u)]));;
      associate_images id userId rest queued
  end.

(** The photo association of [updateProperty]: whatever it throws is
    logged and dropped. *)
Definition associate_photos (id : string) (updateData : json)
    (userId : option string) : M unit :=
  try_catch
    (match get "images" updateData with
     | JArr (first :: others) =>
         getSupabaseOrThrow;;;
         toInsert <- associate_images id userId (first :: others) [];;
         match toInsert with
         | [] => ret tt
         | _ => insert_photos toInsert;;; ret tt
         end
     | _ => ret tt
     end)
    (λ _, ret tt).

(** [userId && property.owner_id !== userId] *)
Definition not_owner (userId : option string) (property : Property) : bool :=
  truthy userId && negb (bool_decide (owner_id property = userId)).

Definition updateProperty (id : string) (updateData : json) (userId : option string)
    : M (option Property) :=
  property <- propertyRepository_findPropertyById id;;
  match property with
  | None => throw "Property not found"
  | Some property =>
      if not_owner userId property then
        throw "Unauthorized: You do not own this property"
      else
        updated <- propertyRepository_updateProperty id updateData;;
        associate_photos id updateData userId;;;
        cache_invalidate ("property:" +:+ id);;;
        cache_invalidate "properties:";;;
        invalidateOwnershipCache "property" id;;;
        ret updated
  end.

Definition deleteProperty (id : string) (userId : option string) : M unit :=
  property <- propertyRepository_findPropertyById id;;
  match property with
  | None => throw "Property not found"
  | Some property =>
      if not_owner userId property then
        throw "Unauthorized: You do not own this property"
      else
        propertyRepository_deleteProperty id;;;
        cache_invalidate ("property:" +:+ id);;;
        cache_invalidate "properties:";;;
        invalidateOwnershipCache "property" id;;;
        ret tt
  end.

Definition recordPropertyView (propertyId : string) : M unit :=
  propertyRepository_incrementPropertyViews propertyId.

(** *** Route handlers *)

(** [router.post("/:id/view", ...)] *)
Definition post_view (id : string) : M Response :=
  try_catch
    (recordPropertyView id;;;
     ret {| http_status := 200; payload := Success "View recorded" |})
    (λ _, ret {| http_status := 500; payload := ErrorResponse "Failed to record view" |}).

(** The [for (const p of orphanPhotos || [])] loop of the reconcile
    handler, with the list [reconciled] threaded through. *)
Fixpoint reconcile_loop (orphanPhotos : list (string * string))
    (reconciled : list Association) : M (list Association) :=
  match orphanPhotos with
  | [] => ret reconciled
  | p :: rest =>
      reconciled' <- try_catch
        (matched <- select_property_containing p.2;;
         if truthy (data matched) then
           update_photo_property p.1 (coalesce (data matched) "");;;
           ret (reconciled ++ [ {| photoId := p.1; propertyId := coalesce (data matched) "" |} ])
         else ret reconciled)
        (λ _, ret reconciled);;
      reconcile_loop rest reconciled'
  end.

(** [router.post("/reconcile-photos", ...)] *)
Definition reconcile_photos : M Response :=
  try_catch
    (getSupabaseOrThrow;;;
     fetched <- select_orphan_photos 200;;
     reconciled <- reconcile_loop (coalesce (data fetched) []) [];;
     ret {| http_status := 200; payload := Reconciled reconciled |})
    (λ message,
       ret {| http_status := 500;
              payload := ErrorResponse (str_or message "Failed to reconcile photos") |}).

(** *** Notions used in the statements *)

(** A number that is at least one: a finite one, or [Infinity]. *)
Definition at_least_one (x : jsnum) : Prop :=
  match x with
  | Fin q => (1 ≤ q)%Qc
  | PosInfinity => True
  | _ => False
  end.

(** The unit roundoff of binary64: the relative error of one rounding
    is at most [2^-53]. *)
Definition unit_roundoff : Qc := Q2Qc (2 ^ (-53))%Q.

(** What a read of the cache answers, without the eviction. *)
Definition cache_peek (w : World) (key : string) : option CacheVal :=
  match cache w !! key with
  | Some e => if (expiry e <? now w)%nat then None else Some (value e)
  | None => None
  end.

(** The entries after a read of [key]: a stale entry under [key] is gone. *)
Definition cache_after_get (w : World) (key : string) : gmap string CacheEntry :=
  match cache w !! key with
  | Some e => if (expiry e <? now w)%nat then delete key (cache w) else cache w
  | None => cache w
  end.


(** The total row count the store answers for a listing query. *)
Definition store_count (params : GetPropertiesParams) (w : World) : nat :=
  coalesce
    (count (select_properties params (clamp_page params) (clamp_limit params)
              (properties (db w))))
    0.

(** The tuple of filter dimensions of a listing query. *)
Definition filter_tuple (params : GetPropertiesParams)
    : option string * option string * option string * option string
      * string * option string * jsnum * jsnum :=
  (propertyType params, city params, minPrice params, maxPrice params,
   coalesce (status params) "active", ownerId params,
   clamp_page params, clamp_limit params).

(** The same tuple with an absent filter read as the empty text. *)
Definition key_tuple (params : GetPropertiesParams)
    : string * string * string * string * string * string * jsnum * jsnum :=
  (coalesce (propertyType params) "", coalesce (city params) "",
   coalesce (minPrice params) "", coalesce (maxPrice params) "",
   coalesce (status params) "active", coalesce (ownerId params) "",
   clamp_page params, clamp_limit params).

(** No filter of the query contains the separator of the key. *)
Definition colon_free_filters (params : GetPropertiesParams) : Prop :=
  colon_free (coalesce (propertyType params) "")
  ∧ colon_free (coalesce (city params) "")
  ∧ colon_free (coalesce (minPrice params) "")
  ∧ colon_free (coalesce (maxPrice params) "")
  ∧ colon_free (coalesce (status params) "active")
  ∧ colon_free (coalesce (ownerId params) "").

(** A cache or ownership invalidation. *)
Definition is_invalidation (e : Event) : bool :=
  match e with
  | CacheInvalidate _ | InvalidateOwnership _ _ => true
  | _ => false
  end.

(** A statement sent through the store client. *)
Definition is_statement (e : Event) : bool :=
  match e with
  | Rpc _ | Select _ | Update _ | Insert _ => true
  | _ => false
  end.

(** [w'] comes from [w] by statements on the photos alone: the
    properties, both caches, the clock and the client are the same, and
    the log grew by store statements. *)
Definition photo_step (w w' : World) : Prop :=
  properties (db w') = properties (db w)
  ∧ cache w' = cache w
  ∧ now w' = now w
  ∧ ownership w' = ownership w
  ∧ configured w' = configured w
  ∧ ∃ es, log w' = log w ++ es ∧ Forall (λ e, is_statement e = true) es.

(** The world after the three invalidations that end a write. *)
Definition invalidated (id : string) (w w' : World) : Prop :=
  log w' = log w ++ [ CacheInvalidate ("property:" +:+ id);
                      CacheInvalidate "properties:";
                      InvalidateOwnership "property" id ]
  ∧ cache w' =
      filter (λ kv, String.prefix "properties:" kv.1 = false)
        (filter (λ kv, String.prefix ("property:" +:+ id) kv.1 = false) (cache w))
  ∧ ownership w' = ownership w ∖ {[ ("property", id) ]}
  ∧ db w' = db w
  ∧ now w' = now w
  ∧ faults w' = faults w
  ∧ configured w' = configured w.

(** The property that the reconciler associates with a url: the answer
    of its lookup, when that answer carries a truthy id. *)
Definition matched_property (rows : list Property) (u : string) : option string :=
  let matched := data (property_containing rows u) in
  if truthy matched then Some (coalesce matched "") else None.

(** One photo row after the reconciler went through the batch [pairs]
    without a store failure. *)
Definition row_after (rows : list Property) (pairs : list (string * string))
    (r : Photo) : Photo :=
  foldl (λ r p,
           match matched_property rows p.2 with
           | Some pid =>
               if String.eqb (photo_id r) p.1 then set_property_id (Some pid) r else r
           | None => r
           end) r pairs.

(** The associations that the reconciler reports for the batch [pairs]
    when no store statement fails. *)
Definition reconciled_of (rows : list Property) (pairs : list (string * string))
    : list Association :=
  omap (λ p, (λ pid, {| photoId := p.1; propertyId := pid |})
               <$> matched_property rows p.2) pairs.

(** The cache holds a detail entry only for a property of the store. *)
Definition cache_coherent (w : World) : Prop :=
  ∀ id, is_Some (cache w !! ("property:" +:+ id)) →
        id ∈ map prop_id (properties (db w)).

(** The worlds that the service reaches.  The process starts with an
    empty cache, whatever the store holds.  The operations of the
    service and the reconcile handler lead from world to world.  The
    environment lets time pass, scripts failures, configures the client,
    fills the ownership cache and writes photos: it leaves the cache of
    the service and the properties table, which the service alone
    writes, as they are. *)
Inductive reachable : World → Prop :=
  | reach_start (w : World) :
      cache w = ∅ → reachable w
  | reach_environment (w w' : World) :
      reachable w →
      cache w' = cache w →
      properties (db w') = properties (db w) →
      reachable w'
  | reach_createProperty (w : World) (body : json) (userId : string) :
      reachable w → reachable (createProperty body userId w).2
  | reach_getProperties (w : World) (params : GetPropertiesParams) :
      reachable w → reachable (getProperties params w).2
  | reach_getPropertyById (w : World) (id : string) :
      reachable w → reachable (getPropertyById id w).2
  | reach_updateProperty (w : World) (id : string) (updateData : json)
      (userId : option string) :
      reachable w → reachable (updateProperty id updateData userId w).2
  | reach_deleteProperty (w : World) (id : string) (userId : option string) :
      reachable w → reachable (deleteProperty id userId w).2
  | reach_recordPropertyView (w : World) (id : string) :
      reachable w → reachable (recordPropertyView id w).2
  | reach_reconcile_photos (w : World) :
      reachable w → reachable (reconcile_photos w).2.

(** The world after [n] calls of [getPropertyById(id)] in a row. *)
Fixpoint after_lookups (id : string) (n : nat) (w : World) : World :=
  match n with
  | 0 => w
  | S n => (getPropertyById id (after_lookups id n w)).2
  end.

(** From [w] to [w'] the cache lost entries at most and the properties
    table lost no id. *)
Definition narrows (w w' : World) : Prop :=
  (∀ k, is_Some (cache w' !! k) → is_Some (cache w !! k))
  ∧ (∀ id, id ∈ map prop_id (properties (db w)) →
           id ∈ map prop_id (properties (db w'))).

(** *** The routes of the property router *)

(** [hay.includes(needle)] *)
Fixpoint includes (needle hay : string) : bool :=
  String.prefix needle hay
  || match hay with
     | EmptyString => false
     | String _ rest => includes needle rest
     end.

(** [router.get("/", ...)] *)
Definition get_properties_route (params : GetPropertiesParams) : M RouteResponse :=
  try_catch
    (result <- getProperties params;;
     ret {| route_status := 200;
            route_body := RouteSuccess (SentValue result) "Properties fetched successfully" |})
    (λ _, ret {| route_status := 500;
                 route_body := RouteError "Failed to fetch properties" |}).

(** [router.get("/:id", ...)] *)
Definition get_property_route (id : string) : M RouteResponse :=
  try_catch
    (found <- getPropertyById id;;
     match found with
     | None =>
         ret {| route_status := 404; route_body := RouteError "Property not found" |}
     | Some v =>
         ret {| route_status := 200;
                route_body := RouteSuccess (SentValue v) "Property fetched successfully" |}
     end)
    (λ _, ret {| route_status := 500;
                 route_body := RouteError "Failed to fetch property" |}).

(** [router.post("/", authenticateToken, ...)], once the middleware let
    the request of user [userId] through. *)
Definition post_property_route (body : json) (userId : string) : M RouteResponse :=
  try_catch
    (result <- createProperty body userId;;
     if truthy (create_error result) then
       ret {| route_status := 400;
              route_body := RouteErrorObject (coalesce (create_error result) "") |}
     else
       ret {| route_status := 200;
              route_body := RouteSuccess (SentProperty (created result))
                              "Property created successfully" |})
    (λ _, ret {| route_status := 500;
                 route_body := RouteError "Failed to create property" |}).

(** The ownership middleware [requireOwnership(resource)] of the
    router, for the request of the authenticated user [userId] on the
    resource [id]: it answers the request itself, or lets it through to
    the handler.  The module [auth-middleware] is not among the sources,
    and the specification takes its verdict as an input. *)
Variable requireOwnership : string → string → string → M (option RouteResponse).

(** A handler behind [authenticateToken] and [requireOwnership(resource)],
    for a request that [authenticateToken] let through as user
    [userId]. *)
Definition behind_ownership (resource id userId : string)
    (handler : M RouteResponse) : M RouteResponse :=
  verdict <- requireOwnership resource id userId;;
  match verdict with
  | Some answer => ret answer
  | None => handler
  end.

(** The handler of [router.patch("/:id", ...)]. *)
Definition patch_property_handler (id : string) (body : json) (userId : string)
    : M RouteResponse :=
  try_catch
    (updated <- updateProperty id body (Some userId);;
     ret {| route_status := 200;
            route_body := RouteSuccess (SentProperty updated)
                            "Property updated successfully" |})
    (λ message,
       if negb (String.eqb message "") && includes "Unauthorized" message then
         ret {| route_status := 403; route_body := RouteError message |}
       else
         ret {| route_status := 500;
                route_body := RouteError "Failed to update property" |}).

(** [router.patch("/:id", authenticateToken, requireOwnership("property"), ...)] *)
Definition patch_property_route (id : string) (body : json) (userId : string)
    : M RouteResponse :=
  behind_ownership "property" id userId (patch_property_handler id body userId).

(** The handler of [router.delete("/:id", ...)]: the service is called
    without the requester. *)
Definition delete_property_handler (id : string) : M RouteResponse :=
  try_catch
    (deleteProperty id None;;;
     ret {| route_status := 200;
            route_body := RouteSuccess SentNull "Property deleted successfully" |})
    (λ _, ret {| route_status := 500;
                 route_body := RouteError "Failed to delete property" |}).

(** [router.delete("/:id", authenticateToken, requireOwnership("property"), ...)] *)
Definition delete_property_route (id : string) (userId : string) : M RouteResponse :=
  behind_ownership "property" id userId (delete_property_handler id).

(** *** Notions used in further statements *)

(** The world at a later (or any other) time. *)
Definition at_time (t : nat) (w : World) : World := with_now t w.

(** Some photo row with url [u] refers to property [pid]. *)
Definition linked (rows : list Photo) (u pid : string) : Prop :=
  ∃ r, r ∈ rows ∧ url (row r) = u ∧ property_id (row r) = Some pid.

(** The url [u] is served by the store or by the queue of rows to
    insert: a row of it refers to property [pid]. *)
Definition provided (rows : list Photo) (queue : list PhotoInsert) (u pid : string)
    : Prop :=
  linked rows u pid
  ∨ ∃ r, r ∈ queue ∧ url r = u ∧ property_id r = Some pid.

(** A photo row after a pass of the reconciler over the batch [pairs]:
    the row as it was, or the row with the reference that the lookup
    for an entry of its id gave. *)
Definition relinked (rows : list Property) (pairs : list (string * string))
    (r r' : Photo) : Prop :=
  r' = r
  ∨ ∃ p pid, p ∈ pairs ∧ p.1 = photo_id r
             ∧ matched_property rows p.2 = Some pid
             ∧ r' = set_property_id (Some pid) r.

(** What a pass of the reconciler may do to a photo row when [rows] are
    the properties: leave it, or give an orphan the reference of a
    property that lists its url. *)
Definition adopted (rows : list Property) (r r' : Photo) : Prop :=
  r' = r
  ∨ (is_orphan r = true
     ∧ ∃ q, q ∈ rows ∧ url (row r) ∈ images q
            ∧ r' = set_property_id (Some (prop_id q)) r).

(** The world with the store client configured or not. *)
Definition with_configured (c : bool) (w : World) : World :=
  {| db := db w; configured := c; faults := faults w; cache := cache w;
     now := now w; ownership := ownership w; log := log w |}.
(** * Properties *)

(** Propositional reasoning on the goal and its hypotheses alone. *)
Ltac propositional :=
  repeat match goal with
         | x : ?T |- _ =>
             lazymatch type of T with Prop => fail | _ => clear x end
         end;
  tauto.

(** ** Numbers *)

Lemma Qcltb_lt (x y : Qc) : Qcltb x y = true ↔ (x < y)%Qc.
Proof.
  unfold Qcltb. rewrite Qclt_alt.
  destruct (x ?= y)%Qc; split; congruence.
Qed.

Lemma Qcltb_ge (x y : Qc) : Qcltb x y = false ↔ (y ≤ x)%Qc.
Proof.
  rewrite Qcle_ngt, <- Qcltb_lt. destruct (Qcltb x y); split; congruence.
Qed.

Lemma Qceqb_eq (x y : Qc) : Qceqb x y = true ↔ x = y.
Proof.
  unfold Qceqb. rewrite Qceq_alt.
  destruct (x ?= y)%Qc; split; congruence.
Qed.

Lemma num_or_not_NaN (a d : jsnum) : d ≠ NaN → num_or a d ≠ NaN.
Proof.
  unfold num_or. destruct a; simpl; try done.
  destruct (Qceqb q 0); simpl; done.
Qed.

Lemma Math_max_one (x : jsnum) : x ≠ NaN → at_least_one (Math_max (whole 1) x).
Proof.
  destruct x as [| | |q]; intros Hx; try done.
  unfold Math_max, whole, js_lt.
  destruct (Qcltb (Qc_of_Z 1) q) eqn:E; simpl; [|done].
  apply Qcltb_lt in E. by apply Qclt_le_weak.
Qed.

Lemma Math_min_hundred (x : jsnum) :
  at_least_one x →
  ∃ q, Math_min (whole 100) x = Fin q ∧ (1 ≤ q)%Qc ∧ (q ≤ Qc_of_Z 100)%Qc.
Proof.
  destruct x as [| | |q]; simpl; try done.
  - intros _. exists (Qc_of_Z 100). split; [done|]. split; [done|apply Qcle_refl].
  - intros Hq. unfold Math_min, whole, js_lt.
    destruct (Qcltb q (Qc_of_Z 100)) eqn:E.
    + exists q. apply Qcltb_lt in E. split; [done|]. split; [done|by apply Qclt_le_weak].
    + exists (Qc_of_Z 100). split; [done|]. split; [done|apply Qcle_refl].
Qed.

(** ** Running the primitives *)

Lemma with_cache_same (w : World) : with_cache (cache w) w = w.
Proof. by destruct w. Qed.

Lemma cache_get_run (key : string) (w : World) :
  cache_get key w =
    (Return (cache_peek w key),
     with_cache (cache_after_get w key) (with_log (log w ++ [CacheGet key]) w)).
Proof.
  unfold cache_get, bind, emit, cache_peek, cache_after_get. simpl.
  destruct (cache w !! key) as [e|]; [destruct (expiry e <? now w)%nat|]; try done.
Qed.

Lemma next_fault_ready (w : World) :
  store_ready w = true →
  next_fault w = (Return NoFault, with_faults (tail (faults w)) w).
Proof.
  unfold next_fault. destruct w as [d c fs ca t o l]; simpl.
  destruct fs as [|[]]; simpl; done.
Qed.

Lemma repository_call_ready {A} (e : Event) (run : Db → A * Db) (w : World) :
  store_ready w = true →
  repository_call e run w =
    (Return (run (db w)).1,
     with_db (run (db w)).2 (with_faults (tail (faults w)) (with_log (log w ++ [e]) w))).
Proof.
  intros Hready. unfold repository_call, bind, emit, read_db, write_db, ret.
  rewrite next_fault_ready by done. simpl. by destruct (run (db w)).
Qed.

Lemma repository_call_fault {A} (e : Event) (run : Db → A * Db) (w : World) :
  store_ready w = false →
  repository_call e run w =
    (Throw (fault_message w),
     with_faults (tail (faults w)) (with_log (log w ++ [e]) w)).
Proof.
  unfold repository_call, bind, emit, next_fault, throw.
  destruct w as [d c fs ca t o l]; simpl.
  destruct fs as [|[| m | m] fs]; simpl; intros; done.
Qed.

Lemma repository_call_run {A} (e : Event) (run : Db → A * Db) (w : World) :
  repository_call e run w =
    if store_ready w
    then (Return (run (db w)).1,
          with_db (run (db w)).2
            (with_faults (tail (faults w)) (with_log (log w ++ [e]) w)))
    else (Throw (fault_message w),
          with_faults (tail (faults w)) (with_log (log w ++ [e]) w)).
Proof.
  destruct (store_ready w) eqn:E.
  - by apply repository_call_ready.
  - by apply repository_call_fault.
Qed.

(** ** Image validation *)

Lemma validateImageUrl_contract (v : json) :
  validateImageUrl v = Return tt ↔
  is_string v = true ∧ begins_with_data_uri v = false ∧ is_absolute_http_url v = true.
Proof.
  destruct v; simpl; try (split; [done | intros (? & ? & ?); done]).
  destruct (String.prefix "data:" s); simpl.
  { split; [done | intros (? & ? & ?); done]. }
  destruct (String.prefix "http://" s), (String.prefix "https://" s); simpl;
    split; try done; intros (? & ? & ?); done.
Qed.

Lemma validateImageUrls_loop_contract (items : list json) :
  validateImageUrls_loop items = Return tt ↔
  existsb (λ v, negb (is_string v)) items = false
  ∧ existsb begins_with_data_uri items = false
  ∧ existsb (λ v, negb (is_absolute_http_url v)) items = false.
Proof.
  induction items as [|v items IH]; simpl; [done|].
  rewrite !orb_false_iff, !negb_false_iff.
  destruct (validateImageUrl v) as [[]|m] eqn:E.
  - apply validateImageUrl_contract in E as (-> & -> & ->). rewrite IH. propositional.
  - split; [done|]. intros ((Hs & _) & (Hd & _) & (Hu & _)).
    assert (validateImageUrl v = Return tt) as E' by by apply validateImageUrl_contract.
    congruence.
Qed.

(** The helper of the service accepts exactly the lists that keep the
    contract of the specification. *)
Lemma validateImageUrls_contract (items : list json) :
  validateImageUrls (JArr items) = Return tt ↔ violates_image_contract items = false.
Proof.
  unfold validateImageUrls, violates_image_contract.
  rewrite !orb_false_iff.
  destruct (25 <? length items) eqn:E.
  - split; [done | intros [[[? ?] ?] ?]; done].
  - rewrite validateImageUrls_loop_contract. propositional.
Qed.

(** C2 — A body whose image list breaks the image-URL contract (more
    than 25 entries, an entry that is not a string, an entry that begins
    with the data-URI scheme, or an entry that is not an absolute
    http/https URL) makes [createProperty] return a validation error as a
    result value, and the world is left as it was: no store call, no
    cache access, no row written. *)
Theorem createProperty_rejects_bad_images
    (body : json) (userId : string) (w : World) (items : list json) :
  get "images" body = JArr items →
  violates_image_contract items = true →
  ∃ message,
    createProperty body userId w =
      (Return {| created := None; create_error := Some message |}, w).
Proof.
  intros Himages Hbad. unfold createProperty, insertPropertySchema_safeParse.
  rewrite Himages, Hbad. by eexists.
Qed.

(** ** Atomic creation *)

Lemma foreach_img_done (owner : option string) (pid : string) (urls : list string)
    (d d' : Db) (fs fs' : list Fault) :
  foreach_img owner pid urls d fs = (inr d', fs') →
  properties d' = properties d
  ∧ ∃ added : list Photo,
      photos d' = photos d ++ added
      ∧ map row added = map (creation_photo owner pid) urls.
Proof.
  revert d fs. induction urls as [|img urls IH]; intros d fs; simpl.
  - intros [= <- <-]. split; [done|]. exists []. by rewrite app_nil_r.
  - destruct (sql_fault fs) as [[m|] fs1]; [done|].
    intros Hrest. apply IH in Hrest as (Hprops & added & Hphotos & Hrows).
    split; [done|]. simpl in Hphotos.
    eexists (_ :: added). rewrite Hphotos, <- app_assoc. split; [done|].
    simpl. by rewrite Hrows.
Qed.

Lemma foreach_img_raises (owner : option string) (pid : string) (urls : list string)
    (d : Db) (k : nat) (f : Fault) (rest : list Fault) :
  f ≠ NoFault →
  k < length urls →
  ∃ m, foreach_img owner pid urls d (replicate k NoFault ++ f :: rest) = (inl m, rest).
Proof.
  intros Hf. revert d k. induction urls as [|img urls IH]; intros d k Hk; simpl in *.
  - lia.
  - destruct k as [|k]; simpl.
    + destruct f; [done | by eexists..].
    + apply IH. lia.
Qed.

Lemma member_owner (parsed : json) (userId : string) :
  text_of (get "owner_id" (with_owner parsed userId)) = Some userId.
Proof. by destruct parsed. Qed.

Lemma create_property_with_photos_done (parsed : json) (userId : string)
    (urls : list string) (d d' : Db) (fs fs' : list Fault) (inserted : Property) :
  create_property_with_photos (with_owner parsed userId) urls d fs
    = (inr (inserted, d'), fs') →
  owner_id inserted = Some userId
  ∧ properties d' = properties d ++ [inserted]
  ∧ ∃ added : list Photo,
      photos d' = photos d ++ added
      ∧ map row added = map (creation_photo (Some userId) (prop_id inserted)) urls.
Proof.
  unfold create_property_with_photos.
  destruct (cast_error (with_owner parsed userId)) as [m|]; [done|].
  destruct (sql_fault fs) as [[m|] fs1]; [done|].
  destruct (foreach_img _ _ _ _ _) as [[m|d2] fs2] eqn:Hloop; [done|].
  intros [= <- <- <-]. apply foreach_img_done in Hloop as (Hprops & added & Hphotos & Hrows).
  simpl in *. rewrite member_owner in *. eauto.
Qed.

Lemma create_property_with_photos_raises (p : json) (urls : list string) (d : Db)
    (k : nat) (f : Fault) (rest : list Fault) :
  f ≠ NoFault →
  k < length urls →
  ∃ m fs,
    create_property_with_photos p urls d (NoFault :: replicate k NoFault ++ f :: rest)
    = (inl m, fs).
Proof.
  intros Hf Hk. unfold create_property_with_photos.
  destruct (cast_error p) as [m|]; [by eexists _, _|]. cbn [sql_fault].
  match goal with |- context [foreach_img ?o ?pid ?u ?d1 _] =>
    destruct (foreach_img_raises o pid u d1 k f rest Hf Hk) as [m ->]
  end.
  by exists m, rest.
Qed.

(** The two ways [createProperty] ends: with an error and the tables as
    they were, or with the row that the procedure returned. *)
Lemma createProperty_cases (body : json) (userId : string) (w : World) :
  (∃ message w',
     createProperty body userId w
       = (Return {| created := None; create_error := Some message |}, w')
     ∧ db w' = db w
     ∧ cache w' = cache w)
  ∨ (∃ parsed inserted d fs w',
       insertPropertySchema_safeParse body = ParseSuccess parsed
       ∧ ready (faults w) = true
       ∧ create_property_with_photos (with_owner parsed userId) (image_urls_of parsed)
           (db w) (tail (faults w)) = (inr (inserted, d), fs)
       ∧ createProperty body userId w
           = (Return {| created := Some inserted; create_error := None |}, w')
       ∧ db w' = d
       ∧ cache w'
         = filter (λ kv, String.prefix "properties:" kv.1 = false) (cache w)).
Proof.
  unfold createProperty.
  destruct (insertPropertySchema_safeParse body) as [parsed|errors] eqn:Hparse.
  2: { left. by eexists _, _. }
  unfold try_catch, bind, getSupabaseOrThrow.
  destruct (configured w) eqn:Hconf.
  2: { left. by eexists _, _. }
  unfold rpc_create_property_with_photos, bind, emit, next_fault.
  destruct w as [d0 c fs0 ca t o l]; simpl in *.
  destruct fs0 as [|[|m|m] fs0]; simpl;
    try (left; by eexists _, _);
    destruct (create_property_with_photos _ _ _ _) as [[m|[inserted d]] fs] eqn:Hproc;
    simpl;
    try (left; by eexists _, _);
    right; by eexists parsed, inserted, d, fs, _.
Qed.


(** ** Rounding to binary64 *)

Lemma pow2_pos (k : Z) : (0 < 2 ^ k)%Q.
Proof. apply Qpower_0_lt. reflexivity. Qed.

Lemma pow2_succ (k : Z) : (2 ^ (k + 1) == 2 * 2 ^ k)%Q.
Proof. rewrite Qpower_plus by discriminate. rewrite Qpower_1_r. ring. Qed.

Lemma pow2_log2 (n : Z) :
  (0 < n)%Z →
  (2 ^ Z.log2 n <= inject_Z n)%Q ∧ (inject_Z n < 2 * 2 ^ Z.log2 n)%Q.
Proof.
  intros Hn. destruct (Z.log2_spec n Hn) as [Hlo Hhi].
  pose proof (Z.log2_nonneg n) as Hnn.
  split.
  - change 2%Q with (inject_Z 2) at 1. rewrite <- Zpower_Qpower by exact Hnn.
    rewrite <- Zle_Qle. exact Hlo.
  - rewrite <- pow2_succ. change 2%Q with (inject_Z 2).
    rewrite <- Zpower_Qpower by lia. rewrite <- Zlt_Qlt.
    replace (Z.log2 n + 1)%Z with (Z.succ (Z.log2 n)) by lia. exact Hhi.
Qed.

(** The binade of a positive rational holds it. *)
Lemma binade_spec (x : Q) :
  (0 < x)%Q → (2 ^ binade x <= x)%Q ∧ (x < 2 ^ (binade x + 1))%Q.
Proof.
  intros Hx. unfold binade.
  set (e0 := (Z.log2 (Qnum x) - Z.log2 (Z.pos (Qden x)))%Z).
  assert (0 < Qnum x)%Z as Hn.
  { destruct x as [n d]. unfold Qlt in Hx. simpl in *. lia. }
  destruct (pow2_log2 (Qnum x) Hn) as [HA1 HA2].
  destruct (pow2_log2 (Z.pos (Qden x)) eq_refl) as [HB1 HB2].
  pose proof (pow2_pos (Z.log2 (Qnum x))) as HA.
  pose proof (pow2_pos (Z.log2 (Z.pos (Qden x)))) as HB.
  assert (x * inject_Z (Z.pos (Qden x)) == inject_Z (Qnum x))%Q as Hxd.
  { destruct x as [n d]. unfold Qeq, inject_Z, Qmult. simpl. lia. }
  assert (2 ^ e0 * 2 ^ Z.log2 (Z.pos (Qden x)) == 2 ^ Z.log2 (Qnum x))%Q as He0.
  { unfold e0. rewrite Qpower_minus by discriminate. field.
    intros H. rewrite H in HB. discriminate. }
  set (A := (2 ^ Z.log2 (Qnum x))%Q) in *.
  set (B := (2 ^ Z.log2 (Z.pos (Qden x)))%Q) in *.
  set (N := inject_Z (Qnum x)) in *.
  set (D := inject_Z (Z.pos (Qden x))) in *.
  pose proof (pow2_pos e0) as HE.
  assert (x < 2 * 2 ^ e0)%Q as Hup.
  { apply Qnot_le_lt. intros Hle.
    assert (2 * 2 ^ e0 * B <= x * D)%Q by nra. nra. }
  assert (2 ^ e0 < 2 * x)%Q as Hlow.
  { apply Qnot_le_lt. intros Hle.
    assert (2 * x * D <= 2 ^ e0 * (2 * B))%Q by nra. nra. }
  destruct (Qle_bool (2 ^ e0) x) eqn:Hcmp.
  - apply Qle_bool_iff in Hcmp. split; [exact Hcmp|]. rewrite pow2_succ. exact Hup.
  - assert (x < 2 ^ e0)%Q as Hlt.
    { apply Qnot_le_lt. intros H. apply Qle_bool_iff in H. congruence. }
    replace (e0 - 1 + 1)%Z with e0 by lia. split; [|exact Hlt].
    assert (2 ^ e0 == 2 * 2 ^ (e0 - 1))%Q as Heq.
    { rewrite <- pow2_succ. replace (e0 - 1 + 1)%Z with e0 by lia. reflexivity. }
    rewrite Heq in Hlow. lra.
Qed.

Lemma round_half_even_error (m : Q) :
  (m - (1 # 2) <= inject_Z (round_half_even m))%Q
  ∧ (inject_Z (round_half_even m) <= m + (1 # 2))%Q.
Proof.
  unfold round_half_even.
  pose proof (Qfloor_le m) as Hlo. pose proof (Qlt_floor m) as Hhi.
  rewrite inject_Z_plus in Hhi. change (inject_Z 1) with 1%Q in Hhi.
  destruct (Qcompare_spec (m - inject_Z (Qfloor m)) (1 # 2)) as [Heq|Hlt|Hgt].
  - destruct (Z.even (Qfloor m)); rewrite ?inject_Z_plus;
      change (inject_Z 1) with 1%Q; lra.
  - lra.
  - rewrite inject_Z_plus. change (inject_Z 1) with 1%Q. lra.
Qed.

Lemma round_half_even_whole (m : Q) (j : Z) :
  (m == inject_Z j)%Q → round_half_even m = j.
Proof.
  intros Hm. unfold round_half_even.
  assert (Qfloor m = j) as Hf by (rewrite Hm; apply Qfloor_Z).
  rewrite Hf.
  destruct (Qcompare_spec (m - inject_Z j) (1 # 2)) as [Heq|Hlt|Hgt];
    [lra|reflexivity|lra].
Qed.

(** In the normal range and below [2^53] the nearest double is finite,
    within the relative error [2^-53] of the number, and the number
    itself when that is whole. *)
Lemma nearest_double_normal (x : Q) :
  (2 ^ (-1022) <= x)%Q → (x < 2 ^ 53)%Q →
  ∃ y : Q,
    nearest_double x = Fin (Q2Qc y)
    ∧ (x * (1 - 2 ^ (-53)) <= y)%Q
    ∧ (y <= x * (1 + 2 ^ (-53)))%Q
    ∧ ∀ j : Z, (x == inject_Z j)%Q → (y == x)%Q.
Proof.
  intros Hlo Hhi.
  assert (0 < x)%Q as Hx by (pose proof (pow2_pos (-1022)); lra).
  destruct (binade_spec x Hx) as [He1 He2].
  assert (-1022 <= binade x)%Z as Hemin.
  { assert (2 ^ (-1022) < 2 ^ (binade x + 1))%Q as H by lra.
    apply Qpower_lt_compat_l_inv in H; [lia|reflexivity]. }
  assert (binade x <= 52)%Z as Hemax.
  { assert (2 ^ binade x < 2 ^ 53)%Q as H by lra.
    apply Qpower_lt_compat_l_inv in H; [lia|reflexivity]. }
  unfold nearest_double, ulp_exponent.
  replace (Z.max (binade x - 52) (-1074)) with (binade x - 52)%Z by lia.
  set (k := (binade x - 52)%Z).
  pose proof (pow2_pos k) as Hk.
  set (m := (x / 2 ^ k)%Q).
  assert (m * 2 ^ k == x)%Q as Hm by (unfold m; field; lra).
  destruct (round_half_even_error m) as [HM1 HM2].
  set (M := inject_Z (round_half_even m)) in *.
  assert (2 ^ k == 2 * (2 ^ binade x * 2 ^ (-53)))%Q as Hulp.
  { unfold k. replace (binade x - 52)%Z with (binade x + (-52))%Z by lia.
    rewrite Qpower_plus by discriminate.
    assert (2 ^ (-52) == 2 * 2 ^ (-53))%Q as -> by reflexivity. ring. }
  assert (0 < 2 ^ (-53))%Q as Hu by apply pow2_pos.
  assert ((1 # 2) * 2 ^ k <= x * 2 ^ (-53))%Q as Hhalf by (rewrite Hulp; nra).
  assert (x * (1 - 2 ^ (-53)) <= M * 2 ^ k)%Q as Hlow.
  { assert (m * 2 ^ k - (1 # 2) * 2 ^ k <= M * 2 ^ k)%Q by nra. lra. }
  assert (M * 2 ^ k <= x * (1 + 2 ^ (-53)))%Q as Hup.
  { assert (M * 2 ^ k <= m * 2 ^ k + (1 # 2) * 2 ^ k)%Q by nra. lra. }
  exists (M * 2 ^ k)%Q.
  split.
  - destruct (Qle_bool (2 ^ 1024) (M * 2 ^ k)) eqn:Hover; [|reflexivity].
    apply Qle_bool_iff in Hover. exfalso.
    assert (2 ^ (-53) <= 1)%Q as H1 by (apply Qle_bool_iff; reflexivity).
    assert (2 * 2 ^ 53 < 2 ^ 1024)%Q as H2 by reflexivity.
    nra.
  - split; [exact Hlow|]. split; [exact Hup|].
    intros j Hj.
    assert (m == inject_Z (j * 2 ^ (- k)))%Q as Hwhole.
    { rewrite inject_Z_mult, Zpower_Qpower by lia.
      change (inject_Z 2) with 2%Q. rewrite Qpower_opp. unfold m. rewrite Hj.
      field. lra. }
    unfold M. rewrite (round_half_even_whole m _ Hwhole), <- Hwhole. lra.
Qed.

(** The division of the model and the division of the Standard
    Library's specification of IEEE 754 give the same doubles on a grid
    of whole operands. *)
Lemma js_div_matches_binary64 :
  Forall (λ a, Forall (λ b,
            js_div (whole a) (whole b)
            = value_of_float (SFdiv 53 1024 (float_of_Z a) (float_of_Z b)))
          [ 1; 3; 7; 10; 14; 100; 1000; 9007199254740991 ]%Z)
    [ 1; 2; 7; 11; 101; 999; 1000000007; 9007199254740991;
      6004799503160661 ]%Z.
Proof.
  repeat (constructor;
          [repeat (constructor;
                   [vm_compute; f_equal; apply Qc_is_canon; reflexivity|])|]).
  all: constructor.
Qed.

(** ** Pagination *)

Lemma clamp_page_at_least_one (params : GetPropertiesParams) :
  at_least_one (clamp_page params).
Proof. apply Math_max_one, num_or_not_NaN. done. Qed.

Lemma clamp_limit_range (params : GetPropertiesParams) :
  ∃ q, clamp_limit params = Fin q ∧ (1 ≤ q)%Qc ∧ (q ≤ Qc_of_Z 100)%Qc.
Proof. apply Math_min_hundred, Math_max_one, num_or_not_NaN. done. Qed.

Lemma Qc_of_Z_this (n : Z) : (Qc_of_Z n : Q) = inject_Z n.
Proof. done. Qed.

(** The quotient of a row count below [2^53] by a limit in [1,100]: a
    finite double within the relative error [2^-53] of the exact
    quotient, and the exact quotient when that is whole. *)
Lemma js_div_count (count : nat) (q : Qc) :
  (1 ≤ q)%Qc → (q ≤ Qc_of_Z 100)%Qc → (Z.of_nat count < 2 ^ 53)%Z →
  ∃ y : Q,
    js_div (num_of_nat count) (Fin q) = Fin (Q2Qc y)
    ∧ (inject_Z (Z.of_nat count) * (1 - 2 ^ (-53)) <= y * q)%Q
    ∧ (y * q <= inject_Z (Z.of_nat count) * (1 + 2 ^ (-53)))%Q
    ∧ ∀ j : Z, (inject_Z (Z.of_nat count) == inject_Z j * q)%Q → (y == inject_Z j)%Q.
Proof.
  intros Hq1 Hq100 Hcount.
  assert (1 <= q)%Q as Hq1' by exact Hq1.
  assert (q <= 100)%Q as Hq100' by exact Hq100.
  unfold num_of_nat, whole, js_div.
  destruct (Qceqb q 0) eqn:E.
  { apply Qceqb_eq in E. subst q. exfalso. by apply (Qcle_not_lt _ _ Hq1). }
  set (c := Z.of_nat count) in *.
  set (x := ((Qc_of_Z c / q)%Qc : Q)).
  assert (x * q == inject_Z c)%Q as Hx.
  { unfold x, Qcdiv, Qcmult, Qcinv, Q2Qc. cbn [this].
    rewrite !Qred_correct, Qc_of_Z_this. field. lra. }
  assert (inject_Z c < 2 ^ 53)%Q as Hc.
  { change (2 ^ 53)%Q with (inject_Z (2 ^ 53)). by rewrite <- Zlt_Qlt. }
  assert (0 <= inject_Z c)%Q as Hc0.
  { change 0%Q with (inject_Z 0). rewrite <- Zle_Qle. lia. }
  unfold round64. destruct (Qcompare_spec 0 x) as [Hzero|Hpos|Hneg].
  - exists 0%Q. split; [done|].
    assert (inject_Z c == 0)%Q as Hc' by (rewrite <- Hx, <- Hzero; ring).
    split; [lra|]. split; [lra|].
    intros j Hj. nra.
  - assert (1 <= inject_Z c)%Q as Hc1.
    { assert (0 < inject_Z c)%Q as H by nra.
      change 0%Q with (inject_Z 0) in H. rewrite <- Zlt_Qlt in H.
      change 1%Q with (inject_Z 1). rewrite <- Zle_Qle. lia. }
    assert (2 ^ (-1022) <= 1 # 100)%Q as Htiny by (apply Qle_bool_iff; reflexivity).
    destruct (nearest_double_normal x) as (y & Hy & Hlow & Hup & Hexact).
    { nra. }
    { nra. }
    exists y. split; [exact Hy|].
    assert (0 < 2 ^ (-53))%Q as Hu by apply pow2_pos.
    assert (2 ^ (-53) <= 1)%Q as Hu1 by (apply Qle_bool_iff; reflexivity).
    split; [nra|]. split; [nra|].
    intros j Hj. rewrite (Hexact j); nra.
  - exfalso. nra.
Qed.

(** [Math.ceil(count / limit)] for a row count below [2^53] and a limit
    in [1,100]: a whole number of pages that is the exact ceiling up to
    the rounding of the quotient, and the exact ceiling when the limit
    is whole. *)
Lemma ceil_div_spec (count : nat) (q : Qc) :
  (1 ≤ q)%Qc → (q ≤ Qc_of_Z 100)%Qc → (Z.of_nat count < 2 ^ 53)%Z →
  ∃ n : Z,
    Math_ceil (js_div (num_of_nat count) (Fin q)) = whole n
    ∧ (Qc_of_Z (n - 1) * q < Qc_of_Z (Z.of_nat count) * (1 + unit_roundoff))%Qc
    ∧ (Qc_of_Z (Z.of_nat count) * (1 - unit_roundoff) ≤ Qc_of_Z n * q)%Qc
    ∧ ∀ b : Z, q = Qc_of_Z b →
        ((n - 1) * b < Z.of_nat count)%Z ∧ (Z.of_nat count ≤ n * b)%Z.
Proof.
  intros Hq1 Hq100 Hcount.
  destruct (js_div_count count q Hq1 Hq100 Hcount) as (y & Hy & Hlow & Hup & Hexact).
  assert (1 <= q)%Q as Hq1' by exact Hq1.
  rewrite Hy. unfold Math_ceil.
  set (c := Z.of_nat count) in *.
  set (n := Qceiling (Q2Qc y)).
  assert (n = Qceiling y) as Hn by (unfold n, Q2Qc; cbn [this]; by rewrite Qred_correct).
  pose proof (Qle_ceiling y) as Hceil1. pose proof (Qceiling_lt y) as Hceil2.
  rewrite <- Hn in Hceil1, Hceil2.
  assert (0 < 2 ^ (-53))%Q as Hu by apply pow2_pos.
  assert (inject_Z (n - 1) * q < inject_Z c * (1 + 2 ^ (-53)))%Q as Hgen1 by nra.
  assert (inject_Z c * (1 - 2 ^ (-53)) <= inject_Z n * q)%Q as Hgen2 by nra.
  exists n. split; [done|]. split; [|split].
  - unfold Qclt, Qcmult, Qcplus, unit_roundoff, Q2Qc. cbn [this].
    rewrite !Qred_correct. exact Hgen1.
  - unfold Qcle, Qcmult, Qcminus, Qcplus, Qcopp, unit_roundoff, Q2Qc. cbn [this].
    rewrite !Qred_correct. exact Hgen2.
  - intros b ->. change (this (Qc_of_Z b)) with (inject_Z b) in *.
    assert (inject_Z c * 2 ^ (-53) < 1)%Q as Hsmall.
    { assert (inject_Z c < 2 ^ 53)%Q as Hc.
      { change (2 ^ 53)%Q with (inject_Z (2 ^ 53)). by rewrite <- Zlt_Qlt. }
      assert (2 ^ 53 * 2 ^ (-53) == 1)%Q as H1 by reflexivity. nra. }
    assert ((n - 1) * b ≤ c)%Z as Hle1.
    { assert (inject_Z ((n - 1) * b) < inject_Z (c + 1))%Q as H.
      { rewrite inject_Z_mult, inject_Z_plus. change (inject_Z 1) with 1%Q. lra. }
      rewrite <- Zlt_Qlt in H. lia. }
    assert (c ≤ n * b)%Z as Hle2.
    { assert (inject_Z (c + -1) < inject_Z (n * b))%Q as H.
      { rewrite inject_Z_mult, inject_Z_plus. change (inject_Z (-1)) with (-1)%Q. lra. }
      rewrite <- Zlt_Qlt in H. lia. }
    split; [|exact Hle2].
    destruct (Z.eq_dec ((n - 1) * b)%Z c) as [Heq|Hne]; [|lia].
    exfalso.
    assert (y == inject_Z (n - 1))%Q as Hwhole.
    { apply Hexact. rewrite <- Heq, inject_Z_mult. reflexivity. }
    assert (Qceiling y = n - 1)%Z as Hn' by (rewrite Hwhole; apply Qceiling_Z).
    lia.
Qed.

(** The page of the answer is the requested one when that is at least
    1, and 1 otherwise. *)
Lemma clamp_page_cases (params : GetPropertiesParams) :
  (at_least_one (Number (param_page params)) →
   clamp_page params = Number (param_page params))
  ∧ (¬ at_least_one (Number (param_page params)) → clamp_page params = whole 1).
Proof.
  unfold clamp_page, num_or, Math_max.
  destruct (Number (param_page params)) as [| | |x]; cbn [num_truthy at_least_one];
    try (split; [done | by intros _]).
  { split; [done | propositional]. }
  destruct (Qceqb x 0) eqn:Hzero; cbn [negb].
  { apply Qceqb_eq in Hzero. subst x. split; [|done]. intros H. by exfalso. }
  unfold whole, js_lt. destruct (Qcltb (Qc_of_Z 1) x) eqn:Hlt.
  - split; [done|]. intros Hnot. destruct Hnot.
    apply Qcltb_lt in Hlt. by apply Qclt_le_weak.
  - apply Qcltb_ge in Hlt. split; [|done].
    intros Hone. f_equal. by apply Qcle_antisym.
Qed.

(** The limit of the answer: 20 when none is readable from the request
    or it is zero, otherwise the requested one brought into [1,100]. *)
Lemma clamp_limit_cases (params : GetPropertiesParams) :
  let requested := Number (param_limit params) in
  (requested = NaN ∨ requested = Fin 0 → clamp_limit params = whole 20)
  ∧ (requested = NegInfinity ∨ (∃ x, requested = Fin x ∧ x ≠ 0%Qc ∧ (x < 1)%Qc) →
     clamp_limit params = whole 1)
  ∧ (∀ x, requested = Fin x → (1 ≤ x)%Qc → (x ≤ Qc_of_Z 100)%Qc →
     clamp_limit params = Fin x)
  ∧ (requested = PosInfinity ∨ (∃ x, requested = Fin x ∧ (Qc_of_Z 100 < x)%Qc) →
     clamp_limit params = whole 100).
Proof.
  cbv zeta. unfold clamp_limit, num_or.
  assert (∀ x, x ≠ 0%Qc → num_truthy (Fin x) = true) as Htruthy.
  { intros x Hx. cbn. destruct (Qceqb x 0) eqn:E; [|done].
    by apply Qceqb_eq in E. }
  assert (∀ x, (x < 1)%Qc → Math_max (whole 1) (Fin x) = whole 1) as Hlow.
  { intros x Hx. unfold Math_max, whole, js_lt.
    destruct (Qcltb (Qc_of_Z 1) x) eqn:E; [|done].
    apply Qcltb_lt in E. exfalso. apply (Qclt_not_le _ _ E). by apply Qclt_le_weak. }
  assert (∀ x, (1 ≤ x)%Qc → Math_max (whole 1) (Fin x) = Fin x) as Hhigh.
  { intros x Hx. unfold Math_max, whole, js_lt.
    destruct (Qcltb (Qc_of_Z 1) x) eqn:E; [done|].
    apply Qcltb_ge in E. f_equal. by apply Qcle_antisym. }
  split; [|split; [|split]].
  - intros [->| ->]; done.
  - intros [->|(x & -> & Hx & Hlt)]; [done|].
    rewrite Htruthy by done. by rewrite Hlow.
  - intros x -> Hx1 Hx100.
    assert (x ≠ 0%Qc) as Hx0.
    { intros ->. by apply Qcle_not_lt in Hx1. }
    rewrite Htruthy, Hhigh by done.
    unfold Math_min, whole, js_lt.
    destruct (Qcltb x (Qc_of_Z 100)) eqn:E; [done|].
    apply Qcltb_ge in E. f_equal. by apply Qcle_antisym.
  - intros [->|(x & -> & Hx)]; [done|].
    assert (1 ≤ x)%Qc as Hx1.
    { apply Qclt_le_weak. eapply Qcle_lt_trans; [|exact Hx]. done. }
    assert (x ≠ 0%Qc) as Hx0.
    { intros ->. by apply Qcle_not_lt in Hx1. }
    rewrite Htruthy, Hhigh by done.
    unfold Math_min, whole, js_lt.
    destruct (Qcltb x (Qc_of_Z 100)) eqn:E; [|done].
    apply Qcltb_lt in E. exfalso. apply (Qclt_not_le _ _ E). by apply Qclt_le_weak.
Qed.

Lemma getProperties_miss (params : GetPropertiesParams) (w : World) :
  cache_peek w (cacheKey params) = None →
  store_ready w = true →
  ∃ w',
    getProperties params w =
      (Return (CachedListing
         {| result_properties :=
              coalesce (found (select_properties params (clamp_page params)
                                 (clamp_limit params) (properties (db w)))) [];
            pagination :=
              paginate (clamp_page params) (clamp_limit params) (store_count params w) |}),
       w').
Proof.
  intros Hmiss Hready. unfold getProperties, bind at 1.
  rewrite cache_get_run, Hmiss.
  unfold bind at 1, propertyRepository_findAllProperties.
  rewrite repository_call_ready by done. simpl.
  unfold bind, cache_set, emit, ret. simpl. by eexists.
Qed.


(** ** The cache key *)

Lemma has_char_app (c : ascii) (s1 s2 : string) :
  has_char c (s1 +:+ s2) = has_char c s1 || has_char c s2.
Proof.
  induction s1 as [|a s1 IH]; simpl; [done|].
  rewrite IH. by rewrite orb_assoc.
Qed.

(** Two texts split at their first separator in the same way. *)
Lemma split_at_separator (c : ascii) (s1 s2 r1 r2 : string) :
  has_char c s1 = false →
  has_char c s2 = false →
  s1 +:+ String c r1 = s2 +:+ String c r2 →
  s1 = s2 ∧ r1 = r2.
Proof.
  revert s2. induction s1 as [|a s1 IH]; intros [|b s2]; simpl.
  - intros _ _ [= ->]. done.
  - intros _ Hb [= <- _]. rewrite Ascii.eqb_refl in Hb. done.
  - intros Ha _ [= -> _]. rewrite Ascii.eqb_refl in Ha. done.
  - intros [_ H1]%orb_false_iff [_ H2]%orb_false_iff [= -> Heq].
    destruct (IH s2 H1 H2 Heq) as [-> ->]. done.
Qed.

Lemma concat_inj (c : ascii) (l1 l2 : list string) :
  length l1 = length l2 →
  Forall (λ s, has_char c s = false) l1 →
  Forall (λ s, has_char c s = false) l2 →
  String.concat (String c EmptyString) l1 = String.concat (String c EmptyString) l2 →
  l1 = l2.
Proof.
  revert l2. induction l1 as [|x l1 IH]; intros [|y l2] Hlen H1 H2 Heq;
    simplify_eq/=; [done|].
  apply Forall_cons in H1 as [Hx H1]. apply Forall_cons in H2 as [Hy H2].
  destruct l1 as [|x' l1], l2 as [|y' l2]; simplify_eq/=; [done|].
  apply split_at_separator in Heq as [-> Heq]; [|done..].
  rewrite (IH (y' :: l2)); simpl; auto.
Qed.

Section CacheKey.

Hypothesis numberToString_inj : ∀ x y, numberToString x = numberToString y → x = y.
Hypothesis numberToString_colon_free : ∀ x, colon_free (numberToString x).

Lemma cacheKey_key_tuple (p1 p2 : GetPropertiesParams) :
  colon_free_filters p1 →
  colon_free_filters p2 →
  cacheKey p1 = cacheKey p2 →
  key_tuple p1 = key_tuple p2.
Proof.
  intros (A1 & A2 & A3 & A4 & A5 & A6) (B1 & B2 & B3 & B4 & B5 & B6) Hkey.
  unfold cacheKey in Hkey.
  apply concat_inj in Hkey; [| done | |];
    [| repeat (constructor; [by first [reflexivity | assumption | apply numberToString_colon_free]|]);
       constructor ..].
  unfold key_tuple. simplify_eq.
  repeat match goal with
         | H : numberToString _ = numberToString _ |- _ =>
             apply numberToString_inj in H; rewrite H; clear H
         end.
  congruence.
Qed.

Lemma cache_after_get_other (w : World) (key k : string) :
  k ≠ key → cache_after_get w key !! k = cache w !! k.
Proof.
  intros Hne. unfold cache_after_get.
  destruct (cache w !! key) as [e|]; [destruct (expiry e <? now w)%nat|]; try done.
  by rewrite lookup_delete_ne.
Qed.

(** A listing call touches no cache entry but the one under its own key. *)
Lemma getProperties_cache_frame (params : GetPropertiesParams) (w : World) (k : string) :
  k ≠ cacheKey params →
  cache (getProperties params w).2 !! k = cache w !! k
  ∧ now (getProperties params w).2 = now w.
Proof.
  intros Hne. unfold getProperties, bind, propertyRepository_findAllProperties.
  rewrite cache_get_run.
  destruct (cache_peek w (cacheKey params)) as [hit|]; simpl.
  { by rewrite cache_after_get_other. }
  rewrite repository_call_run. simpl.
  destruct (ready (faults w)); simpl.
  - rewrite lookup_insert_ne by done. by rewrite cache_after_get_other.
  - by rewrite cache_after_get_other.
Qed.


End CacheKey.

(** ** Ownership *)

Lemma truthy_Some (s : string) : s ≠ "" → truthy (Some s) = true.
Proof.
  intros Hs. simpl. destruct (String.eqb_spec s ""); [done|done].
Qed.

Lemma not_owner_true (requester : string) (property : Property) :
  requester ≠ "" →
  owner_id property ≠ Some requester →
  not_owner (Some requester) property = true.
Proof.
  intros Hs Hne. unfold not_owner. rewrite truthy_Some by done.
  by rewrite bool_decide_eq_false_2.
Qed.

(** C3 — A requester that is supplied, is not the empty string and
    differs from the stored owner is refused by [updateProperty] and by
    [deleteProperty] with the Unauthorized error, once the property was
    read from the store.  The world after the refusal differs from the
    one before only by the logged read (and the consumed entry of the
    failure script): the update and delete paths of the store are not
    called, and nothing is invalidated. *)
Theorem unauthorized_requester_changes_nothing
    (id : string) (updateData : json) (requester : string) (w : World)
    (property : Property) :
  List.find (has_id id) (properties (db w)) = Some property →
  store_ready w = true →
  requester ≠ "" →
  owner_id property ≠ Some requester →
  ∃ w',
    updateProperty id updateData (Some requester) w
      = (Throw "Unauthorized: You do not own this property", w')
    ∧ deleteProperty id (Some requester) w
      = (Throw "Unauthorized: You do not own this property", w')
    ∧ log w' = log w ++ [FindPropertyById id]
    ∧ db w' = db w
    ∧ cache w' = cache w
    ∧ ownership w' = ownership w.
Proof.
  intros Hfind Hready Hs Hne.
  exists (with_faults (tail (faults w)) (with_log (log w ++ [FindPropertyById id]) w)).
  unfold updateProperty, deleteProperty, bind, propertyRepository_findPropertyById.
  rewrite repository_call_run. simpl in *. rewrite Hready. simpl. rewrite Hfind.
  rewrite not_owner_true by done.
  repeat split; done.
Qed.

(** ** View counter *)

(** C9 — [recordPropertyView] completes normally when the counter
    increment of the store succeeds; when the increment fails, the
    failure is raised to the caller with the world's tables untouched.
    The [POST /:id/view] handler is the one that catches it: it always
    answers, with status 500 and "Failed to record view" in that case. *)
Theorem recordPropertyView_raises_to_handler (id : string) (w : World) :
  (store_ready w = true →
     ∃ w', recordPropertyView id w = (Return tt, w')
           ∧ post_view id w
             = (Return {| http_status := 200; payload := Success "View recorded" |}, w'))
  ∧ (store_ready w = false →
       ∃ w', recordPropertyView id w = (Throw (fault_message w), w')
             ∧ db w' = db w
             ∧ post_view id w
               = (Return {| http_status := 500;
                            payload := ErrorResponse "Failed to record view" |}, w')).
Proof.
  unfold post_view, try_catch, bind, recordPropertyView,
    propertyRepository_incrementPropertyViews.
  rewrite repository_call_run. simpl.
  split; intros ->; eexists; repeat split; done.
Qed.

(** ** Statements on the photos *)

Lemma statement_run {A} (e : Event) (run : Db → Reply A * Db) (w : World) :
  statement e run w =
    let w1 := with_faults (tail (faults w)) (with_log (log w ++ [e]) w) in
    match faults w with
    | Throws m :: _ => (Throw m, w1)
    | ErrorResult m :: _ => (Return {| data := None; error := Some m |}, w1)
    | _ => (Return (run (db w)).1, with_db (run (db w)).2 w1)
    end.
Proof.
  unfold statement, bind, emit, next_fault, throw, ret, read_db, write_db.
  destruct w as [d c fs ca t o l]; simpl.
  destruct fs as [|[|m|m] fs]; simpl; try done; by destruct (run d).
Qed.

Lemma photo_step_refl (w : World) : photo_step w w.
Proof.
  repeat split; try done. exists []. by rewrite app_nil_r.
Qed.

Lemma photo_step_trans (w1 w2 w3 : World) :
  photo_step w1 w2 → photo_step w2 w3 → photo_step w1 w3.
Proof.
  intros (Hp & Hc & Hn & Ho & Hf & es & Hl & Hes)
         (Hp' & Hc' & Hn' & Ho' & Hf' & es' & Hl' & Hes').
  repeat split; try congruence.
  exists (es ++ es'). rewrite Hl', Hl, <- app_assoc. split; [done|].
  by apply Forall_app.
Qed.

Lemma statement_photo_step {A} (e : Event) (run : Db → Reply A * Db) (w : World) :
  is_statement e = true →
  (∀ d, properties (run d).2 = properties d) →
  photo_step w (statement e run w).2.
Proof.
  intros He Hrun. rewrite statement_run.
  assert (Forall (λ e, is_statement e = true) [e]) by by constructor.
  destruct (faults w) as [|[|m|m] fs]; simpl; repeat split; eauto; apply Hrun.
Qed.

Lemma select_orphan_photo_by_url_step (u : string) (w : World) :
  photo_step w (select_orphan_photo_by_url u w).2.
Proof. by apply statement_photo_step. Qed.

Lemma select_property_containing_step (u : string) (w : World) :
  photo_step w (select_property_containing u w).2.
Proof. by apply statement_photo_step. Qed.

Lemma select_orphan_photos_step (n : nat) (w : World) :
  photo_step w (select_orphan_photos n w).2.
Proof. by apply statement_photo_step. Qed.

Lemma update_photo_property_step (photo pid : string) (w : World) :
  photo_step w (update_photo_property photo pid w).2.
Proof. by apply statement_photo_step. Qed.

Lemma foldl_insert_photo_properties (rows : list PhotoInsert) (d : Db) :
  properties (foldl insert_photo d rows) = properties d.
Proof.
  revert d. induction rows as [|r rows IH]; intros d; simpl; [done|].
  by rewrite IH.
Qed.

Lemma insert_photos_step (rows : list PhotoInsert) (w : World) :
  photo_step w (insert_photos rows w).2.
Proof.
  apply statement_photo_step; [done|]. intros d. simpl.
  apply foldl_insert_photo_properties.
Qed.

Lemma getSupabaseOrThrow_same (w : World) : (getSupabaseOrThrow w).2 = w.
Proof. unfold getSupabaseOrThrow. by destruct (configured w). Qed.

Lemma associate_images_step (id : string) (userId : option string)
    (urls : list json) (toInsert : list PhotoInsert) (w : World) :
  ∃ queued w',
    associate_images id userId urls toInsert w = (Return queued, w')
    ∧ photo_step w w'.
Proof.
  revert toInsert w. induction urls as [|u urls IH]; intros toInsert w; simpl.
  { eexists _, _. split; [done | apply photo_step_refl]. }
  unfold bind, try_catch.
  pose proof (select_orphan_photo_by_url_step (url_filter u) w) as Hsel.
  destruct (select_orphan_photo_by_url (url_filter u) w) as [[existing|m] w1]; simpl in Hsel.
  - destruct (truthy (data existing)).
    + pose proof (update_photo_property_step (coalesce (data existing) "") id w1) as Hupd.
      destruct (update_photo_property _ _ w1) as [[[]|m] w2]; simpl in Hupd.
      * destruct (IH toInsert w2) as (queued & w' & Hrun & Hstep).
        simpl. rewrite Hrun.
        eexists _, _. split; [done|]. eauto using photo_step_trans.
      * destruct (IH (toInsert ++ [update_photo id userId (url_column u)]) w2)
          as (queued & w' & Hrun & Hstep).
        simpl. rewrite Hrun.
        eexists _, _. split; [done|]. eauto using photo_step_trans.
    + destruct (IH (toInsert ++ [update_photo id userId (url_column u)]) w1)
        as (queued & w' & Hrun & Hstep).
      simpl. rewrite Hrun.
      eexists _, _. split; [done|]. eauto using photo_step_trans.
  - destruct (IH (toInsert ++ [update_photo id userId (url_column u)]) w1)
      as (queued & w' & Hrun & Hstep).
    simpl. rewrite Hrun.
    eexists _, _. split; [done|]. eauto using photo_step_trans.
Qed.

(** The photo association of an update never throws and writes photos
    only. *)
Lemma associate_photos_step (id : string) (updateData : json)
    (userId : option string) (w : World) :
  ∃ w', associate_photos id updateData userId w = (Return tt, w') ∧ photo_step w w'.
Proof.
  unfold associate_photos, try_catch.
  destruct (get "images" updateData) as [| | | | |[|first others]|];
    try (eexists; split; [done | apply photo_step_refl]).
  unfold bind, getSupabaseOrThrow.
  destruct (configured w); [|eexists; split; [done | apply photo_step_refl]].
  destruct (associate_images_step id userId (first :: others) [] w)
    as (queued & w1 & -> & Hstep).
  destruct queued as [|r q]; [by eexists|].
  pose proof (insert_photos_step (r :: q) w1) as Hins.
  destruct (insert_photos (r :: q) w1) as [[reply|m] w2]; simpl in *;
    (eexists; split; [done | eauto using photo_step_trans]).
Qed.

(** ** Invalidation after a write *)

Lemma prefix_refl (s : string) : String.prefix s s = true.
Proof.
  induction s as [|a s IH]; simpl; [done|].
  destruct (ascii_dec a a); [done|congruence].
Qed.

Lemma prefix_app (s t : string) : String.prefix s (s +:+ t) = true.
Proof.
  induction s as [|a s IH]; simpl; [by destruct t|].
  destruct (ascii_dec a a); [done|congruence].
Qed.

(** What [invalidate(target)] leaves in the cache. *)
Lemma cache_invalidate_run (target : string) (w : World) :
  cache_invalidate target w =
    (Return tt,
     with_cache (filter (λ kv, String.prefix target kv.1 = false) (cache w))
       (with_log (log w ++ [CacheInvalidate target]) w)).
Proof. done. Qed.

Lemma invalidated_lookup (target k : string) (c : gmap string CacheEntry) :
  String.prefix target k = true →
  filter (λ kv : string * CacheEntry, String.prefix target kv.1 = false) c !! k = None.
Proof.
  intros Hk. apply map_lookup_filter_None. right. intros e _. simpl. congruence.
Qed.

Lemma filter_lookup_None (P : string * CacheEntry → Prop) `{!∀ x, Decision (P x)}
    (k : string) (c : gmap string CacheEntry) :
  c !! k = None → filter P c !! k = None.
Proof. intros Hk. apply map_lookup_filter_None. by left. Qed.

(** A successful [updateProperty]: the read, the update of the row, the
    photo association, the three invalidations. *)
Lemma updateProperty_success (id : string) (updateData : json)
    (userId : option string) (w w' : World) (r : option Property) :
  updateProperty id updateData userId w = (Return r, w') →
  ∃ w2 w3,
    log w2 = log w ++ [FindPropertyById id; UpdatePropertyRow id]
    ∧ cache w2 = cache w
    ∧ ownership w2 = ownership w
    ∧ now w2 = now w
    ∧ properties (db w2)
      = map (λ p, if has_id id p then patch_property updateData p else p)
          (properties (db w))
    ∧ r = List.find (has_id id) (properties (db w2))
    ∧ photo_step w2 w3
    ∧ invalidated id w3 w'.
Proof.
  unfold updateProperty, bind at 1, propertyRepository_findPropertyById.
  rewrite repository_call_run.
  destruct (store_ready w); [|done]. cbn [fst snd].
  destruct (List.find (has_id id) _) as [property|]; [|done].
  destruct (not_owner userId property); [done|].
  unfold bind at 1, propertyRepository_updateProperty.
  rewrite repository_call_run.
  match goal with |- context [store_ready ?W] => destruct (store_ready W) end; [|done].
  cbn [fst snd]. unfold bind at 1.
  match goal with |- context [associate_photos id updateData userId ?W] =>
    remember W as w2 eqn:Hw2
  end.
  destruct (associate_photos_step id updateData userId w2) as (w3 & -> & Hstep).
  unfold bind, cache_invalidate, invalidateOwnershipCache, emit, ret. simpl.
  intros [= <- <-]. exists w2, w3.
  split; [subst w2; simpl; by rewrite <- app_assoc|].
  do 5 (split; [by subst w2|]).
  split; [exact Hstep|].
  unfold invalidated. simpl. rewrite <- !app_assoc. repeat split; done.
Qed.

Lemma deleteProperty_success (id : string) (userId : option string) (w w' : World) :
  deleteProperty id userId w = (Return tt, w') →
  ∃ w2,
    log w2 = log w ++ [FindPropertyById id; DeletePropertyRow id]
    ∧ cache w2 = cache w
    ∧ ownership w2 = ownership w
    ∧ now w2 = now w
    ∧ properties (db w2) = List.filter (λ p, negb (has_id id p)) (properties (db w))
    ∧ invalidated id w2 w'.
Proof.
  unfold deleteProperty, bind at 1, propertyRepository_findPropertyById.
  rewrite repository_call_run.
  destruct (store_ready w); [|done]. cbn [fst snd].
  destruct (List.find (has_id id) _) as [property|]; [|done].
  destruct (not_owner userId property); [done|].
  unfold bind at 1, propertyRepository_deleteProperty.
  rewrite repository_call_run.
  match goal with |- context [store_ready ?W] => destruct (store_ready W) end; [|done].
  cbn [fst snd]. unfold bind at 1.
  match goal with |- context [cache_invalidate _ ?W] => remember W as w2 eqn:Hw2 end.
  unfold bind, cache_invalidate, invalidateOwnershipCache, emit, ret. simpl.
  intros [= <-]. exists w2.
  split; [subst w2; simpl; by rewrite <- app_assoc|].
  do 4 (split; [by subst w2|]).
  unfold invalidated. simpl. rewrite <- !app_assoc. repeat split; done.
Qed.

Lemma filter_statements (es : list Event) :
  Forall (λ e, is_statement e = true) es → List.filter is_invalidation es = [].
Proof.
  induction 1 as [|e es He _ IH]; simpl; [done|].
  rewrite IH. by destruct e.
Qed.

(** After the three invalidations the entry of [id], every listing entry
    and the ownership entry are gone. *)
Lemma invalidated_gone (id : string) (w w' : World) :
  invalidated id w w' →
  cache w' !! ("property:" +:+ id) = None
  ∧ (∀ k, String.prefix "properties:" k = true → cache w' !! k = None)
  ∧ ("property", id) ∉ ownership w'.
Proof.
  intros (_ & -> & -> & _). split; [|split].
  - apply filter_lookup_None, invalidated_lookup, prefix_refl.
  - intros k Hk. by apply invalidated_lookup.
  - rewrite elem_of_difference, elem_of_singleton. by intros [_ []].
Qed.

(** A detail read that misses the cache goes to the store. *)
Lemma getPropertyById_miss (id : string) (w : World) :
  cache_peek w ("property:" +:+ id) = None →
  (∃ es, log (getPropertyById id w).2
         = log w ++ CacheGet ("property:" +:+ id) :: FindPropertyById id :: es)
  ∧ (store_ready w = true →
     (getPropertyById id w).1
       = Return (CachedProperty <$> List.find (has_id id) (properties (db w)))).
Proof.
  intros Hmiss. unfold getPropertyById, bind, propertyRepository_findPropertyById.
  rewrite cache_get_run, Hmiss, repository_call_run. simpl.
  destruct (ready (faults w)); simpl.
  - destruct (List.find (has_id id) _) as [property|]; simpl;
      rewrite <- !app_assoc; split; eauto.
  - rewrite <- !app_assoc. split; [eauto|done].
Qed.

Lemma cache_peek_None (w : World) (key : string) :
  cache w !! key = None → cache_peek w key = None.
Proof. unfold cache_peek. by intros ->. Qed.

(** C5 — After a successful [updateProperty] or [deleteProperty] of
    [id], exactly three invalidations were performed, in this order: the
    cache entry [property:<id>], the listing namespace [properties:],
    and the ownership entry of (property, id).  The entry of [id], every
    listing entry and the ownership entry are gone, so the next
    [getPropertyById(id)] misses the cache, reads the store and answers
    the row the store holds now. *)
Theorem write_invalidates (id : string) (updateData : json)
    (userId : option string) (w w' : World) :
  (∃ r, updateProperty id updateData userId w = (Return r, w'))
  ∨ deleteProperty id userId w = (Return tt, w') →
  (∃ es,
     log w' = log w ++ es
     ∧ List.filter is_invalidation es
       = [ CacheInvalidate ("property:" +:+ id);
           CacheInvalidate "properties:";
           InvalidateOwnership "property" id ])
  ∧ cache w' !! ("property:" +:+ id) = None
  ∧ (∀ k, String.prefix "properties:" k = true → cache w' !! k = None)
  ∧ (("property", id) ∉ ownership w')
  ∧ (∃ es, log (getPropertyById id w').2
           = log w' ++ CacheGet ("property:" +:+ id) :: FindPropertyById id :: es)
  ∧ (store_ready w' = true →
     (getPropertyById id w').1
       = Return (CachedProperty <$> List.find (has_id id) (properties (db w')))).
Proof.
  intros Hrun.
  assert (∃ w3 es,
            log w3 = log w ++ es ∧ List.filter is_invalidation es = []
            ∧ invalidated id w3 w') as (w3 & es & Hlog & Hes & Hinv).
  { destruct Hrun as [[r Hrun]|Hrun].
    - apply updateProperty_success in Hrun
        as (w2 & w3 & Hlog & _ & _ & _ & _ & _ & Hstep & Hinv).
      destruct Hstep as (_ & _ & _ & _ & _ & es & Hlog3 & Hes).
      exists w3, ([FindPropertyById id; UpdatePropertyRow id] ++ es).
      split; [by rewrite Hlog3, Hlog, <- app_assoc|]. split; [|done].
      simpl. by apply filter_statements.
    - apply deleteProperty_success in Hrun as (w2 & Hlog & _ & _ & _ & _ & Hinv).
      by exists w2, [FindPropertyById id; DeletePropertyRow id]. }
  destruct (invalidated_gone id w3 w' Hinv) as (Hentry & Hlistings & Hown).
  destruct (getPropertyById_miss id w' (cache_peek_None _ _ Hentry)) as [Hstore Hanswer].
  split; [|done].
  destruct Hinv as (Hlog' & _).
  eexists. split; [by rewrite Hlog', Hlog, <- app_assoc|].
  rewrite List.filter_app, Hes. done.
Qed.

(** ** Reconciliation *)

Lemma row_after_cons (rows : list Property) (p : string * string)
    (pairs : list (string * string)) (r : Photo) :
  row_after rows (p :: pairs) r =
    row_after rows pairs
      (match matched_property rows p.2 with
       | Some pid => if String.eqb (photo_id r) p.1 then set_property_id (Some pid) r else r
       | None => r
       end).
Proof. done. Qed.

Lemma reconciled_of_cons (rows : list Property) (p : string * string)
    (pairs : list (string * string)) :
  reconciled_of rows (p :: pairs) =
    match matched_property rows p.2 with
    | Some pid => {| photoId := p.1; propertyId := pid |} :: reconciled_of rows pairs
    | None => reconciled_of rows pairs
    end.
Proof.
  unfold reconciled_of. cbn [omap list_omap].
  by destruct (matched_property rows p.2).
Qed.

(** Without a store failure the loop of the reconciler reports
    [reconciled_of] and leaves every photo row as [row_after] says. *)
Lemma reconcile_loop_run (pairs : list (string * string)) (acc : list Association)
    (w : World) :
  faults w = [] →
  ∃ w',
    reconcile_loop pairs acc w
      = (Return (acc ++ reconciled_of (properties (db w)) pairs), w')
    ∧ properties (db w') = properties (db w)
    ∧ photos (db w') = map (row_after (properties (db w)) pairs) (photos (db w))
    ∧ faults w' = []
    ∧ configured w' = configured w.
Proof.
  revert acc w. induction pairs as [|p pairs IH]; intros acc w Hfaults.
  { exists w. simpl. rewrite app_nil_r, map_id. done. }
  cbn [reconcile_loop]. unfold bind at 1, try_catch, bind at 1, select_property_containing.
  rewrite statement_run, Hfaults. cbn [fst snd tail].
  rewrite reconciled_of_cons.
  destruct (truthy (data (property_containing (properties (db w)) p.2))) eqn:Htruthy.
  - assert (matched_property (properties (db w)) p.2
            = Some (coalesce (data (property_containing (properties (db w)) p.2)) ""))
      as Hm by (unfold matched_property; by rewrite Htruthy).
    rewrite Hm.
    unfold bind at 1, update_photo_property. rewrite statement_run. cbn [fst snd].
    cbn [faults db with_db with_faults with_log tail ret properties photos].
    match goal with |- context [reconcile_loop pairs ?a ?W] =>
      destruct (IH a W) as (w' & Hrun & Hprops & Hphotos & Hf & Hc); [done|]
    end.
    exists w'. rewrite Hrun.
    cbn [faults db with_db with_faults with_log properties photos configured] in *.
    rewrite Hprops, Hphotos. rewrite <- app_assoc.
    split; [done|]. split; [done|]. split; [|done].
    unfold set_photo_property. rewrite map_map. apply map_ext. intros r.
    by rewrite row_after_cons, Hm.
  - assert (matched_property (properties (db w)) p.2 = None)
      as Hm by (unfold matched_property; by rewrite Htruthy).
    rewrite Hm.
    cbn [faults db with_db with_faults with_log tail ret properties photos].
    match goal with |- context [reconcile_loop pairs ?a ?W] =>
      destruct (IH a W) as (w' & Hrun & Hprops & Hphotos & Hf & Hc); [done|]
    end.
    exists w'. rewrite Hrun.
    cbn [faults db with_db with_faults with_log properties photos configured] in *.
    rewrite Hprops, Hphotos.
    split; [done|]. split; [done|]. split; [|done].
    apply map_ext. intros r. by rewrite row_after_cons, Hm.
Qed.

Lemma reconcile_photos_run (w : World) :
  configured w = true →
  faults w = [] →
  ∃ w',
    reconcile_photos w
      = (Return {| http_status := 200;
                   payload := Reconciled
                     (reconciled_of (properties (db w))
                        (orphan_batch 200 (photos (db w)))) |}, w')
    ∧ properties (db w') = properties (db w)
    ∧ photos (db w')
      = map (row_after (properties (db w)) (orphan_batch 200 (photos (db w))))
          (photos (db w))
    ∧ faults w' = []
    ∧ configured w' = true.
Proof.
  intros Hconf Hfaults.
  unfold reconcile_photos, try_catch, bind at 1, getSupabaseOrThrow. rewrite Hconf.
  unfold bind at 1, select_orphan_photos. rewrite statement_run, Hfaults.
  cbn [fst snd tail data coalesce]. unfold bind at 1.
  match goal with |- context [reconcile_loop ?ps ?a ?W] =>
    destruct (reconcile_loop_run ps a W) as (w' & Hrun & Hprops & Hphotos & Hf & Hc);
      [done|]
  end.
  exists w'. rewrite Hrun.
  cbn [faults db with_db with_faults with_log properties photos configured] in *.
  rewrite Hprops, Hphotos, Hc. done.
Qed.

Lemma row_after_id (rows : list Property) (pairs : list (string * string)) (r : Photo) :
  photo_id (row_after rows pairs r) = photo_id r
  ∧ url (row (row_after rows pairs r)) = url (row r).
Proof.
  revert r. induction pairs as [|p pairs IH]; intros r; [done|].
  rewrite row_after_cons.
  destruct (matched_property rows p.2) as [pid|]; [|apply IH].
  destruct (String.eqb (photo_id r) p.1); [|apply IH].
  destruct (IH (set_property_id (Some pid) r)) as [-> ->]. done.
Qed.

(** A row that is still an orphan after a pass was an orphan before, and
    no entry of the batch with its id had a matching property. *)
Lemma row_after_orphan (rows : list Property) (pairs : list (string * string))
    (r : Photo) :
  is_orphan (row_after rows pairs r) = true →
  is_orphan r = true
  ∧ ∀ p, p ∈ pairs → p.1 = photo_id r → matched_property rows p.2 = None.
Proof.
  revert r. induction pairs as [|p pairs IH]; intros r Horphan.
  { split; [done|]. intros p Hp. by apply elem_of_nil in Hp. }
  rewrite row_after_cons in Horphan.
  destruct (matched_property rows p.2) as [pid|] eqn:Hm.
  - destruct (String.eqb_spec (photo_id r) p.1) as [Heq|Hne].
    + apply IH in Horphan as [Hset _]. done.
    + apply IH in Horphan as [Hr Hrest]. split; [done|].
      intros q [->|Hq]%elem_of_cons Hid; [congruence|by apply Hrest].
  - apply IH in Horphan as [Hr Hrest]. split; [done|].
    intros q [->|Hq]%elem_of_cons Hid; [done|by apply Hrest].
Qed.

Lemma elem_of_reconciled_of (rows : list Property) (pairs : list (string * string))
    (a : Association) :
  a ∈ reconciled_of rows pairs →
  ∃ p, p ∈ pairs ∧ p.1 = photoId a ∧ matched_property rows p.2 = Some (propertyId a).
Proof.
  unfold reconciled_of. rewrite list_elem_of_omap. intros (p & Hp & Ha).
  exists p. destruct (matched_property rows p.2) as [pid|]; simplify_eq/=. done.
Qed.

Lemma elem_of_orphan_batch (n : nat) (photos : list Photo) (p : string * string) :
  p ∈ orphan_batch n photos →
  ∃ r, r ∈ photos ∧ is_orphan r = true ∧ p = (photo_id r, url (row r)).
Proof.
  unfold orphan_batch.
  change (map ?f ?l) with (f <$> l). rewrite list_elem_of_fmap.
  intros (r & -> & Hr). exists r.
  apply elem_of_take in Hr as (i & Hr & _). apply list_elem_of_lookup_2 in Hr.
  apply list_elem_of_In, filter_In in Hr as [Hr Ho].
  by apply list_elem_of_In in Hr.
Qed.

Lemma orphan_batch_all (n : nat) (photos : list Photo) (r : Photo) :
  length (List.filter is_orphan photos) ≤ n →
  r ∈ photos →
  is_orphan r = true →
  (photo_id r, url (row r)) ∈ orphan_batch n photos.
Proof.
  intros Hlen Hr Ho. unfold orphan_batch. rewrite take_ge by done.
  change (map ?f ?l) with (f <$> l).
  apply (list_elem_of_fmap_2 (λ r, (photo_id r, url (row r)))).
  apply list_elem_of_In, filter_In. split; [by apply list_elem_of_In|done].
Qed.

Lemma map_sublist {A B} (f : A → B) (l1 l2 : list A) :
  l1 `sublist_of` l2 → map f l1 `sublist_of` map f l2.
Proof. induction 1; simpl; by constructor. Qed.

Lemma filter_sublist {A} (f : A → bool) (l : list A) :
  List.filter f l `sublist_of` l.
Proof.
  induction l as [|x l IH]; simpl; [constructor|].
  destruct (f x); by constructor.
Qed.

Lemma reconciled_ids_sublist (rows : list Property) (pairs : list (string * string)) :
  map photoId (reconciled_of rows pairs) `sublist_of` map fst pairs.
Proof.
  induction pairs as [|p pairs IH]; [constructor|].
  rewrite reconciled_of_cons. destruct (matched_property rows p.2); simpl; by constructor.
Qed.

Lemma orphan_batch_ids_sublist (n : nat) (photos : list Photo) :
  map fst (orphan_batch n photos) `sublist_of` map photo_id photos.
Proof.
  unfold orphan_batch. rewrite map_map. simpl.
  apply map_sublist. etrans; [apply sublist_take | apply filter_sublist].
Qed.

Lemma reconciled_ids_NoDup (rows : list Property) (n : nat) (photos : list Photo) :
  NoDup (map photo_id photos) →
  NoDup (map photoId (reconciled_of rows (orphan_batch n photos))).
Proof.
  intros Hids. eapply sublist_NoDup; [exact Hids|].
  etrans; [apply reconciled_ids_sublist | apply orphan_batch_ids_sublist].
Qed.

Lemma row_after_ids (rows : list Property) (pairs : list (string * string))
    (photos : list Photo) :
  map photo_id (map (row_after rows pairs) photos) = map photo_id photos.
Proof.
  rewrite map_map. apply map_ext. intros r. apply row_after_id.
Qed.

Lemma omap_all_None {A B} (f : A → option B) (l : list A) :
  Forall (λ x, f x = None) l → omap f l = [].
Proof.
  induction 1 as [|x l Hx _ IH]; [done|].
  cbn [omap list_omap]. by rewrite Hx.
Qed.

(** An entry of the batch of a later pass comes from a row that the
    earlier pass left an orphan. *)
Lemma later_batch_unmatched (rows : list Property) (pairs : list (string * string))
    (n : nat) (photos : list Photo) (q : string * string) :
  q ∈ orphan_batch n (map (row_after rows pairs) photos) →
  ∃ r, r ∈ photos ∧ is_orphan r = true ∧ q = (photo_id r, url (row r))
       ∧ ∀ p, p ∈ pairs → p.1 = q.1 → matched_property rows p.2 = None.
Proof.
  intros (r' & Hr' & Ho & ->)%elem_of_orphan_batch.
  change (map ?f ?l) with (f <$> l) in Hr'.
  apply list_elem_of_fmap in Hr' as (r & -> & Hr).
  apply row_after_orphan in Ho as [Ho Hnone].
  destruct (row_after_id rows pairs r) as [Hid Hurl].
  exists r. rewrite Hid, Hurl. repeat split; done.
Qed.


Lemma reconcile_loop_step (pairs : list (string * string)) (acc : list Association)
    (w : World) :
  ∃ reconciled w',
    reconcile_loop pairs acc w = (Return reconciled, w') ∧ photo_step w w'.
Proof.
  revert acc w. induction pairs as [|p pairs IH]; intros acc w; simpl.
  { eexists _, _. split; [done | apply photo_step_refl]. }
  unfold bind, try_catch.
  pose proof (select_property_containing_step p.2 w) as Hsel.
  destruct (select_property_containing p.2 w) as [[matched|m] w1]; simpl in Hsel.
  - destruct (truthy (data matched)).
    + pose proof (update_photo_property_step p.1 (coalesce (data matched) "") w1) as Hupd.
      destruct (update_photo_property _ _ w1) as [[[]|m] w2]; simpl in Hupd.
      * destruct (IH (acc ++ [ {| photoId := p.1;
                                  propertyId := coalesce (data matched) "" |} ]) w2)
          as (reconciled & w' & Hrun & Hstep).
        simpl. rewrite Hrun.
        eexists _, _. split; [done|]. eauto using photo_step_trans.
      * destruct (IH acc w2) as (reconciled & w' & Hrun & Hstep).
        simpl. rewrite Hrun.
        eexists _, _. split; [done|]. eauto using photo_step_trans.
    + destruct (IH acc w1) as (reconciled & w' & Hrun & Hstep).
      simpl. rewrite Hrun.
      eexists _, _. split; [done|]. eauto using photo_step_trans.
  - destruct (IH acc w1) as (reconciled & w' & Hrun & Hstep).
    simpl. rewrite Hrun.
    eexists _, _. split; [done|]. eauto using photo_step_trans.
Qed.

(** The reconcile handler always answers, and writes photos only.  It
    answers with status 500 exactly when the client is missing or the
    fetch of the orphans throws. *)
Lemma reconcile_photos_step (w : World) :
  ∃ r w',
    reconcile_photos w = (Return r, w')
    ∧ photo_step w w'
    ∧ (http_status r = 500 ↔
       configured w = false ∨ ∃ m fs, faults w = Throws m :: fs).
Proof.
  unfold reconcile_photos, try_catch, bind at 1, getSupabaseOrThrow.
  destruct (configured w) eqn:Hconf.
  2: { eexists _, _. split; [done|]. split; [apply photo_step_refl|]. simpl. propositional. }
  unfold bind at 1.
  pose proof (select_orphan_photos_step 200 w) as Hsel.
  unfold select_orphan_photos in *. rewrite statement_run in *.
  destruct (faults w) as [|[|m|m] fs] eqn:Hfaults; cbn [fst snd] in *.
  4: { eexists _, _. split; [done|]. split; [done|]. simpl. split; [|done].
       intros _. right. by eexists _, _. }
  all: unfold bind;
    match goal with |- context [reconcile_loop ?ps ?a ?W] =>
      destruct (reconcile_loop_step ps a W) as (reconciled & w' & -> & Hstep)
    end;
    eexists _, _; (split; [done|]); (split; [eauto using photo_step_trans|]);
    simpl; split; [done|];
    intros [?|(m' & fs' & ?)]; done.
Qed.

(** ** The cache holds entries of stored properties only *)

Lemma find_has_id_None (id : string) (rows : list Property) :
  List.find (has_id id) rows = None ↔ id ∉ map prop_id rows.
Proof.
  induction rows as [|p rows IH]; simpl.
  { split; [intros _; apply not_elem_of_nil | done]. }
  unfold has_id at 1. rewrite not_elem_of_cons.
  destruct (String.eqb_spec (prop_id p) id) as [Heq|Hne].
  - split; [done | intros [Hid _]; congruence].
  - rewrite IH. split; [intros ?; split; [congruence|done] | propositional].
Qed.

Lemma filter_is_Some (P : string * CacheEntry → Prop) `{!∀ x, Decision (P x)}
    (c : gmap string CacheEntry) (k : string) :
  is_Some (filter P c !! k) → is_Some (c !! k).
Proof. intros [e [He _]%map_lookup_filter_Some]. by exists e. Qed.

Lemma narrows_refl (w : World) : narrows w w.
Proof. by split. Qed.

Lemma narrows_trans (w1 w2 w3 : World) : narrows w1 w2 → narrows w2 w3 → narrows w1 w3.
Proof. intros [Hc Hp] [Hc' Hp']. split; eauto. Qed.

Lemma narrows_coherent (w w' : World) :
  cache_coherent w → narrows w w' → cache_coherent w'.
Proof. intros Hco [Hc Hp] id Hid. apply Hp, Hco, Hc, Hid. Qed.

Lemma photo_step_narrows (w w' : World) : photo_step w w' → narrows w w'.
Proof. intros (Hp & Hc & _). split; intros ?; by rewrite ?Hp, ?Hc. Qed.

Lemma invalidated_narrows (id : string) (w w' : World) :
  invalidated id w w' → narrows w w'.
Proof.
  intros (_ & Hc & _ & Hdb & _). split.
  - intros k. rewrite Hc. intros H. by do 2 apply filter_is_Some in H.
  - intros i. by rewrite Hdb.
Qed.

Lemma patched_ids (id : string) (patch : json) (rows : list Property) :
  map prop_id (map (λ p, if has_id id p then patch_property patch p else p) rows)
  = map prop_id rows.
Proof.
  rewrite map_map. apply map_ext. intros p. by destruct (has_id id p).
Qed.

Lemma createProperty_narrows (body : json) (userId : string) (w : World) :
  narrows w (createProperty body userId w).2.
Proof.
  destruct (createProperty_cases body userId w)
    as [(message & w' & -> & Hdb & Hc)
       |(parsed & inserted & d & fs & w' & _ & _ & Hproc & -> & Hdb & Hc)]; simpl.
  - split; intros ?; by rewrite ?Hdb, ?Hc.
  - split.
    + intros k. rewrite Hc. apply filter_is_Some.
    + intros i Hi. rewrite Hdb.
      apply create_property_with_photos_done in Hproc as (_ & -> & _).
      rewrite map_app. apply elem_of_app. by left.
Qed.

Lemma updateProperty_narrows (id : string) (updateData : json)
    (userId : option string) (w : World) :
  narrows w (updateProperty id updateData userId w).2.
Proof.
  destruct (updateProperty id updateData userId w) as [[r|m] w'] eqn:Hrun; simpl.
  - apply updateProperty_success in Hrun
      as (w2 & w3 & _ & Hc & _ & _ & Hp & _ & Hstep & Hinv).
    apply narrows_trans with w3; [|by eapply invalidated_narrows].
    apply narrows_trans with w2; [|by apply photo_step_narrows].
    split; intros ?; rewrite ?Hc, ?Hp, ?patched_ids; done.
  - revert Hrun.
    unfold updateProperty, bind at 1, propertyRepository_findPropertyById.
    rewrite repository_call_run.
    destruct (store_ready w); cbn [fst snd]; [|intros [= _ <-]; by split].
    destruct (List.find (has_id id) _) as [property|]; [|intros [= _ <-]; by split].
    destruct (not_owner userId property); [intros [= _ <-]; by split|].
    unfold bind at 1, propertyRepository_updateProperty.
    rewrite repository_call_run.
    match goal with |- context [store_ready ?W] => destruct (store_ready W) end;
      cbn [fst snd]; [|intros [= _ <-]; by split].
    unfold bind at 1.
    match goal with |- context [associate_photos id updateData userId ?W] =>
      destruct (associate_photos_step id updateData userId W) as (w3 & -> & _)
    end.
    done.
Qed.

Lemma filtered_ids (id : string) (rows : list Property) (i : string) :
  i ∈ map prop_id (List.filter (λ p, negb (has_id id p)) rows) ↔
  i ∈ map prop_id rows ∧ i ≠ id.
Proof.
  change (map ?f ?l) with (f <$> l). rewrite !list_elem_of_fmap. split.
  - intros (p & -> & Hp). apply list_elem_of_In, filter_In in Hp as [Hp Hne].
    apply list_elem_of_In in Hp. split; [eauto|].
    unfold has_id in Hne. by destruct (String.eqb_spec (prop_id p) id).
  - intros [(p & -> & Hp) Hne]. exists p. split; [done|].
    apply list_elem_of_In, filter_In. split; [by apply list_elem_of_In|].
    unfold has_id. by destruct (String.eqb_spec (prop_id p) id).
Qed.

Lemma deleteProperty_coherent (id : string) (userId : option string) (w : World) :
  cache_coherent w → cache_coherent (deleteProperty id userId w).2.
Proof.
  intros Hco.
  destruct (deleteProperty id userId w) as [[[]|m] w'] eqn:Hrun; simpl.
  - apply deleteProperty_success in Hrun as (w2 & _ & Hc & _ & _ & Hp & Hinv).
    destruct (invalidated_gone id w2 w' Hinv) as (Hgone & _).
    destruct Hinv as (_ & Hc' & _ & Hdb & _).
    intros i Hi. rewrite Hdb, Hp. apply filtered_ids. split.
    + apply Hco. rewrite <- Hc. rewrite Hc' in Hi. by do 2 apply filter_is_Some in Hi.
    + intros ->. rewrite Hgone in Hi. by destruct Hi.
  - apply narrows_coherent with w; [done|]. revert Hrun.
    unfold deleteProperty, bind at 1, propertyRepository_findPropertyById.
    rewrite repository_call_run.
    destruct (store_ready w); cbn [fst snd]; [|intros [= _ <-]; by split].
    destruct (List.find (has_id id) _) as [property|]; [|intros [= _ <-]; by split].
    destruct (not_owner userId property); [intros [= _ <-]; by split|].
    unfold bind at 1, propertyRepository_deleteProperty.
    rewrite repository_call_run.
    match goal with |- context [store_ready ?W] => destruct (store_ready W) end;
      cbn [fst snd]; [|intros [= _ <-]; by split].
    done.
Qed.

Lemma cacheKey_not_detail (params : GetPropertiesParams) (id : string) :
  "property:" +:+ id ≠ cacheKey params.
Proof. unfold cacheKey. simpl. discriminate. Qed.

Lemma cache_after_get_is_Some (w : World) (key k : string) :
  is_Some (cache_after_get w key !! k) → is_Some (cache w !! k).
Proof.
  unfold cache_after_get.
  destruct (cache w !! key) as [e|]; [destruct (expiry e <? now w)%nat|]; try done.
  destruct (decide (k = key)) as [->|Hne].
  - rewrite lookup_delete_eq. by intros [? ?].
  - by rewrite lookup_delete_ne.
Qed.

Lemma getProperties_db (params : GetPropertiesParams) (w : World) :
  db (getProperties params w).2 = db w.
Proof.
  unfold getProperties, bind, propertyRepository_findAllProperties.
  rewrite cache_get_run.
  destruct (cache_peek w (cacheKey params)) as [hit|]; simpl; [done|].
  rewrite repository_call_run. simpl.
  destruct (ready (faults w)); simpl; by destruct (db w).
Qed.

Lemma getProperties_coherent (params : GetPropertiesParams) (w : World) :
  cache_coherent w → cache_coherent (getProperties params w).2.
Proof.
  intros Hco id. rewrite getProperties_db.
  destruct (getProperties_cache_frame params w ("property:" +:+ id)) as [-> _].
  - apply cacheKey_not_detail.
  - apply Hco.
Qed.

(** [getPropertyById], case by case: a hit; a miss and a store failure;
    a miss and no row; a miss and a row, which is cached. *)
Lemma getPropertyById_run (id : string) (w : World) :
  let key := "property:" +:+ id in
  let w1 := with_cache (cache_after_get w key) (with_log (log w ++ [CacheGet key]) w) in
  let w2 := with_faults (tail (faults w))
              (with_log (log w ++ [CacheGet key; FindPropertyById id]) w1) in
  getPropertyById id w =
    match cache_peek w key with
    | Some hit => (Return (Some hit), w1)
    | None =>
        if store_ready w then
          match List.find (has_id id) (properties (db w)) with
          | None => (Return None, w2)
          | Some property =>
              (Return (Some (CachedProperty property)),
               with_cache
                 (<[key := {| value := CachedProperty property;
                              expiry := now w + PROPERTY_DETAIL |}]>
                    (cache_after_get w key))
                 (with_log (log w ++ [CacheGet key; FindPropertyById id; CacheSet key]) w2))
          end
        else (Throw (fault_message w), w2)
    end.
Proof.
  unfold getPropertyById, bind, propertyRepository_findPropertyById.
  rewrite cache_get_run.
  destruct (cache_peek w ("property:" +:+ id)) as [hit|]; [done|].
  rewrite repository_call_run. simpl.
  destruct (ready (faults w)); simpl.
  - destruct (List.find (has_id id) _) as [property|]; simpl;
      rewrite <- ?app_assoc; reflexivity.
  - rewrite <- ?app_assoc. reflexivity.
Qed.

Lemma getPropertyById_coherent (id : string) (w : World) :
  cache_coherent w → cache_coherent (getPropertyById id w).2.
Proof.
  intros Hco. rewrite getPropertyById_run. cbv zeta.
  destruct (cache_peek w ("property:" +:+ id)) as [hit|].
  { intros i Hi. apply Hco. simpl in Hi. by apply cache_after_get_is_Some in Hi. }
  destruct (store_ready w).
  2: { intros i Hi. apply Hco. simpl in Hi. by apply cache_after_get_is_Some in Hi. }
  destruct (List.find (has_id id) (properties (db w))) as [property|] eqn:Hfind.
  2: { intros i Hi. apply Hco. simpl in Hi. by apply cache_after_get_is_Some in Hi. }
  intros i Hi. simpl in *.
  destruct (decide (i = id)) as [->|Hne].
  - destruct (decide (id ∈ map prop_id (properties (db w)))) as [|Hno]; [done|].
    apply find_has_id_None in Hno. congruence.
  - rewrite lookup_insert_ne in Hi.
    + apply Hco. by apply cache_after_get_is_Some in Hi.
    + intros Heq. apply Hne. by apply (inj (String.app "property:")) in Heq.
Qed.

Lemma recordPropertyView_narrows (id : string) (w : World) :
  narrows w (recordPropertyView id w).2.
Proof.
  unfold recordPropertyView, propertyRepository_incrementPropertyViews.
  rewrite repository_call_run.
  destruct (store_ready w); simpl; split; try done.
  intros i. simpl. rewrite map_map.
  erewrite (map_ext (λ p, prop_id (if has_id id p then _ else p)) prop_id); [done|].
  intros p. by destruct (has_id id p).
Qed.

(** Every world that the service reaches keeps the cache coherent. *)
Lemma reachable_coherent (w : World) : reachable w → cache_coherent w.
Proof.
  induction 1 as [w Hempty | w w' _ IH Hc Hp | w body userId _ IH | w params _ IH
                 | w id _ IH | w id updateData userId _ IH | w id userId _ IH
                 | w id _ IH | w _ IH].
  - intros id. rewrite Hempty, lookup_empty. by intros [? ?].
  - intros id. rewrite Hc, Hp. apply IH.
  - eapply narrows_coherent; [exact IH | apply createProperty_narrows].
  - by apply getProperties_coherent.
  - by apply getPropertyById_coherent.
  - eapply narrows_coherent; [exact IH | apply updateProperty_narrows].
  - by apply deleteProperty_coherent.
  - eapply narrows_coherent; [exact IH | apply recordPropertyView_narrows].
  - destruct (reconcile_photos_step w) as (r & w' & Hrun & Hstep & _).
    rewrite Hrun. eapply narrows_coherent; [exact IH | by apply photo_step_narrows].
Qed.

(** ** Lookups of an absent property *)

(** A lookup of an id that neither the cache nor the store knows. *)
Lemma getPropertyById_absent_step (id : string) (w : World) :
  cache w !! ("property:" +:+ id) = None →
  List.find (has_id id) (properties (db w)) = None →
  cache (getPropertyById id w).2 = cache w
  ∧ db (getPropertyById id w).2 = db w
  ∧ log (getPropertyById id w).2
    = log w ++ [CacheGet ("property:" +:+ id); FindPropertyById id]
  ∧ (store_ready w = true → (getPropertyById id w).1 = Return None)
  ∧ (store_ready w = false → (getPropertyById id w).1 = Throw (fault_message w)).
Proof.
  intros Hkey Hfind. rewrite getPropertyById_run. cbv zeta.
  rewrite (cache_peek_None _ _ Hkey), Hfind.
  unfold cache_after_get. rewrite Hkey.
  destruct (store_ready w); simpl; repeat split; done.
Qed.

Lemma after_lookups_absent (id : string) (n : nat) (w : World) :
  cache w !! ("property:" +:+ id) = None →
  List.find (has_id id) (properties (db w)) = None →
  cache (after_lookups id n w) = cache w ∧ db (after_lookups id n w) = db w.
Proof.
  intros Hkey Hfind. induction n as [|n [IHc IHd]]; [done|].
  cbn [after_lookups].
  destruct (getPropertyById_absent_step id (after_lookups id n w))
    as (-> & -> & _); [by rewrite IHc | by rewrite IHd | done].
Qed.

(** C10 — [getPropertyById] never caches absence.  In every world that
    the service reaches, a lookup of an id that the store does not hold
    answers [null] (or raises the failure of the store read), leaves the
    cache and the tables exactly as they were, and logs a read of the
    cache followed by a read of the store and nothing else: no entry is
    written.  The same holds after any number of such lookups, so every
    later lookup of the id reaches the store again. *)
Theorem getPropertyById_never_caches_absence (id : string) (w : World) :
  reachable w →
  List.find (has_id id) (properties (db w)) = None →
  ∀ n : nat,
    let wn := after_lookups id n w in
    cache (getPropertyById id wn).2 = cache w
    ∧ db (getPropertyById id wn).2 = db w
    ∧ log (getPropertyById id wn).2
      = log wn ++ [CacheGet ("property:" +:+ id); FindPropertyById id]
    ∧ (store_ready wn = true → (getPropertyById id wn).1 = Return None)
    ∧ (store_ready wn = false → (getPropertyById id wn).1 = Throw (fault_message wn)).
Proof.
  intros Hreach Hfind n wn.
  assert (cache w !! ("property:" +:+ id) = None) as Hkey.
  { apply eq_None_not_Some. intros Hsome.
    apply (reachable_coherent w Hreach) in Hsome.
    by apply find_has_id_None in Hfind. }
  destruct (after_lookups_absent id n w Hkey Hfind) as [Hc Hd].
  fold wn in Hc, Hd.
  destruct (getPropertyById_absent_step id wn) as (Hc' & Hd' & Hlog & Hok & Hfail).
  - by rewrite Hc.
  - by rewrite Hd.
  - rewrite Hc', Hd', Hc, Hd. done.
Qed.

(** * Further properties of the service and its routes *)

(** ** Image validation *)

Lemma prefix_head (c a : ascii) (p s : string) :
  String.prefix (String c p) (String a s) = true → c = a.
Proof.
  change (String.prefix (String c p) (String a s))
    with (if ascii_dec c a then String.prefix p s else false).
  by destruct (ascii_dec c a).
Qed.

Lemma http_not_data (v : json) :
  is_absolute_http_url v = true → is_string v = true ∧ begins_with_data_uri v = false.
Proof.
  destruct v as [| | | |s| |]; try done.
  unfold is_absolute_http_url, begins_with_data_uri, is_string.
  intros Hhttp. split; [done|].
  destruct s as [|a s]; [done|].
  assert ("h"%char = a) as <-.
  { apply orb_true_iff in Hhttp as [H|H]; by apply prefix_head in H. }
  destruct (String.prefix "data:" (String "h" s)) eqn:Hdata; [|done].
  by apply prefix_head in Hdata.
Qed.

Lemma validateImageUrl_http (v : json) :
  validateImageUrl v = Return tt ↔ is_absolute_http_url v = true.
Proof.
  destruct v as [| | | |s| |]; try done.
  pose proof (http_not_data (JStr s)) as Hnot.
  unfold validateImageUrl, is_absolute_http_url, begins_with_data_uri in *.
  destruct (String.prefix "http://" s), (String.prefix "https://" s);
    cbn [orb negb andb] in *;
    try (destruct (Hnot eq_refl) as [_ ->]; done);
    by destruct (String.prefix "data:" s).
Qed.

Lemma validateImageUrls_loop_http (items : list json) :
  validateImageUrls_loop items = Return tt
  ↔ Forall (λ v, is_absolute_http_url v = true) items.
Proof.
  induction items as [|v items IH]; cbn [validateImageUrls_loop].
  { split; [constructor | done]. }
  destruct (validateImageUrl v) as [[]|m] eqn:E.
  - apply validateImageUrl_http in E. rewrite IH. split.
    + intros Hall. by constructor.
    + intros Hall. by inversion Hall.
  - split; [done|]. intros Hall. inversion Hall as [|? ? Hv _]; subst.
    apply validateImageUrl_http in Hv. congruence.
Qed.

(** X1 — [validateImageUrls] lets everything that is not an array
    through.  An array passes exactly when it has at most 25 entries and
    every entry is a string that begins with [http://] or [https://]
    (the test for [data:] never decides); an array of more than 25
    entries is refused with "Maximum 25 images per property" whatever
    its entries are. *)
Theorem validateImageUrls_verdict (images : json) :
  ((∀ items, images ≠ JArr items) → validateImageUrls images = Return tt)
  ∧ (∀ items, images = JArr items →
       (validateImageUrls images = Return tt ↔
        length items ≤ 25 ∧ Forall (λ v, is_absolute_http_url v = true) items)
       ∧ (25 < length items →
          validateImageUrls images = Throw "Maximum 25 images per property")).
Proof.
  split.
  - intros Hnot. destruct images; try done. by destruct (Hnot items).
  - intros items ->. unfold validateImageUrls. split.
    + destruct (Nat.ltb_spec 25 (length items)) as [Hlt|Hle].
      * split; [done|]. intros [Hlen _]. lia.
      * rewrite validateImageUrls_loop_http. split; [by intros Hall | by intros [_ Hall]].
    + intros Hlen. apply Nat.ltb_lt in Hlen. by rewrite Hlen.
Qed.

(** ** Creation *)

Lemma str_or_not_empty (s fallback : string) : fallback ≠ "" → str_or s fallback ≠ "".
Proof.
  intros Hf. unfold str_or. by destruct (String.eqb_spec s "").
Qed.

(** X2 — [createProperty] never throws: it always returns a result, with
    either the created row or an error message, never both and never
    neither.  When the body passes the schema and the store client is
    missing, the result is an error that is not empty (the text thrown
    by [getSupabaseOrThrow], or "Failed to save property to database"
    when that text is empty) and the world is untouched: no store call
    is made. *)
Theorem createProperty_returns (body : json) (userId : string) (w : World) :
  (∃ r w',
     createProperty body userId w = (Return r, w')
     ∧ (is_Some (created r) ↔ create_error r = None))
  ∧ (∀ parsed,
       insertPropertySchema_safeParse body = ParseSuccess parsed →
       configured w = false →
       ∃ message,
         message ≠ ""
         ∧ message = str_or CLIENT_MISSING "Failed to save property to database"
         ∧ createProperty body userId w
           = (Return {| created := None; create_error := Some message |}, w)).
Proof.
  split.
  - destruct (createProperty_cases body userId w)
      as [(message & w' & -> & _)|(parsed & inserted & d & fs & w' & _ & _ & _ & -> & _)].
    + eexists _, _. split; [done|]. simpl. split; [by intros [? ?] | done].
    + eexists _, _. split; [done|]. simpl. split; [done | by eexists].
  - intros parsed Hparse Hconf. eexists. split; [|split; [reflexivity|]].
    + by apply str_or_not_empty.
    + unfold createProperty. rewrite Hparse.
      unfold try_catch, bind, getSupabaseOrThrow. by rewrite Hconf.
Qed.

Lemma filter_lookup_kept (P : string * CacheEntry → Prop) `{!∀ x, Decision (P x)}
    (c : gmap string CacheEntry) (k : string) :
  (∀ e, P (k, e)) → filter P c !! k = c !! k.
Proof.
  intros HP. destruct (c !! k) as [e|] eqn:Hk.
  - by apply map_lookup_filter_Some_2.
  - by apply filter_lookup_None.
Qed.

(** X3 — What [createProperty] does to the cache.  Whatever the
    outcome, every entry whose key does not start with [properties:]
    (the detail entries [property:<id>] among them) is as before.  After
    a success no entry of the listing namespace is left; after an error
    the cache is exactly as before. *)
Theorem createProperty_cache (body : json) (userId : string) (w : World) :
  let run := createProperty body userId w in
  (∀ k, String.prefix "properties:" k = false → cache run.2 !! k = cache w !! k)
  ∧ (∀ id, cache run.2 !! ("property:" +:+ id) = cache w !! ("property:" +:+ id))
  ∧ (∀ r, run.1 = Return r → create_error r = None →
       ∀ k, String.prefix "properties:" k = true → cache run.2 !! k = None)
  ∧ (∀ r, run.1 = Return r → create_error r ≠ None → cache run.2 = cache w).
Proof.
  cbv zeta.
  assert (∀ k, String.prefix "properties:" k = false →
               cache (createProperty body userId w).2 !! k = cache w !! k) as Hkept.
  { intros k Hk.
    destruct (createProperty_cases body userId w)
      as [(message & w' & -> & _ & Hc)
         |(parsed & inserted & d & fs & w' & _ & _ & _ & -> & _ & Hc)];
      simpl; rewrite Hc; [done|].
    by apply filter_lookup_kept. }
  split; [exact Hkept|]. split; [intros id; by apply Hkept|].
  destruct (createProperty_cases body userId w)
    as [(message & w' & -> & _ & Hc)
       |(parsed & inserted & d & fs & w' & _ & _ & _ & -> & _ & Hc)]; simpl.
  - split; [intros r [= <-]; done | done].
  - split.
    + intros r _ _ k Hk. rewrite Hc. by apply invalidated_lookup.
    + intros r [= <-]. done.
Qed.

(** ** Reads through the cache *)

(** X4 — A detail read that finds the row in the store caches it: a
    second read of the same id up to [PROPERTY_DETAIL] time units later
    answers the same row from the cache without a store call, so the
    two reads reach the store once.  A read after the entry expired goes
    to the store again. *)
Theorem getPropertyById_served_from_cache (id : string) (w : World)
    (p : Property) (t : nat) :
  cache_peek w ("property:" +:+ id) = None →
  store_ready w = true →
  List.find (has_id id) (properties (db w)) = Some p →
  let first := getPropertyById id w in
  let second := getPropertyById id (at_time t first.2) in
  first.1 = Return (Some (CachedProperty p))
  ∧ log first.2
    = log w ++ [ CacheGet ("property:" +:+ id); FindPropertyById id;
                 CacheSet ("property:" +:+ id) ]
  ∧ (t ≤ now w + PROPERTY_DETAIL →
     second.1 = Return (Some (CachedProperty p))
     ∧ log second.2 = log first.2 ++ [ CacheGet ("property:" +:+ id) ])
  ∧ (now w + PROPERTY_DETAIL < t →
     ∃ es, log second.2
           = log first.2 ++ CacheGet ("property:" +:+ id) :: FindPropertyById id :: es).
Proof.
  intros Hmiss Hready Hfind. cbv zeta.
  rewrite (getPropertyById_run id w). cbv zeta. rewrite Hmiss, Hready, Hfind.
  cbn [fst snd]. split; [done|]. split; [done|].
  match goal with |- context [at_time t ?W] => set (w1 := at_time t W) end.
  assert (cache w1 !! ("property:" +:+ id)
          = Some {| value := CachedProperty p; expiry := now w + PROPERTY_DETAIL |}) as Hentry.
  { subst w1. simpl. apply lookup_insert_eq. }
  assert (now w1 = t) as Hnow by done.
  split.
  - intros Ht. rewrite (getPropertyById_run id w1). cbv zeta.
    unfold cache_peek, cache_after_get. rewrite Hentry, Hnow. simpl.
    destruct (Nat.ltb_spec (now w + PROPERTY_DETAIL) t); [lia|]. done.
  - intros Ht.
    assert (cache_peek w1 ("property:" +:+ id) = None) as Hmiss1.
    { unfold cache_peek. rewrite Hentry, Hnow. simpl.
      destruct (Nat.ltb_spec (now w + PROPERTY_DETAIL) t); [done|lia]. }
    destruct (getPropertyById_miss id w1 Hmiss1) as [Hlog _]. exact Hlog.
Qed.

Lemma key_tuple_cacheKey (p1 p2 : GetPropertiesParams) :
  key_tuple p1 = key_tuple p2 → cacheKey p1 = cacheKey p2.
Proof.
  unfold key_tuple, cacheKey. intros [= -> -> -> -> -> -> -> ->]. done.
Qed.

(** [getProperties], case by case: a hit; a miss and a store failure; a
    miss and a page from the store, which is cached. *)
Lemma getProperties_run (params : GetPropertiesParams) (w : World) :
  let key := cacheKey params in
  let w1 := with_cache (cache_after_get w key) (with_log (log w ++ [CacheGet key]) w) in
  let w2 := with_faults (tail (faults w))
              (with_log (log w ++ [CacheGet key; FindAllProperties]) w1) in
  let result :=
    CachedListing
      {| result_properties :=
           coalesce (found (select_properties params (clamp_page params)
                              (clamp_limit params) (properties (db w)))) [];
         pagination :=
           paginate (clamp_page params) (clamp_limit params) (store_count params w) |} in
  getProperties params w =
    match cache_peek w key with
    | Some hit => (Return hit, w1)
    | None =>
        if store_ready w then
          (Return result,
           with_cache
             (<[key := {| value := result; expiry := now w + PROPERTIES_LIST |}]>
                (cache_after_get w key))
             (with_log (log w ++ [CacheGet key; FindAllProperties; CacheSet key]) w2))
        else (Throw (fault_message w), w2)
    end.
Proof.
  unfold getProperties, bind, propertyRepository_findAllProperties.
  rewrite cache_get_run.
  destruct (cache_peek w (cacheKey params)) as [hit|]; [done|].
  rewrite repository_call_run. simpl.
  destruct (ready (faults w)); simpl; rewrite <- ?app_assoc; reflexivity.
Qed.

(** X5 — Two listing queries with the same key tuple (an absent
    filter counting as the empty one, an absent status as ["active"])
    share one cache entry: when the first is answered from the store,
    the second, up to [PROPERTIES_LIST] time units later, is answered
    the very same page without a store call, even though its own filters
    were never sent to the store.  After the entry expired the store is
    asked again. *)
Theorem getProperties_shared_entry (p1 p2 : GetPropertiesParams) (w : World) (t : nat) :
  key_tuple p1 = key_tuple p2 →
  cache_peek w (cacheKey p1) = None →
  store_ready w = true →
  let first := getProperties p1 w in
  let second := getProperties p2 (at_time t first.2) in
  log first.2
    = log w ++ [ CacheGet (cacheKey p1); FindAllProperties; CacheSet (cacheKey p1) ]
  ∧ (t ≤ now w + PROPERTIES_LIST →
     second.1 = first.1 ∧ log second.2 = log first.2 ++ [ CacheGet (cacheKey p1) ])
  ∧ (now w + PROPERTIES_LIST < t →
     ∃ es, log second.2
           = log first.2 ++ CacheGet (cacheKey p1) :: FindAllProperties :: es).
Proof.
  intros Hkey%key_tuple_cacheKey Hmiss Hready. cbv zeta.
  rewrite (getProperties_run p1 w). cbv zeta. rewrite Hmiss, Hready.
  cbn [fst snd]. split; [done|].
  match goal with |- context [at_time t ?W] => set (w1 := at_time t W) end.
  assert (cache w1 !! cacheKey p2
          = Some {| value :=
                      CachedListing
                        {| result_properties :=
                             coalesce (found (select_properties p1 (clamp_page p1)
                                                (clamp_limit p1) (properties (db w)))) [];
                           pagination :=
                             paginate (clamp_page p1) (clamp_limit p1) (store_count p1 w) |};
                    expiry := now w + PROPERTIES_LIST |}) as Hentry.
  { subst w1. simpl. rewrite <- Hkey. apply lookup_insert_eq. }
  assert (now w1 = t) as Hnow by done.
  rewrite (getProperties_run p2 w1). cbv zeta.
  unfold cache_peek, cache_after_get. rewrite Hentry, Hnow, <- Hkey. simpl.
  split; intros Ht.
  - destruct (Nat.ltb_spec (now w + PROPERTIES_LIST) t); [lia|]. done.
  - destruct (Nat.ltb_spec (now w + PROPERTIES_LIST) t); [|lia].
    match goal with |- context [if ?b then _ else _] => destruct b end;
      simpl; eexists; rewrite <- ?app_assoc; reflexivity.
Qed.

(** ** Updates and deletions *)

Lemma find_patched (id : string) (patch : json) (rows : list Property) :
  List.find (has_id id) (map (λ p, if has_id id p then patch_property patch p else p) rows)
  = patch_property patch <$> List.find (has_id id) rows.
Proof.
  induction rows as [|p rows IH]; [done|]. simpl.
  destruct (has_id id p) eqn:Hp.
  - unfold has_id in *. simpl. by rewrite Hp.
  - by rewrite Hp.
Qed.

(** X6 — An update or a deletion of an id that the store does not hold
    fails with "Property not found" after the one read: no row, no cache
    entry and no ownership entry is touched.  The handlers of the PATCH
    and DELETE routes answer such a request with status 500, not 404,
    and so do the routes whenever the ownership middleware lets the
    request through. *)
Theorem absent_property_not_found (id : string) (updateData : json)
    (userId : option string) (requester : string) (w : World) :
  store_ready w = true →
  List.find (has_id id) (properties (db w)) = None →
  ∃ w',
    updateProperty id updateData userId w = (Throw "Property not found", w')
    ∧ deleteProperty id userId w = (Throw "Property not found", w')
    ∧ log w' = log w ++ [FindPropertyById id]
    ∧ db w' = db w ∧ cache w' = cache w ∧ ownership w' = ownership w
    ∧ patch_property_handler id updateData requester w
      = (Return {| route_status := 500;
                   route_body := RouteError "Failed to update property" |}, w')
    ∧ delete_property_handler id w
      = (Return {| route_status := 500;
                   route_body := RouteError "Failed to delete property" |}, w')
    ∧ ∀ w0,
        requireOwnership "property" id requester w0 = (Return None, w) →
        patch_property_route id updateData requester w0
        = (Return {| route_status := 500;
                     route_body := RouteError "Failed to update property" |}, w')
        ∧ delete_property_route id requester w0
          = (Return {| route_status := 500;
                       route_body := RouteError "Failed to delete property" |}, w').
Proof.
  intros Hready Hfind.
  exists (with_faults (tail (faults w)) (with_log (log w ++ [FindPropertyById id]) w)).
  assert (patch_property_handler id updateData requester w
          = (Return {| route_status := 500;
                       route_body := RouteError "Failed to update property" |},
             with_faults (tail (faults w)) (with_log (log w ++ [FindPropertyById id]) w)))
    as Hpatch.
  { unfold patch_property_handler, try_catch.
    unfold updateProperty, bind, propertyRepository_findPropertyById.
    rewrite repository_call_run. simpl in *. rewrite Hready. simpl. by rewrite Hfind. }
  assert (delete_property_handler id w
          = (Return {| route_status := 500;
                       route_body := RouteError "Failed to delete property" |},
             with_faults (tail (faults w)) (with_log (log w ++ [FindPropertyById id]) w)))
    as Hdelete.
  { unfold delete_property_handler, try_catch.
    unfold deleteProperty, bind, propertyRepository_findPropertyById.
    rewrite repository_call_run. simpl in *. rewrite Hready. simpl. by rewrite Hfind. }
  split; [|split].
  - unfold updateProperty, bind, propertyRepository_findPropertyById.
    rewrite repository_call_run. simpl in *. rewrite Hready. simpl. by rewrite Hfind.
  - unfold deleteProperty, bind, propertyRepository_findPropertyById.
    rewrite repository_call_run. simpl in *. rewrite Hready. simpl. by rewrite Hfind.
  - do 4 (split; [done|]). split; [exact Hpatch|]. split; [exact Hdelete|].
    intros w0 Hpass.
    unfold patch_property_route, delete_property_route, behind_ownership, bind.
    rewrite Hpass. by split.
Qed.

(** Once the read and the update of the row went through, the update
    returns. *)
Lemma updateProperty_returns (id : string) (updateData : json)
    (userId : option string) (w : World) (p : Property) :
  store_ready w = true →
  List.find (has_id id) (properties (db w)) = Some p →
  not_owner userId p = false →
  ready (tail (faults w)) = true →
  ∃ r w', updateProperty id updateData userId w = (Return r, w').
Proof.
  intros Hready Hfind Howner Hready2.
  unfold updateProperty, bind at 1, propertyRepository_findPropertyById.
  rewrite repository_call_run, Hready. cbn [fst snd]. rewrite Hfind, Howner.
  unfold bind at 1, propertyRepository_updateProperty.
  rewrite repository_call_run. cbn [store_ready faults with_db with_faults with_log].
  rewrite Hready2. cbn [fst snd]. unfold bind at 1.
  match goal with |- context [associate_photos id updateData userId ?W] =>
    destruct (associate_photos_step id updateData userId W) as (w3 & -> & _)
  end.
  by eexists _, _.
Qed.

(** X7 — The photo association cannot undo or fail an update.  Once
    the read of the property and the update of its row went through,
    [updateProperty] returns the patched row and the store holds it,
    whatever the later store statements do (a missing client, replies
    with errors, thrown exceptions), and the cache entry and the
    ownership entry of the id are gone. *)
Theorem update_survives_photo_failures (id : string) (updateData : json)
    (userId : option string) (w : World) (p : Property) :
  store_ready w = true →
  List.find (has_id id) (properties (db w)) = Some p →
  not_owner userId p = false →
  ready (tail (faults w)) = true →
  ∃ w',
    updateProperty id updateData userId w = (Return (Some (patch_property updateData p)), w')
    ∧ properties (db w')
      = map (λ q, if has_id id q then patch_property updateData q else q)
          (properties (db w))
    ∧ List.find (has_id id) (properties (db w')) = Some (patch_property updateData p)
    ∧ cache w' !! ("property:" +:+ id) = None
    ∧ (("property", id) ∉ ownership w').
Proof.
  intros Hready Hfind Howner Hready2.
  destruct (updateProperty_returns id updateData userId w p Hready Hfind Howner Hready2)
    as (r & w' & Hrun).
  destruct (updateProperty_success id updateData userId w w' r Hrun)
    as (w2 & w3 & _ & _ & _ & _ & Hp2 & Hr & Hstep & Hinv).
  destruct (invalidated_gone id w3 w' Hinv) as (Hgone & _ & Hown).
  destruct Hstep as (Hp3 & _). destruct Hinv as (_ & _ & _ & Hdb & _).
  assert (r = Some (patch_property updateData p)) as ->.
  { by rewrite Hr, Hp2, find_patched, Hfind. }
  exists w'. rewrite Hdb, Hp3, Hp2. repeat split; try done.
  by rewrite find_patched, Hfind.
Qed.

Lemma deleteProperty_returns (id : string) (userId : option string) (w : World)
    (p : Property) :
  store_ready w = true →
  List.find (has_id id) (properties (db w)) = Some p →
  not_owner userId p = false →
  ready (tail (faults w)) = true →
  ∃ w', deleteProperty id userId w = (Return tt, w').
Proof.
  intros Hready Hfind Howner Hready2.
  unfold deleteProperty, bind at 1, propertyRepository_findPropertyById.
  rewrite repository_call_run, Hready. cbn [fst snd]. rewrite Hfind, Howner.
  unfold bind at 1, propertyRepository_deleteProperty.
  rewrite repository_call_run. cbn [store_ready faults with_db with_faults with_log].
  rewrite Hready2. by eexists.
Qed.

(** ** The routes *)


(** X9 — The PATCH route.  A request that the ownership middleware
    answers itself gets that answer and never reaches the service.  A
    request that the middleware lets through is answered with status
    200, 403 or 500: a requester with a non-empty id that is not the
    stored owner gets 403 with the message of the service, and the
    service writes nothing; when the read of the property fails, the
    answer depends on the text of the failure: 403 with that text if it
    contains "Unauthorized", otherwise 500 "Failed to update
    property". *)
Theorem patch_route_answers (id : string) (body : json) (requester : string)
    (w0 : World) :
  (∀ answer w,
     requireOwnership "property" id requester w0 = (Return (Some answer), w) →
     patch_property_route id body requester w0 = (Return answer, w))
  ∧ (∀ w,
       requireOwnership "property" id requester w0 = (Return None, w) →
       ∃ r w',
         patch_property_route id body requester w0 = (Return r, w')
         ∧ (route_status r = 200 ∨ route_status r = 403 ∨ route_status r = 500))
  ∧ (∀ w p,
       requireOwnership "property" id requester w0 = (Return None, w) →
       store_ready w = true →
       List.find (has_id id) (properties (db w)) = Some p →
       requester ≠ "" →
       owner_id p ≠ Some requester →
       ∃ w',
         patch_property_route id body requester w0
         = (Return {| route_status := 403;
                      route_body := RouteError "Unauthorized: You do not own this property" |},
            w')
         ∧ db w' = db w ∧ cache w' = cache w ∧ ownership w' = ownership w)
  ∧ (∀ w,
       requireOwnership "property" id requester w0 = (Return None, w) →
       store_ready w = false →
       ∃ w',
         patch_property_route id body requester w0
         = (Return (if negb (String.eqb (fault_message w) "")
                       && includes "Unauthorized" (fault_message w)
                    then {| route_status := 403;
                            route_body := RouteError (fault_message w) |}
                    else {| route_status := 500;
                            route_body := RouteError "Failed to update property" |}),
            w')
         ∧ db w' = db w ∧ cache w' = cache w).
Proof.
  unfold patch_property_route, behind_ownership, bind.
  split; [|split; [|split]].
  - by intros answer w ->.
  - intros w ->. unfold patch_property_handler, try_catch, bind.
    destruct (updateProperty id body (Some requester) w) as [[u|m] w'].
    + eexists _, _. split; [done|]. by left.
    + destruct (negb (String.eqb m "") && includes "Unauthorized" m);
        eexists _, _; (split; [done|]); simpl; auto.
  - intros w p -> Hready Hfind Hs Hne.
    exists (with_faults (tail (faults w)) (with_log (log w ++ [FindPropertyById id]) w)).
    unfold patch_property_handler, try_catch.
    unfold updateProperty, bind, propertyRepository_findPropertyById.
    rewrite repository_call_run. simpl in *. rewrite Hready. simpl. rewrite Hfind.
    rewrite not_owner_true by done. repeat split; done.
  - intros w -> Hready.
    exists (with_faults (tail (faults w)) (with_log (log w ++ [FindPropertyById id]) w)).
    unfold patch_property_handler, try_catch.
    unfold updateProperty, bind, propertyRepository_findPropertyById.
    rewrite repository_call_run. simpl in *. rewrite Hready. simpl.
    destruct (negb (String.eqb (message_of (faults w)) "")
              && includes "Unauthorized" (message_of (faults w))); repeat split; done.
Qed.

(** X10 — The GET-by-id route.  A cached value is sent with status 200
    after the cache read alone.  On a miss the route answers 500 when
    the store read fails, 404 "Property not found" when the store holds
    no row of the id, and 200 with the row otherwise; it never writes a
    row. *)
Theorem get_property_route_answers (id : string) (w : World) :
  (∀ v, cache_peek w ("property:" +:+ id) = Some v →
     ∃ w',
       get_property_route id w
       = (Return {| route_status := 200;
                    route_body := RouteSuccess (SentValue v) "Property fetched successfully" |},
          w')
       ∧ log w' = log w ++ [ CacheGet ("property:" +:+ id) ]
       ∧ db w' = db w)
  ∧ (cache_peek w ("property:" +:+ id) = None →
     ∃ w',
       get_property_route id w
       = (Return
            (if store_ready w then
               match List.find (has_id id) (properties (db w)) with
               | None =>
                   {| route_status := 404; route_body := RouteError "Property not found" |}
               | Some p =>
                   {| route_status := 200;
                      route_body := RouteSuccess (SentValue (CachedProperty p))
                                      "Property fetched successfully" |}
               end
             else {| route_status := 500;
                     route_body := RouteError "Failed to fetch property" |}),
          w')
       ∧ db w' = db w).
Proof.
  unfold get_property_route, try_catch, bind.
  rewrite getPropertyById_run. cbv zeta. split.
  - intros v ->. eexists. repeat split; done.
  - intros ->. destruct (store_ready w).
    + destruct (List.find (has_id id) (properties (db w))); eexists; split; done.
    + eexists. split; done.
Qed.

(** X11 — The listing route.  A cached page is sent with status 200
    after the cache read alone.  On a miss the route answers 200 with
    the page computed from the store, which is cached under the key of
    the query; when the store read fails it answers 500 and leaves no
    entry under that key, so the next request asks the store again. *)
Theorem get_properties_route_answers (params : GetPropertiesParams) (w : World) :
  (∀ v, cache_peek w (cacheKey params) = Some v →
     ∃ w',
       get_properties_route params w
       = (Return {| route_status := 200;
                    route_body := RouteSuccess (SentValue v) "Properties fetched successfully" |},
          w')
       ∧ log w' = log w ++ [ CacheGet (cacheKey params) ])
  ∧ (cache_peek w (cacheKey params) = None →
     store_ready w = true →
     ∃ r w',
       get_properties_route params w
       = (Return {| route_status := 200;
                    route_body := RouteSuccess (SentValue (CachedListing r))
                                    "Properties fetched successfully" |},
          w')
       ∧ pagination r = paginate (clamp_page params) (clamp_limit params) (store_count params w)
       ∧ cache_peek w' (cacheKey params) = Some (CachedListing r))
  ∧ (cache_peek w (cacheKey params) = None →
     store_ready w = false →
     ∃ w',
       get_properties_route params w
       = (Return {| route_status := 500;
                    route_body := RouteError "Failed to fetch properties" |}, w')
       ∧ cache w' !! cacheKey params = None).
Proof.
  unfold get_properties_route, try_catch, bind.
  rewrite getProperties_run. cbv zeta. split; [|split].
  - intros v ->. eexists. split; done.
  - intros -> ->. eexists _, _. split; [done|]. split; [done|].
    unfold cache_peek. simpl. rewrite lookup_insert_eq. simpl.
    destruct (Nat.ltb_spec (now w + PROPERTIES_LIST) (now w)); [lia|done].
  - intros Hmiss ->. rewrite Hmiss. eexists. split; [done|]. simpl.
    unfold cache_peek, cache_after_get in *.
    destruct (cache w !! cacheKey params) as [e|] eqn:He; [|done].
    destruct (expiry e <? now w)%nat; [|done]. apply lookup_delete_eq.
Qed.

(** X12 — The POST route never answers 500: [createProperty] reports
    every failure as a result, so the catch of the route is never
    entered.  The route answers 400 with the error exactly when the
    result carries a non-empty error, and then neither table was
    written; otherwise it answers 200 with the created row. *)
Theorem post_route_answers (body : json) (userId : string) (w : World) :
  ∃ res r w',
    createProperty body userId w = (Return res, w')
    ∧ post_property_route body userId w = (Return r, w')
    ∧ (route_status r = 400 ∨ route_status r = 200)
    ∧ (route_status r = 400 ↔ ∃ m, create_error res = Some m ∧ m ≠ "")
    ∧ (route_status r = 400 →
       route_body r = RouteErrorObject (coalesce (create_error res) "")
       ∧ db w' = db w)
    ∧ (route_status r = 200 →
       route_body r = RouteSuccess (SentProperty (created res))
                        "Property created successfully").
Proof.
  unfold post_property_route, try_catch, bind.
  destruct (createProperty_cases body userId w)
    as [(message & w' & Hrun & Hdb & _)
       |(parsed & inserted & d & fs & w' & _ & _ & _ & Hrun & _)];
    rewrite Hrun; cbn [create_error created truthy].
  - destruct (String.eqb_spec message "") as [->|Hne]; simpl;
      eexists _, _, w'; (split; [reflexivity|]); (split; [reflexivity|]); simpl.
    + split; [by right|]. split; [|split; [done|done]].
      split; [done|]. by intros (m & [= <-] & ?).
    + split; [by left|]. split; [|split; [done|done]].
      split; [by exists message|done].
  - eexists _, _, w'; (split; [reflexivity|]); (split; [reflexivity|]); simpl.
    split; [by right|]. split; [|split; [done|done]].
    split; [done|]. by intros (m & [=] & _).
Qed.

(** ** The photo association of an update, without store failures *)

Lemma linked_set_photo_property (photo id : string) (rows : list Photo) (u : string) :
  linked rows u id → linked (set_photo_property photo id rows) u id.
Proof.
  intros (r & Hr & Hu & Hp). unfold set_photo_property.
  exists (if String.eqb (photo_id r) photo then set_property_id (Some id) r else r).
  split.
  - change (map ?f ?l) with (f <$> l).
    by apply (list_elem_of_fmap_2
                (λ r, if String.eqb (photo_id r) photo
                      then set_property_id (Some id) r else r)).
  - by destruct (String.eqb (photo_id r) photo).
Qed.

Lemma find_orphan_linked (id u : string) (rows : list Photo) (r0 : Photo) :
  List.find (λ r, String.eqb (url (row r)) u && is_orphan r) rows = Some r0 →
  linked (set_photo_property (photo_id r0) id rows) u id.
Proof.
  intros [Hin Hpred]%find_some.
  apply andb_true_iff in Hpred as [Hurl%String.eqb_eq _].
  exists (set_property_id (Some id) r0). split; [|done].
  apply list_elem_of_In, in_map_iff. exists r0.
  by rewrite String.eqb_refl.
Qed.

Lemma provided_queue (rows : list Photo) (queue : list PhotoInsert)
    (r : PhotoInsert) (u id : string) :
  provided rows queue u id → provided rows (queue ++ [r]) u id.
Proof.
  intros [Hl|(q & Hq & Hu & Hp)]; [by left|].
  right. exists q. split; [|done]. apply elem_of_app. by left.
Qed.

Lemma provided_queued (rows : list Photo) (queue : list PhotoInsert)
    (id : string) (userId : option string) (u : string) :
  provided rows (queue ++ [update_photo id userId u]) u id.
Proof.
  right. exists (update_photo id userId u). split; [|done].
  apply elem_of_app. right. by apply list_elem_of_singleton.
Qed.

(** Without a store failure the loop over the entries keeps what was
    served and leaves every entry served: by a row of the store that
    refers to the property, found under the text of the filter, or by a
    row of the queue, under the text of the column. *)
Lemma associate_images_links (id : string) (userId : option string)
    (urls : list json) (toInsert : list PhotoInsert) (w : World) :
  faults w = [] →
  ∃ queued w',
    associate_images id userId urls toInsert w = (Return queued, w')
    ∧ faults w' = []
    ∧ (∀ u, provided (photos (db w)) toInsert u id →
            provided (photos (db w')) queued u id)
    ∧ ∀ v, v ∈ urls →
           provided (photos (db w')) queued (url_filter v) id
           ∨ provided (photos (db w')) queued (url_column v) id.
Proof.
  revert toInsert w. induction urls as [|v0 urls IH]; intros toInsert w Hf.
  { eexists _, _. split; [done|]. split; [done|]. split; [done|].
    intros v H. by apply elem_of_nil in H. }
  cbn [associate_images].
  unfold bind at 1, try_catch, bind at 1, select_orphan_photo_by_url.
  rewrite statement_run, Hf. cbn [fst snd tail].
  destruct (List.find (λ r, String.eqb (url (row r)) (url_filter v0) && is_orphan r)
              (photos (db w)))
    as [r0|] eqn:Hfind; cbn [data no_rows].
  - destruct (truthy (Some (photo_id r0))) eqn:Ht.
    + unfold bind at 1, update_photo_property. rewrite statement_run.
      cbn [fst snd faults db with_db with_faults with_log tail ret coalesce
           properties photos].
      match goal with |- context [associate_images id userId urls ?q ?W] =>
        destruct (IH q W) as (queued & w' & Hrun & Hf' & Hkeeps & Hall); [done|]
      end.
      cbn [faults db with_db with_faults with_log properties photos] in Hkeeps.
      eexists _, _. split; [exact Hrun|]. split; [done|]. split.
      * intros u [Hl|Hq]; apply Hkeeps; [left|by right].
        by apply linked_set_photo_property.
      * intros v [->|Hin]%elem_of_cons; [|by apply Hall].
        left. apply Hkeeps. left. by apply find_orphan_linked.
    + cbn [ret fst snd].
      match goal with |- context [associate_images id userId urls ?q ?W] =>
        destruct (IH q W) as (queued & w' & Hrun & Hf' & Hkeeps & Hall); [done|]
      end.
      cbn [faults db with_db with_faults with_log properties photos] in Hkeeps.
      eexists _, _. split; [exact Hrun|]. split; [done|]. split.
      * intros u Hu. by apply Hkeeps, provided_queue.
      * intros v [->|Hin]%elem_of_cons; [|by apply Hall].
        right. apply Hkeeps, provided_queued.
  - cbn [truthy ret fst snd].
    match goal with |- context [associate_images id userId urls ?q ?W] =>
      destruct (IH q W) as (queued & w' & Hrun & Hf' & Hkeeps & Hall); [done|]
    end.
    cbn [faults db with_db with_faults with_log properties photos] in Hkeeps.
    eexists _, _. split; [exact Hrun|]. split; [done|]. split.
    * intros u Hu. by apply Hkeeps, provided_queue.
    * intros v [->|Hin]%elem_of_cons; [|by apply Hall].
      right. apply Hkeeps, provided_queued.
Qed.

Lemma foldl_insert_photo_keeps (queue : list PhotoInsert) (d : Db) (r : Photo) :
  r ∈ photos d → r ∈ photos (foldl insert_photo d queue).
Proof.
  revert d. induction queue as [|q queue IH]; intros d Hr; [done|].
  simpl. apply IH. simpl. apply elem_of_app. by left.
Qed.

Lemma foldl_insert_photo_adds (queue : list PhotoInsert) (d : Db) (q : PhotoInsert) :
  q ∈ queue → ∃ r, r ∈ photos (foldl insert_photo d queue) ∧ row r = q.
Proof.
  revert d. induction queue as [|q0 queue IH]; intros d Hq.
  { by apply elem_of_nil in Hq. }
  apply elem_of_cons in Hq as [->|Hq]; simpl; [|by apply IH].
  exists {| photo_id := pretty (next_id d); row := q0 |}. split; [|reflexivity].
  apply foldl_insert_photo_keeps. simpl.
  apply elem_of_app. right. by apply list_elem_of_singleton.
Qed.

Lemma provided_inserted (d : Db) (queue : list PhotoInsert) (u id : string) :
  provided (photos d) queue u id → linked (photos (foldl insert_photo d queue)) u id.
Proof.
  intros [(r & Hr & Hu & Hp)|(q & Hq & Hu & Hp)].
  - exists r. split; [by apply foldl_insert_photo_keeps|done].
  - destruct (foldl_insert_photo_adds queue d q Hq) as (r & Hr & Hrow).
    exists r. rewrite Hrow. done.
Qed.

(** Without a store failure the association of an update links a photo
    row to the property for every entry of the patch. *)
Lemma associate_photos_links (id : string) (updateData : json)
    (userId : option string) (w : World) :
  configured w = true →
  faults w = [] →
  ∃ w',
    associate_photos id updateData userId w = (Return tt, w')
    ∧ properties (db w') = properties (db w)
    ∧ ∀ items v, get "images" updateData = JArr items → v ∈ items →
                 linked (photos (db w')) (url_filter v) id
                 ∨ linked (photos (db w')) (url_column v) id.
Proof.
  intros Hconf Hf.
  destruct (associate_photos_step id updateData userId w) as (w' & Hrun & Hp & _).
  exists w'. split; [done|]. split; [done|].
  revert Hrun. unfold associate_photos, try_catch.
  destruct (get "images" updateData) as [| | | | |[|first others]|];
    try (intros [= <-]; by intros items v [=] Hv).
  { intros [= <-]. intros items v [= <-] Hv.
    by apply elem_of_nil in Hv. }
  unfold bind at 1, getSupabaseOrThrow. rewrite Hconf. unfold bind at 1.
  destruct (associate_images_links id userId (first :: others) [] w Hf)
    as (queued & w1 & Hrun & Hf1 & _ & Hserved).
  rewrite Hrun.
  destruct queued as [|q queue].
  - intros [= <-] items v [= <-] Hv.
    destruct (Hserved v Hv) as [[Hl|(r & Hr & _)]|[Hl|(r & Hr & _)]];
      [by left | by apply elem_of_nil in Hr | by right | by apply elem_of_nil in Hr].
  - unfold bind, insert_photos. rewrite statement_run, Hf1. cbn [fst snd tail ret].
    intros [= <-] items v [= <-] Hv.
    destruct (Hserved v Hv) as [H|H]; [left|right];
      apply (provided_inserted (db w1) (q :: queue)), H.
Qed.

(** X13 — An update without store failures leaves a photo row for every
    image of the patch.  When the client is configured and no store
    statement fails, [updateProperty] returns the patched row, and for
    every entry of the [images] array of the patch the photos table
    then holds a row that refers to the property: an orphan that was
    adopted, found under the text of the filter, or a row that was
    inserted, under the text of the column.  For an entry that is a
    string, the row carries that very url. *)
Theorem update_links_every_image (id : string) (updateData : json)
    (userId : option string) (w : World) (p : Property) (items : list json) :
  configured w = true →
  faults w = [] →
  List.find (has_id id) (properties (db w)) = Some p →
  not_owner userId p = false →
  get "images" updateData = JArr items →
  ∃ w',
    updateProperty id updateData userId w
      = (Return (Some (patch_property updateData p)), w')
    ∧ (∀ v, v ∈ items →
         linked (photos (db w')) (url_filter v) id
         ∨ linked (photos (db w')) (url_column v) id)
    ∧ ∀ u, JStr u ∈ items → linked (photos (db w')) u id.
Proof.
  intros Hconf Hf Hfind Howner Himages.
  unfold updateProperty, bind at 1, propertyRepository_findPropertyById.
  rewrite repository_call_run. cbn [store_ready]. rewrite Hf.
  cbn [ready fst snd tail]. rewrite Hfind, Howner.
  unfold bind at 1, propertyRepository_updateProperty.
  rewrite repository_call_run. cbn [store_ready faults with_db with_faults with_log].
  cbn [ready fst snd tail]. unfold bind at 1.
  match goal with |- context [associate_photos id updateData userId ?W] =>
    destruct (associate_photos_links id updateData userId W)
      as (w3 & Hrun & Hprops & Hlinks); [done|done|]
  end.
  rewrite Hrun.
  unfold bind, cache_invalidate, invalidateOwnershipCache, emit, ret.
  cbn [fst snd db with_db with_faults with_log with_cache with_ownership].
  eexists. split; [|split].
  - f_equal. f_equal. by rewrite find_patched, Hfind.
  - intros v Hv. by apply (Hlinks items).
  - intros u Hu. by destruct (Hlinks items (JStr u) Himages Hu).
Qed.

(** ** The reconciler under any store failures *)

Lemma relinked_later (rows : list Property) (p : string * string)
    (pairs : list (string * string)) (r r' : Photo) :
  relinked rows pairs r r' → relinked rows (p :: pairs) r r'.
Proof.
  intros [->|(q & pid & Hq & Hid & Hm & ->)]; [by left|].
  right. exists q, pid. split; [by apply elem_of_cons; right|done].
Qed.

Lemma relinked_after_update (rows : list Property) (p : string * string)
    (pairs : list (string * string)) (pid : string) (r r' : Photo) :
  matched_property rows p.2 = Some pid →
  relinked rows pairs
    (if String.eqb (photo_id r) p.1 then set_property_id (Some pid) r else r) r' →
  relinked rows (p :: pairs) r r'.
Proof.
  intros Hm. destruct (String.eqb_spec (photo_id r) p.1) as [Heq|Hne].
  - intros [->|(q & pid' & Hq & Hid & Hm' & ->)]; right.
    + exists p, pid. split; [by apply elem_of_cons; left|done].
    + exists q, pid'. split; [by apply elem_of_cons; right|done].
  - apply relinked_later.
Qed.

Lemma reconcile_loop_links (pairs : list (string * string)) (acc : list Association)
    (w : World) :
  ∃ reconciled w',
    reconcile_loop pairs acc w = (Return reconciled, w')
    ∧ properties (db w') = properties (db w)
    ∧ length reconciled ≤ length acc + length pairs
    ∧ Forall2 (relinked (properties (db w)) pairs) (photos (db w)) (photos (db w')).
Proof.
  revert acc w. induction pairs as [|p pairs IH]; intros acc w.
  { eexists _, _. split; [done|]. split; [done|]. split; [simpl; lia|].
    apply Forall2_same_length_lookup_2; [done|].
    intros i r r' H1 H2. left. congruence. }
  cbn [reconcile_loop].
  unfold bind at 1, try_catch, bind at 1, select_property_containing.
  rewrite statement_run. cbv zeta.
  assert (∀ a W,
            properties (db W) = properties (db w) →
            photos (db W) = photos (db w) →
            length a ≤ length acc + 1 →
            ∃ reconciled w',
              reconcile_loop pairs a W = (Return reconciled, w')
              ∧ properties (db w') = properties (db w)
              ∧ length reconciled ≤ length acc + length (p :: pairs)
              ∧ Forall2 (relinked (properties (db w)) (p :: pairs))
                  (photos (db w)) (photos (db w'))) as Hplain.
  { intros a W HW1 HW2 Ha.
    destruct (IH a W) as (reconciled & w' & Hrun & Hprops & Hlen & Hrel).
    exists reconciled, w'. rewrite HW1, HW2 in *.
    split; [done|]. split; [done|]. split; [simpl; lia|].
    eapply Forall2_impl; [exact Hrel|]. intros r r' H. by apply relinked_later. }
  assert (∀ a W pid,
            matched_property (properties (db w)) p.2 = Some pid →
            properties (db W) = properties (db w) →
            photos (db W) = set_photo_property p.1 pid (photos (db w)) →
            length a ≤ length acc + 1 →
            ∃ reconciled w',
              reconcile_loop pairs a W = (Return reconciled, w')
              ∧ properties (db w') = properties (db w)
              ∧ length reconciled ≤ length acc + length (p :: pairs)
              ∧ Forall2 (relinked (properties (db w)) (p :: pairs))
                  (photos (db w)) (photos (db w'))) as Hupdated.
  { intros a W pid Hm HW1 HW2 Ha.
    destruct (IH a W) as (reconciled & w' & Hrun & Hprops & Hlen & Hrel).
    exists reconciled, w'. rewrite HW1, HW2 in *.
    split; [done|]. split; [done|]. split; [simpl; lia|].
    unfold set_photo_property in Hrel. change (map ?f ?l) with (f <$> l) in Hrel.
    rewrite Forall2_fmap_l in Hrel.
    eapply Forall2_impl; [exact Hrel|]. intros r r' H. simpl in H.
    by apply (relinked_after_update _ _ _ pid). }
  assert (length acc ≤ length acc + 1) as Hacc by lia.
  assert (length (acc ++ [ {| photoId := p.1;
                              propertyId := coalesce
                                (data (property_containing (properties (db w)) p.2)) "" |} ])
          ≤ length acc + 1) as Hpush by (rewrite length_app; simpl; lia).
  destruct (faults w) as [|[|m|m] fs] eqn:Hfs; cbn [fst snd tail data truthy ret];
    try (by apply Hplain).
  - destruct (truthy (data (property_containing (properties (db w)) p.2))) eqn:Ht;
      [|by apply Hplain].
    unfold bind at 1, update_photo_property. rewrite statement_run.
    cbn [fst snd faults db with_db with_faults with_log tail ret properties photos].
    eapply Hupdated; try done.
    unfold matched_property. by rewrite Ht.
  - destruct (truthy (data (property_containing (properties (db w)) p.2))) eqn:Ht;
      [|by apply Hplain].
    unfold bind at 1, update_photo_property. rewrite statement_run.
    cbn [fst snd faults db with_db with_faults with_log tail ret properties photos].
    destruct fs as [|[|m|m] fs]; cbn [fst snd ret]; try (by apply Hplain).
    + eapply Hupdated; try done. unfold matched_property. by rewrite Ht.
    + eapply Hupdated; try done. unfold matched_property. by rewrite Ht.
Qed.

Lemma NoDup_map_inj_on {A B} (f : A → B) (l : list A) (x y : A) :
  NoDup (map f l) → x ∈ l → y ∈ l → f x = f y → x = y.
Proof.
  induction l as [|a l IH]; intros Hnd Hx Hy Heq.
  { by apply elem_of_nil in Hx. }
  simpl in Hnd. apply NoDup_cons in Hnd as [Ha Hnd].
  assert (∀ z, z ∈ l → f a ≠ f z) as Hfresh.
  { intros z Hz Hfz. apply Ha. rewrite Hfz.
    change (map f l) with (f <$> l). by apply list_elem_of_fmap_2. }
  apply elem_of_cons in Hx as [->|Hx]; apply elem_of_cons in Hy as [->|Hy].
  - done.
  - by destruct (Hfresh y Hy).
  - by destruct (Hfresh x Hx).
  - by apply IH.
Qed.

Lemma matched_property_listed (rows : list Property) (u pid : string) :
  matched_property rows u = Some pid →
  ∃ q, q ∈ rows ∧ u ∈ images q ∧ prop_id q = pid.
Proof.
  unfold matched_property, property_containing.
  destruct (List.find (λ p, bool_decide (u ∈ images p)) rows) as [q|] eqn:Hfind;
    [|done].
  apply find_some in Hfind as [Hin Hu%bool_decide_eq_true].
  simpl. destruct (negb (String.eqb (prop_id q) "")); [|done].
  intros [= <-]. exists q. by rewrite list_elem_of_In.
Qed.

Lemma relinked_adopted (n : nat) (w : World) (photos' : list Photo) :
  NoDup (map photo_id (photos (db w))) →
  Forall2 (relinked (properties (db w)) (orphan_batch n (photos (db w))))
    (photos (db w)) photos' →
  Forall2 (adopted (properties (db w))) (photos (db w)) photos'.
Proof.
  intros Hids Hrel. apply Forall2_same_length_lookup in Hrel as [Hlen Hrel].
  apply Forall2_same_length_lookup_2; [done|].
  intros i r r' Hr Hr'.
  destruct (Hrel i r r' Hr Hr') as [->|(p & pid & Hp & Hid & Hm & ->)]; [by left|].
  right. apply elem_of_orphan_batch in Hp as (r0 & Hr0 & Ho & ->).
  assert (r0 = r) as ->.
  { apply (NoDup_map_inj_on photo_id (photos (db w))); try done.
    by apply list_elem_of_lookup_2 in Hr. }
  split; [done|].
  apply matched_property_listed in Hm as (q & Hq & Hu & <-). by exists q.
Qed.

Lemma adopted_refl (rows : list Property) (l : list Photo) :
  Forall2 (adopted rows) l l.
Proof.
  apply Forall2_same_length_lookup_2; [done|].
  intros i r r' H1 H2. left. congruence.
Qed.

(** X14 — What one pass of the reconciler can do, whatever the store
    does.  When the photo ids are distinct, the handler answers, reports
    at most 200 associations, leaves the properties as they are, and
    leaves every photo row as it was or, if it was an orphan, with the
    reference of a property of the store whose [images] list its url.
    No row is added, removed or unlinked. *)
Theorem reconcile_adopts_only_listed_orphans (w : World) :
  NoDup (map photo_id (photos (db w))) →
  ∃ r w',
    reconcile_photos w = (Return r, w')
    ∧ properties (db w') = properties (db w)
    ∧ (∀ l, payload r = Reconciled l → length l ≤ 200)
    ∧ Forall2 (adopted (properties (db w))) (photos (db w)) (photos (db w')).
Proof.
  intros Hids.
  unfold reconcile_photos, try_catch, bind at 1, getSupabaseOrThrow.
  destruct (configured w) eqn:Hconf.
  2: { eexists _, _. split; [done|]. split; [done|]. split; [done|].
       apply adopted_refl. }
  unfold bind at 1, select_orphan_photos. rewrite statement_run. cbv zeta.
  destruct (faults w) as [|[|m|m] fs] eqn:Hfs; cbn [fst snd tail data coalesce].
  4: { eexists _, _. split; [done|]. split; [done|]. split; [done|].
       apply adopted_refl. }
  3: { unfold bind. simpl. eexists _, _. split; [done|]. split; [done|].
       split; [by intros l [= <-]; simpl; lia|]. apply adopted_refl. }
  all: unfold bind at 1;
    match goal with |- context [reconcile_loop ?ps ?a ?W] =>
      destruct (reconcile_loop_links ps a W)
        as (reconciled & w' & Hrun & Hprops & Hlen & Hrel)
    end;
    rewrite Hrun; eexists _, _; (split; [done|]); (split; [done|]);
    cbn [db with_db with_faults with_log properties photos] in *.
  all: split;
    [intros l [= <-]; etrans; [exact Hlen|];
     unfold orphan_batch; rewrite length_map, length_take; cbn [length]; lia
    |by apply (relinked_adopted 200)].
Qed.

(** X15 — Which cache entries a successful write of [id] touches.  The
    invalidation of [property:<id>] goes by prefix: the detail entry of
    every id that begins with [id] is evicted with it.  Every entry
    whose key begins neither with [property:<id>] nor with [properties:]
    is as before, and of the ownership entries only that of the property
    is dropped. *)
Theorem write_evicts_by_prefix (id : string) (updateData : json)
    (userId : option string) (w w' : World) :
  (∃ r, updateProperty id updateData userId w = (Return r, w'))
  ∨ deleteProperty id userId w = (Return tt, w') →
  (∀ longer, cache w' !! ("property:" +:+ (id +:+ longer)) = None)
  ∧ (∀ k, String.prefix ("property:" +:+ id) k = false →
          String.prefix "properties:" k = false →
          cache w' !! k = cache w !! k)
  ∧ ownership w' = ownership w ∖ {[ ("property", id) ]}.
Proof.
  intros Hrun.
  assert (∃ w3, cache w3 = cache w ∧ ownership w3 = ownership w ∧ invalidated id w3 w')
    as (w3 & Hcache & Hown & Hinv).
  { destruct Hrun as [[r Hrun]|Hrun].
    - apply updateProperty_success in Hrun
        as (w2 & w3 & _ & Hc2 & Ho2 & _ & _ & _ & Hstep & Hinv).
      destruct Hstep as (_ & Hc3 & _ & Ho3 & _).
      exists w3. split; [congruence|]. split; [congruence|done].
    - apply deleteProperty_success in Hrun as (w2 & _ & Hc2 & Ho2 & _ & _ & Hinv).
      by exists w2. }
  destruct Hinv as (_ & -> & -> & _). rewrite Hcache, Hown.
  split; [|split; [|done]].
  - intros longer. apply filter_lookup_None, invalidated_lookup.
    change ("property:" +:+ (id +:+ longer)) with (("property:" +:+ id) +:+ longer).
    apply prefix_app.
  - intros k Hdetail Hlisting.
    rewrite filter_lookup_kept by (intros e; exact Hlisting).
    apply filter_lookup_kept. intros e. exact Hdetail.
Qed.

(** X16 — [recordPropertyView] invalidates nothing.  Whatever the
    store does, the cache, the ownership entries and the photos are as
    before; when the increment went through, the counter of the row is
    one higher in the store, and a detail entry that was served before
    is still served, as it was cached, without a store call. *)
Theorem recorded_view_not_seen_through_cache (id : string) (w : World) :
  let w' := (recordPropertyView id w).2 in
  cache w' = cache w
  ∧ ownership w' = ownership w
  ∧ photos (db w') = photos (db w)
  ∧ (store_ready w = true →
     map view_count (properties (db w'))
     = map (λ p, if has_id id p then S (view_count p) else view_count p)
         (properties (db w)))
  ∧ ∀ id' v,
      cache_peek w ("property:" +:+ id') = Some v →
      (getPropertyById id' w').1 = Return (Some v)
      ∧ log (getPropertyById id' w').2 = log w' ++ [ CacheGet ("property:" +:+ id') ].
Proof.
  unfold recordPropertyView, propertyRepository_incrementPropertyViews.
  rewrite repository_call_run. cbv zeta.
  assert (∀ W id' v,
            cache W = cache w → now W = now w →
            cache_peek w ("property:" +:+ id') = Some v →
            (getPropertyById id' W).1 = Return (Some v)
            ∧ log (getPropertyById id' W).2 = log W ++ [ CacheGet ("property:" +:+ id') ])
    as Hserved.
  { intros W id' v Hc Hn Hv. rewrite getPropertyById_run. cbv zeta.
    assert (cache_peek W ("property:" +:+ id') = Some v) as ->
      by (unfold cache_peek in *; by rewrite Hc, Hn).
    done. }
  destruct (store_ready w); cbn [snd].
  - split; [done|]. split; [done|]. split; [done|]. split.
    + intros _. cbn [db with_db properties]. rewrite map_map. apply map_ext.
      intros p. by destruct (has_id id p).
    + intros id' v. by apply Hserved.
  - split; [done|]. split; [done|]. split; [done|]. split; [done|].
    intros id' v. by apply Hserved.
Qed.

(** ** An update when no photo is an orphan *)

Lemma find_orphan_None (u : string) (rows : list Photo) :
  Forall (λ r, is_orphan r = false) rows →
  List.find (λ r, String.eqb (url (row r)) u && is_orphan r) rows = None.
Proof.
  induction 1 as [|r rows Hr _ IH]; [done|].
  cbn [List.find]. by rewrite Hr, andb_false_r.
Qed.

Lemma associate_images_queues (id : string) (userId : option string)
    (urls : list json) (toInsert : list PhotoInsert) (w : World) :
  faults w = [] →
  Forall (λ r, is_orphan r = false) (photos (db w)) →
  ∃ w',
    associate_images id userId urls toInsert w
      = (Return (toInsert ++ map (λ v, update_photo id userId (url_column v)) urls), w')
    ∧ db w' = db w
    ∧ faults w' = [].
Proof.
  revert toInsert w. induction urls as [|u urls IH]; intros toInsert w Hf Hrows.
  { exists w. by rewrite app_nil_r. }
  cbn [associate_images].
  unfold bind at 1, try_catch, bind at 1, select_orphan_photo_by_url.
  rewrite statement_run, Hf. cbn [fst snd tail].
  rewrite find_orphan_None by done. cbn [data no_rows truthy ret fst snd].
  match goal with |- context [associate_images id userId urls ?q ?W] =>
    destruct (IH q W) as (w' & Hrun & Hdb & Hf'); [done|done|]
  end.
  exists w'. rewrite Hrun, <- app_assoc. done.
Qed.

Lemma foldl_insert_photo_rows (queue : list PhotoInsert) (d : Db) :
  ∃ added,
    photos (foldl insert_photo d queue) = photos d ++ added
    ∧ map row added = queue.
Proof.
  revert d. induction queue as [|q queue IH]; intros d.
  { exists []. by rewrite app_nil_r. }
  destruct (IH (insert_photo d q)) as (added & Hphotos & Hrows).
  exists ({| photo_id := pretty (next_id d); row := q |} :: added).
  cbn [foldl map]. rewrite Hphotos, Hrows. cbn [insert_photo photos row].
  by rewrite <- app_assoc.
Qed.

(** Without orphans and without store failures the association of an
    update inserts a row for every entry of the patch. *)
Lemma associate_photos_inserts (id : string) (updateData : json)
    (userId : option string) (w : World) (items : list json) :
  configured w = true →
  faults w = [] →
  get "images" updateData = JArr items →
  Forall (λ r, is_orphan r = false) (photos (db w)) →
  ∃ w' added,
    associate_photos id updateData userId w = (Return tt, w')
    ∧ properties (db w') = properties (db w)
    ∧ photos (db w') = photos (db w) ++ added
    ∧ map row added = map (λ v, update_photo id userId (url_column v)) items
    ∧ configured w' = true
    ∧ faults w' = [].
Proof.
  intros Hconf Hf Himages Hrows.
  unfold associate_photos, try_catch. rewrite Himages.
  destruct items as [|first others].
  { exists w, []. by rewrite app_nil_r. }
  unfold bind at 1, getSupabaseOrThrow. rewrite Hconf. unfold bind at 1.
  destruct (associate_images_queues id userId (first :: others) [] w Hf Hrows)
    as (w1 & Hrun & Hdb1 & Hf1).
  rewrite Hrun. cbn [app].
  assert (configured w1 = true) as Hconf1.
  { destruct (associate_images_step id userId (first :: others) [] w)
      as (queued & w1' & Hrun' & _ & _ & _ & _ & Hc & _).
    rewrite Hrun in Hrun'. injection Hrun' as _ <-. by rewrite Hc. }
  destruct (map (λ v, update_photo id userId (url_column v)) (first :: others))
    as [|q queue] eqn:Hqueue; [done|].
  unfold bind, insert_photos. rewrite statement_run, Hf1. cbn [fst snd tail ret].
  destruct (foldl_insert_photo_rows (q :: queue) (db w1)) as (added & Hphotos & Hadded).
  eexists _, added. split; [reflexivity|].
  cbn [db with_db with_faults with_log configured faults].
  rewrite Hphotos, foldl_insert_photo_properties, Hdb1. done.
Qed.

(** X17 — An update never looks for a row that is already linked.
    When no photo of the store is an orphan and no store statement
    fails, [updateProperty] inserts one new photo row for every entry of
    the [images] array of the patch, whatever its type, tagged
    [source = property_update] and referring to the property, whether
    or not the store already holds a row with that url for the
    property; and again no photo is an orphan, so the same update made
    once more adds the same rows once more. *)
Theorem update_inserts_without_orphans (id : string) (updateData : json)
    (userId : option string) (w : World) (p : Property) (items : list json) :
  configured w = true →
  faults w = [] →
  List.find (has_id id) (properties (db w)) = Some p →
  not_owner userId p = false →
  get "images" updateData = JArr items →
  Forall (λ r, is_orphan r = false) (photos (db w)) →
  ∃ w' added,
    updateProperty id updateData userId w
      = (Return (Some (patch_property updateData p)), w')
    ∧ photos (db w') = photos (db w) ++ added
    ∧ map row added = map (λ v, update_photo id userId (url_column v)) items
    ∧ Forall (λ r, is_orphan r = false) (photos (db w'))
    ∧ configured w' = true
    ∧ faults w' = [].
Proof.
  intros Hconf Hf Hfind Howner Himages Hrows.
  unfold updateProperty, bind at 1, propertyRepository_findPropertyById.
  rewrite repository_call_run. cbn [store_ready]. rewrite Hf.
  cbn [ready fst snd tail]. rewrite Hfind, Howner.
  unfold bind at 1, propertyRepository_updateProperty.
  rewrite repository_call_run. cbn [store_ready faults with_db with_faults with_log].
  cbn [ready fst snd tail]. unfold bind at 1.
  match goal with |- context [associate_photos id updateData userId ?W] =>
    destruct (associate_photos_inserts id updateData userId W items)
      as (w3 & added & Hrun & Hprops & Hphotos & Hadded & Hconf3 & Hf3);
      [done|done|done|done|]
  end.
  rewrite Hrun.
  unfold bind, cache_invalidate, invalidateOwnershipCache, emit, ret.
  cbn [fst snd db with_db with_faults with_log with_cache with_ownership
       photos configured faults] in *.
  eexists _, added. rewrite find_patched, Hfind.
  split; [reflexivity|]. split; [exact Hphotos|]. split; [exact Hadded|].
  split; [|done].
  cbn [db with_db with_faults with_log with_cache with_ownership].
  rewrite Hphotos. apply Forall_app. split; [done|].
  apply Forall_forall. intros r Hr.
  assert (row r ∈ map (λ v, update_photo id userId (url_column v)) items) as Hrow.
  { rewrite <- Hadded. change (map row added) with (row <$> added).
    by apply list_elem_of_fmap_2. }
  change (map ?f ?l) with (f <$> l) in Hrow.
  apply list_elem_of_fmap in Hrow as (u & Hrow & _).
  unfold is_orphan. by rewrite Hrow.
Qed.

End Service.

(** ** The sample conversion of numbers to strings *)

Lemma all_chars_app (P : ascii → bool) (s1 s2 : string) :
  all_chars P (s1 +:+ s2) = all_chars P s1 && all_chars P s2.
Proof.
  induction s1 as [|a s1 IH]; simpl; [done|].
  by rewrite IH, andb_assoc.
Qed.

Lemma all_chars_has_char (P : ascii → bool) (c : ascii) (s : string) :
  all_chars P s = true → P c = false → has_char c s = false.
Proof.
  intros Hall Hc. induction s as [|a s IH]; simpl in *; [done|].
  apply andb_true_iff in Hall as [Ha Hs]. rewrite IH by done.
  destruct (Ascii.eqb_spec a c) as [->|]; [congruence|done].
Qed.

Lemma pretty_N_char_digit (x : N) : digit_or_dash (pretty_N_char x) = true.
Proof. unfold pretty_N_char. repeat case_match; done. Qed.

Lemma pretty_N_go_plain (x : N) (s : string) :
  all_chars digit_or_dash s = true →
  all_chars digit_or_dash (pretty_N_go x s) = true.
Proof.
  revert s. induction (N.lt_wf_0 x) as [x _ IH]. intros s Hs.
  destruct (decide (x = 0)%N) as [->|Hx]; [done|].
  rewrite pretty_N_go_step by lia.
  apply IH; [apply N.div_lt; lia|].
  simpl. by rewrite pretty_N_char_digit.
Qed.

Lemma pretty_N_plain (x : N) : all_chars digit_or_dash (pretty x) = true.
Proof.
  unfold pretty, pretty_N. case_decide; [done|]. by apply pretty_N_go_plain.
Qed.

Lemma pretty_Z_plain (z : Z) : all_chars digit_or_dash (pretty z) = true.
Proof.
  destruct z as [|p|p]; [done| apply pretty_N_plain |].
  unfold pretty, pretty_Z. rewrite all_chars_app.
  apply andb_true_iff. split; [done | apply pretty_N_plain].
Qed.

Lemma pretty_Z_has_char (c : ascii) (z : Z) :
  digit_or_dash c = false → has_char c (pretty z) = false.
Proof. intros. eapply all_chars_has_char; [apply pretty_Z_plain | done]. Qed.

Lemma sample_numberToString_colon_free (x : jsnum) :
  colon_free (sample_numberToString x).
Proof.
  unfold colon_free. destruct x as [| | |q]; try done.
  unfold sample_numberToString. destruct (Qden q =? 1)%positive.
  - by apply pretty_Z_has_char.
  - rewrite !has_char_app, !pretty_Z_has_char by done. done.
Qed.

Lemma Qc_num_den (p q : Qc) : Qnum p = Qnum q → Qden p = Qden q → p = q.
Proof.
  intros Hn Hd. apply Qc_is_canon.
  destruct p as [[pn pd] Hp], q as [[qn qd] Hq]; simpl in *. by subst.
Qed.

Lemma sample_numberToString_fin (c : ascii) (q : Qc) :
  digit_or_dash c = false → c ≠ "/"%char →
  has_char c (sample_numberToString (Fin q)) = false.
Proof.
  intros Hc Hslash. unfold sample_numberToString. destruct (Qden q =? 1)%positive.
  - by apply pretty_Z_has_char.
  - rewrite !has_char_app, !pretty_Z_has_char by done.
    change (has_char c "/") with (Ascii.eqb "/" c || false).
    destruct (Ascii.eqb_spec "/" c); [congruence|done].
Qed.

Lemma sample_numberToString_inj (x y : jsnum) :
  sample_numberToString x = sample_numberToString y → x = y.
Proof.
  destruct x as [| | |p], y as [| | |q]; try done;
    try (intros H; apply (f_equal (has_char "N")) in H;
         rewrite sample_numberToString_fin in H by done; done);
    try (intros H; apply (f_equal (has_char "I")) in H;
         rewrite sample_numberToString_fin in H by done; done).
  unfold sample_numberToString.
  destruct (Pos.eqb_spec (Qden p) 1) as [Hp|Hp], (Pos.eqb_spec (Qden q) 1) as [Hq|Hq].
  - intros H%(inj pretty). f_equal. apply Qc_num_den; congruence.
  - intros H. apply (f_equal (has_char "/")) in H.
    rewrite !has_char_app, !pretty_Z_has_char in H by done. done.
  - intros H. apply (f_equal (has_char "/")) in H.
    rewrite !has_char_app, !pretty_Z_has_char in H by done. done.
  - intros H. apply split_at_separator in H as [Hn Hd];
      [|by apply pretty_Z_has_char..].
    apply (inj pretty) in Hn. apply (inj pretty) in Hd.
    f_equal. apply Qc_num_den; congruence.
Qed.

(** ** Instances at concrete inputs *)

Lemma createProperty_rejects_bad_images_witness :
  get "images" (JObj [ ("title", JStr "t"); ("images", JArr [ JStr "ftp://x" ]) ])
    = JArr [ JStr "ftp://x" ]
  ∧ violates_image_contract [ JStr "ftp://x" ] = true
  ∧ ∃ message,
      createProperty sample_field_rules sample_client_missing sample_cast_error
        (JObj [ ("title", JStr "t"); ("images", JArr [ JStr "ftp://x" ]) ])
        sample_user sample_world
      = (Return {| created := None; create_error := Some message |}, sample_world).
Proof.
  split; [reflexivity|]. split; [reflexivity|].
  apply (createProperty_rejects_bad_images sample_field_rules sample_client_missing
           sample_cast_error _ sample_user sample_world [ JStr "ftp://x" ]); reflexivity.
Defined.


(** The quotient of the page count is a double.  The limit 1.4 is the
    double just below the decimal 1.4; for seven rows the quotient
    7/limit lies just above 5 and rounds to the double 5, so the answer
    reports five pages, and five times that limit is a little less
    than seven. *)
Lemma fractional_limit_rounds_quotient :
  let params := params_of None None (Some "1") (Some "1.4") in
  ∃ (r : GetPropertiesResult) (w' : World) (d : Qc),
    getProperties decimal_parseNumber sample_numberToString sample_select_properties 60
      params seven_world
    = (Return (CachedListing r), w')
    ∧ limit (pagination r) = Fin d
    ∧ total (pagination r) = 7
    ∧ totalPages (pagination r) = whole 5
    ∧ hasNextPage (pagination r) = true
    ∧ (d < Q2Qc (14 # 10))%Qc
    ∧ (Qc_of_Z 5 * d < Qc_of_Z 7)%Qc.
Proof.
  intros params.
  destruct (getProperties_miss decimal_parseNumber sample_numberToString
              sample_select_properties 60 params seven_world)
    as [w' Hrun]; [reflexivity|reflexivity|].
  eexists _, w', (Q2Qc (3152519739159347 # 2251799813685248)).
  split; [exact Hrun|]. cbn [pagination paginate limit total totalPages hasNextPage].
  split; [vm_compute; f_equal; apply Qc_is_canon; reflexivity|].
  split; [reflexivity|].
  split; [vm_compute; f_equal; apply Qc_is_canon; reflexivity|].
  split; [vm_compute; reflexivity|].
  split; vm_compute; reflexivity.
Qed.




Lemma unauthorized_requester_changes_nothing_witness :
  List.find (has_id "p1") (properties (db sample_world))
    = Some (sample_property "p1" "alice" [ "https://cdn/3.jpg" ])
  ∧ store_ready sample_world = true
  ∧ "bob" ≠ ""
  ∧ owner_id (sample_property "p1" "alice" [ "https://cdn/3.jpg" ]) ≠ Some "bob"
  ∧ ∃ w',
      updateProperty sample_client_missing sample_entry_text sample_entry_text
        "p1" (JObj [ ("title", JStr "Mine now") ]) (Some "bob") sample_world
        = (Throw "Unauthorized: You do not own this property", w')
      ∧ deleteProperty "p1" (Some "bob") sample_world
        = (Throw "Unauthorized: You do not own this property", w')
      ∧ log w' = log sample_world ++ [FindPropertyById "p1"]
      ∧ db w' = db sample_world
      ∧ cache w' = cache sample_world
      ∧ ownership w' = ownership sample_world.
Proof.
  split; [reflexivity|]. split; [reflexivity|].
  split; [discriminate|]. split; [discriminate|].
  apply (unauthorized_requester_changes_nothing sample_client_missing sample_entry_text
           sample_entry_text "p1" _ "bob" sample_world
           (sample_property "p1" "alice" [ "https://cdn/3.jpg" ]));
    [reflexivity | reflexivity | discriminate | discriminate].
Defined.

(** The empty string is a requester that differs from the owner and is
    let through: the row is updated (or deleted) and the caches are
    invalidated.  And when the read of the property fails, a requester
    who is not the owner gets the failure of the store, not the
    Unauthorized error. *)
Lemma empty_requester_is_let_through :
  List.find (has_id "p1") (properties (db sample_world))
    = Some (sample_property "p1" "alice" [ "https://cdn/3.jpg" ])
  ∧ owner_id (sample_property "p1" "alice" [ "https://cdn/3.jpg" ]) ≠ Some ""
  ∧ (∃ updated w',
       updateProperty sample_client_missing sample_entry_text sample_entry_text
         "p1" (JObj [ ("title", JStr "Mine now") ]) (Some "") sample_world
         = (Return (Some updated), w')
       ∧ member "title" (columns updated) = JStr "Mine now"
       ∧ log w' = [ FindPropertyById "p1"; UpdatePropertyRow "p1";
                    CacheInvalidate "property:p1"; CacheInvalidate "properties:";
                    InvalidateOwnership "property" "p1" ])
  ∧ (∃ w',
       deleteProperty "p1" (Some "") sample_world = (Return tt, w')
       ∧ map prop_id (properties (db w')) = [ "p2" ]
       ∧ log w' = [ FindPropertyById "p1"; DeletePropertyRow "p1";
                    CacheInvalidate "property:p1"; CacheInvalidate "properties:";
                    InvalidateOwnership "property" "p1" ])
  ∧ (∃ w',
       updateProperty sample_client_missing sample_entry_text sample_entry_text
         "p1" (JObj [ ("title", JStr "Mine now") ]) (Some "bob")
         (with_faults [ Throws "connection reset" ] sample_world)
       = (Throw "connection reset", w')).
Proof.
  split; [reflexivity|]. split; [discriminate|]. split; [|split].
  - eexists _, _. split; [vm_compute; reflexivity|]. split; reflexivity.
  - eexists. split; [vm_compute; reflexivity|]. split; reflexivity.
  - eexists. vm_compute. reflexivity.
Qed.

Lemma recordPropertyView_raises_to_handler_witness :
  store_ready (with_faults [ Throws "connection reset" ] sample_world) = false
  ∧ ∃ w',
      recordPropertyView "p1" (with_faults [ Throws "connection reset" ] sample_world)
        = (Throw "connection reset", w')
      ∧ db w' = db sample_world
      ∧ post_view "p1" (with_faults [ Throws "connection reset" ] sample_world)
        = (Return {| http_status := 500;
                     payload := ErrorResponse "Failed to record view" |}, w').
Proof.
  split; [reflexivity|].
  exact (proj2 (recordPropertyView_raises_to_handler "p1"
                  (with_faults [ Throws "connection reset" ] sample_world)) eq_refl).
Defined.

(** A failing increment is not swallowed by [recordPropertyView]: the
    call ends with the thrown error. *)
Lemma recordPropertyView_propagates_failure :
  ∃ w',
    recordPropertyView "p1" (with_faults [ Throws "connection reset" ] sample_world)
      = (Throw "connection reset", w').
Proof. eexists. vm_compute. reflexivity. Qed.

Lemma write_invalidates_witness :
  let w1 := (getPropertyById 300 "p1" sample_world).2 in
  is_Some (cache w1 !! "property:p1")
  ∧ ∃ r w',
      updateProperty sample_client_missing sample_entry_text sample_entry_text
        "p1" sample_patch (Some "alice") w1 = (Return r, w')
      ∧ (∃ es,
           log w' = log w1 ++ es
           ∧ List.filter is_invalidation es
             = [ CacheInvalidate "property:p1"; CacheInvalidate "properties:";
                 InvalidateOwnership "property" "p1" ])
      ∧ cache w' !! "property:p1" = None
      ∧ (getPropertyById 300 "p1" w').1
        = Return (CachedProperty <$> List.find (has_id "p1") (properties (db w'))).
Proof.
  intros w1. split; [vm_compute; eauto|].
  destruct (updateProperty sample_client_missing sample_entry_text sample_entry_text
              "p1" sample_patch (Some "alice") w1) as [[r|m] w'] eqn:Hrun;
    [|vm_compute in Hrun; discriminate].
  assert (store_ready w' = true) as Hready.
  { vm_compute in Hrun. injection Hrun as _ <-. reflexivity. }
  destruct (write_invalidates 300 sample_client_missing sample_entry_text sample_entry_text
              "p1" sample_patch (Some "alice") w1 w'
              (or_introl (ex_intro _ r Hrun)))
    as (Hthree & Hentry & _ & _ & _ & Hanswer).
  exists r, w'. split; [reflexivity|]. split; [exact Hthree|].
  split; [exact Hentry | exact (Hanswer Hready)].
Defined.



(** A write between the passes that creates no orphan still gives the
    second pass something to associate.  Two orphans [ph2] and [ph4]
    have a url that no property lists, so the first pass leaves them;
    an update of [p2] then lists that url and adopts one of them; the
    second pass associates the other. *)
Lemma second_pass_after_update :
  let first := reconcile_photos sample_client_missing twin_world in
  let between :=
    updateProperty sample_client_missing sample_entry_text sample_entry_text
      "p2" (JObj [ ("images", JArr [ JStr "https://cdn/9.jpg" ]) ]) (Some "bob") first.2 in
  let second := reconcile_photos sample_client_missing between.2 in
  reconciled_list first.1 = Some [ {| photoId := "ph1"; propertyId := "p1" |} ]
  ∧ map photo_id (List.filter is_orphan (photos (db first.2))) = [ "ph2"; "ph4" ]
  ∧ (∃ updated, between.1 = Return (Some updated))
  ∧ map photo_id (List.filter is_orphan (photos (db between.2))) = [ "ph4" ]
  ∧ reconciled_list second.1 = Some [ {| photoId := "ph4"; propertyId := "p2" |} ].
Proof.
  split; [vm_compute; reflexivity|].
  split; [vm_compute; reflexivity|].
  split; [eexists; vm_compute; reflexivity|].
  split; vm_compute; reflexivity.
Qed.

(** C6 — The reconcile handler does not look at the [error] of the store
    replies.  When the fetch of the orphans answers an error, the handler
    answers 200 with an empty list instead of a fault.  When the update
    of a photo answers an error, the pair is still reported as
    reconciled although the photo row was not written. *)
Theorem reconcile_ignores_store_errors (CLIENT_MISSING : string) :
  (reconcile_photos CLIENT_MISSING
     (with_faults [ ErrorResult "permission denied" ] sample_world)).1
    = Return {| http_status := 200; payload := Reconciled [] |}
  ∧ let run :=
      reconcile_photos CLIENT_MISSING
        (with_faults [ NoFault; NoFault; ErrorResult "deadlock detected" ] sample_world) in
    run.1 = Return {| http_status := 200;
                      payload := Reconciled [ {| photoId := "ph1"; propertyId := "p1" |} ] |}
    ∧ photos (db run.2) = photos (db sample_world).
Proof. split; [|split]; vm_compute; reflexivity. Qed.

Lemma getPropertyById_never_caches_absence_witness :
  let w := (deleteProperty "p1" (Some "alice") (getPropertyById 300 "p1" sample_world).2).2 in
  reachable sample_parseNumber sample_numberToString sample_field_rules
    sample_select_properties 60 300 sample_client_missing sample_cast_error
    sample_entry_text sample_entry_text w
  ∧ List.find (has_id "p1") (properties (db w)) = None
  ∧ cache (getPropertyById 300 "p1" (after_lookups 300 "p1" 1 w)).2 = cache w
  ∧ (getPropertyById 300 "p1" (after_lookups 300 "p1" 1 w)).1 = Return None
  ∧ log (getPropertyById 300 "p1" (after_lookups 300 "p1" 1 w)).2
    = log (after_lookups 300 "p1" 1 w) ++ [ CacheGet "property:p1"; FindPropertyById "p1" ].
Proof.
  intros w.
  assert (reachable sample_parseNumber sample_numberToString sample_field_rules
            sample_select_properties 60 300 sample_client_missing sample_cast_error
            sample_entry_text sample_entry_text w) as Hreach.
  { apply reach_deleteProperty, reach_getPropertyById, reach_start. reflexivity. }
  assert (List.find (has_id "p1") (properties (db w)) = None) as Hfind by reflexivity.
  split; [exact Hreach|]. split; [exact Hfind|].
  destruct (getPropertyById_never_caches_absence sample_parseNumber sample_numberToString
              sample_field_rules sample_select_properties 60 300 sample_client_missing
              sample_cast_error sample_entry_text sample_entry_text
              "p1" w Hreach Hfind 1)
    as (Hcache & _ & Hlog & Hnull & _).
  split; [exact Hcache|]. split; [apply Hnull; reflexivity | exact Hlog].
Defined.

(** ** Instances of the further properties *)

Lemma validateImageUrls_verdict_witness :
  length [ JStr "https://cdn/3.jpg"; JStr "http://cdn/4.jpg" ] ≤ 25
  ∧ Forall (λ v, is_absolute_http_url v = true)
      [ JStr "https://cdn/3.jpg"; JStr "http://cdn/4.jpg" ]
  ∧ validateImageUrls (JArr [ JStr "https://cdn/3.jpg"; JStr "http://cdn/4.jpg" ])
    = Return tt.
Proof.
  assert (length [ JStr "https://cdn/3.jpg"; JStr "http://cdn/4.jpg" ] ≤ 25) as Hlen
    by (simpl; lia).
  assert (Forall (λ v, is_absolute_http_url v = true)
            [ JStr "https://cdn/3.jpg"; JStr "http://cdn/4.jpg" ]) as Hall
    by (repeat constructor).
  split; [exact Hlen|]. split; [exact Hall|].
  destruct (validateImageUrls_verdict
              (JArr [ JStr "https://cdn/3.jpg"; JStr "http://cdn/4.jpg" ]))
    as [_ Harray].
  destruct (Harray _ eq_refl) as [Hiff _].
  apply Hiff. split; [exact Hlen | exact Hall].
Defined.

Lemma createProperty_returns_witness :
  insertPropertySchema_safeParse sample_field_rules sample_body = ParseSuccess sample_body
  ∧ configured (with_configured false sample_world) = false
  ∧ createProperty sample_field_rules sample_client_missing sample_cast_error
      sample_body sample_user (with_configured false sample_world)
    = (Return {| created := None;
                 create_error := Some "Supabase client is not configured" |},
       with_configured false sample_world).
Proof.
  split; [reflexivity|]. split; [reflexivity|].
  destruct (createProperty_returns sample_field_rules sample_client_missing
              sample_cast_error sample_body sample_user
              (with_configured false sample_world)) as [_ Hclient].
  destruct (Hclient sample_body eq_refl eq_refl) as (message & _ & Hmessage & Hrun).
  rewrite Hmessage in Hrun. exact Hrun.
Defined.

Lemma createProperty_cache_witness :
  let w1 := (getPropertyById 300 "p1" sample_world).2 in
  String.prefix "properties:" "property:p1" = false
  ∧ is_Some (cache w1 !! "property:p1")
  ∧ cache (createProperty sample_field_rules sample_client_missing sample_cast_error
             sample_body sample_user w1).2 !! "property:p1"
    = cache w1 !! "property:p1".
Proof.
  intros w1. split; [reflexivity|]. split; [vm_compute; eauto|].
  destruct (createProperty_cache sample_field_rules sample_client_missing
              sample_cast_error sample_body sample_user w1)
    as [Hkept _].
  exact (Hkept "property:p1" eq_refl).
Defined.

Lemma getPropertyById_served_from_cache_witness :
  cache_peek sample_world "property:p1" = None
  ∧ store_ready sample_world = true
  ∧ List.find (has_id "p1") (properties (db sample_world))
    = Some (sample_property "p1" "alice" [ "https://cdn/3.jpg" ])
  ∧ 200 ≤ now sample_world + 300
  ∧ (getPropertyById 300 "p1"
       (at_time 200 (getPropertyById 300 "p1" sample_world).2)).1
    = Return (Some (CachedProperty (sample_property "p1" "alice" [ "https://cdn/3.jpg" ]))).
Proof.
  assert (200 ≤ now sample_world + 300) as Htime by (simpl; lia).
  split; [reflexivity|]. split; [reflexivity|]. split; [reflexivity|].
  split; [exact Htime|].
  destruct (getPropertyById_served_from_cache 300 "p1" sample_world
              (sample_property "p1" "alice" [ "https://cdn/3.jpg" ]) 200
              eq_refl eq_refl eq_refl) as (_ & _ & Hfresh & _).
  exact (proj1 (Hfresh Htime)).
Defined.

Lemma getProperties_shared_entry_witness :
  key_tuple sample_parseNumber no_params
    = key_tuple sample_parseNumber (params_of (Some "") None None None)
  ∧ cache_peek sample_world (cacheKey sample_parseNumber sample_numberToString no_params)
    = None
  ∧ store_ready sample_world = true
  ∧ 30 ≤ now sample_world + 60
  ∧ (getProperties sample_parseNumber sample_numberToString sample_select_properties 60
       (params_of (Some "") None None None)
       (at_time 30
          (getProperties sample_parseNumber sample_numberToString
             sample_select_properties 60 no_params sample_world).2)).1
    = (getProperties sample_parseNumber sample_numberToString sample_select_properties 60
         no_params sample_world).1.
Proof.
  assert (30 ≤ now sample_world + 60) as Htime by (simpl; lia).
  split; [reflexivity|]. split; [reflexivity|]. split; [reflexivity|].
  split; [exact Htime|].
  destruct (getProperties_shared_entry sample_parseNumber sample_numberToString
              sample_select_properties 60 no_params (params_of (Some "") None None None)
              sample_world 30 eq_refl eq_refl eq_refl) as (_ & Hfresh & _).
  exact (proj1 (Hfresh Htime)).
Defined.

Lemma absent_property_not_found_witness :
  let w0 := with_ownership {[ ("property", "p9") ]} sample_world in
  store_ready w0 = true
  ∧ List.find (has_id "p9") (properties (db w0)) = None
  ∧ sample_requireOwnership "property" "p9" "alice" w0 = (Return None, w0)
  ∧ ∃ w',
      updateProperty sample_client_missing sample_entry_text sample_entry_text
        "p9" sample_patch (Some "alice") w0
        = (Throw "Property not found", w')
      ∧ db w' = db w0
      ∧ patch_property_route sample_client_missing sample_entry_text sample_entry_text
          sample_requireOwnership "p9" sample_patch "alice" w0
        = (Return {| route_status := 500;
                     route_body := RouteError "Failed to update property" |}, w')
      ∧ delete_property_route sample_requireOwnership "p9" "alice" w0
        = (Return {| route_status := 500;
                     route_body := RouteError "Failed to delete property" |}, w').
Proof.
  intros w0.
  assert (sample_requireOwnership "property" "p9" "alice" w0 = (Return None, w0))
    as Hpass by (vm_compute; reflexivity).
  split; [reflexivity|]. split; [reflexivity|]. split; [exact Hpass|].
  destruct (absent_property_not_found sample_client_missing sample_entry_text
              sample_entry_text sample_requireOwnership
              "p9" sample_patch (Some "alice") "alice" w0 eq_refl eq_refl)
    as (w' & Hupdate & _ & _ & Hdb & _ & _ & _ & _ & Hroutes).
  destruct (Hroutes w0 Hpass) as [Hpatch Hdelete].
  exists w'. split; [exact Hupdate|]. split; [exact Hdb|].
  split; [exact Hpatch | exact Hdelete].
Defined.

Lemma update_survives_photo_failures_witness :
  let w := with_faults [ NoFault; NoFault; Throws "connection reset";
                         ErrorResult "permission denied" ] sample_world in
  store_ready w = true
  ∧ List.find (has_id "p1") (properties (db w))
    = Some (sample_property "p1" "alice" [ "https://cdn/3.jpg" ])
  ∧ not_owner (Some "alice") (sample_property "p1" "alice" [ "https://cdn/3.jpg" ]) = false
  ∧ ready (tail (faults w)) = true
  ∧ ∃ w',
      updateProperty sample_client_missing sample_entry_text sample_entry_text
        "p1" sample_patch (Some "alice") w
        = (Return (Some (patch_property sample_patch
                           (sample_property "p1" "alice" [ "https://cdn/3.jpg" ]))), w')
      ∧ cache w' !! "property:p1" = None.
Proof.
  intros w. split; [reflexivity|]. split; [reflexivity|]. split; [reflexivity|].
  split; [reflexivity|].
  destruct (update_survives_photo_failures sample_client_missing sample_entry_text
              sample_entry_text "p1" sample_patch (Some "alice") w
              (sample_property "p1" "alice" [ "https://cdn/3.jpg" ])
              eq_refl eq_refl eq_refl eq_refl)
    as (w' & Hrun & _ & _ & Hgone & _).
  exists w'. split; [exact Hrun | exact Hgone].
Defined.


Lemma patch_route_answers_witness :
  sample_requireOwnership "property" "p2" "alice" sample_world
    = (Return (Some {| route_status := 403; route_body := RouteError "Forbidden" |}),
       sample_world)
  ∧ patch_property_route sample_client_missing sample_entry_text sample_entry_text
      sample_requireOwnership "p2" sample_patch "alice" sample_world
    = (Return {| route_status := 403; route_body := RouteError "Forbidden" |},
       sample_world)
  ∧ sample_requireOwnership "property" "p1" "bob" sample_world
    = (Return None, sample_world)
  ∧ store_ready sample_world = true
  ∧ List.find (has_id "p1") (properties (db sample_world))
    = Some (sample_property "p1" "alice" [ "https://cdn/3.jpg" ])
  ∧ "bob" ≠ ""
  ∧ owner_id (sample_property "p1" "alice" [ "https://cdn/3.jpg" ]) ≠ Some "bob"
  ∧ ∃ w',
      patch_property_route sample_client_missing sample_entry_text sample_entry_text
        sample_requireOwnership "p1" sample_patch "bob" sample_world
        = (Return {| route_status := 403;
                     route_body := RouteError "Unauthorized: You do not own this property" |},
           w')
      ∧ db w' = db sample_world.
Proof.
  assert (sample_requireOwnership "property" "p2" "alice" sample_world
          = (Return (Some {| route_status := 403; route_body := RouteError "Forbidden" |}),
             sample_world)) as Hstop by (vm_compute; reflexivity).
  assert (sample_requireOwnership "property" "p1" "bob" sample_world
          = (Return None, sample_world)) as Hpass by (vm_compute; reflexivity).
  assert ("bob" ≠ "") as Hbob by discriminate.
  assert (owner_id (sample_property "p1" "alice" [ "https://cdn/3.jpg" ]) ≠ Some "bob")
    as Howner by discriminate.
  split; [exact Hstop|].
  split.
  { destruct (patch_route_answers sample_client_missing sample_entry_text
                sample_entry_text sample_requireOwnership
                "p2" sample_patch "alice" sample_world) as (Hanswered & _).
    exact (Hanswered _ _ Hstop). }
  split; [exact Hpass|]. split; [reflexivity|]. split; [reflexivity|].
  split; [exact Hbob|]. split; [exact Howner|].
  destruct (patch_route_answers sample_client_missing sample_entry_text
              sample_entry_text sample_requireOwnership
              "p1" sample_patch "bob" sample_world)
    as (_ & _ & Hrefused & _).
  destruct (Hrefused sample_world (sample_property "p1" "alice" [ "https://cdn/3.jpg" ])
              Hpass eq_refl eq_refl Hbob Howner) as (w' & Hrun & Hdb & _).
  exists w'. split; [exact Hrun | exact Hdb].
Defined.

Lemma get_property_route_answers_witness :
  cache_peek sample_world "property:p9" = None
  ∧ ∃ w',
      get_property_route 300 "p9" sample_world
        = (Return {| route_status := 404; route_body := RouteError "Property not found" |},
           w')
      ∧ db w' = db sample_world.
Proof.
  split; [reflexivity|].
  destruct (get_property_route_answers 300 "p9" sample_world) as [_ Hmiss].
  exact (Hmiss eq_refl).
Defined.

Lemma get_properties_route_answers_witness :
  let w := with_faults [ Throws "connection reset" ] sample_world in
  cache_peek w (cacheKey sample_parseNumber sample_numberToString no_params) = None
  ∧ store_ready w = false
  ∧ ∃ w',
      get_properties_route sample_parseNumber sample_numberToString
        sample_select_properties 60 no_params w
        = (Return {| route_status := 500;
                     route_body := RouteError "Failed to fetch properties" |}, w')
      ∧ cache w' !! cacheKey sample_parseNumber sample_numberToString no_params = None.
Proof.
  intros w. split; [reflexivity|]. split; [reflexivity|].
  destruct (get_properties_route_answers sample_parseNumber sample_numberToString
              sample_select_properties 60 no_params w) as (_ & _ & Hfails).
  exact (Hfails eq_refl eq_refl).
Defined.

Lemma post_route_answers_witness :
  ∃ r w',
    post_property_route sample_field_rules sample_client_missing sample_cast_error
      sample_body sample_user (with_faults second_photo_fails sample_world)
    = (Return r, w')
    ∧ (route_status r = 400 ∨ route_status r = 200).
Proof.
  destruct (post_route_answers sample_field_rules sample_client_missing
              sample_cast_error sample_body sample_user
              (with_faults second_photo_fails sample_world))
    as (res & r & w' & _ & Hrun & Hstatus & _).
  exists r, w'. split; [exact Hrun | exact Hstatus].
Defined.

Lemma update_links_every_image_witness :
  configured sample_world = true
  ∧ faults sample_world = []
  ∧ List.find (has_id "p1") (properties (db sample_world))
    = Some (sample_property "p1" "alice" [ "https://cdn/3.jpg" ])
  ∧ not_owner (Some "alice") (sample_property "p1" "alice" [ "https://cdn/3.jpg" ]) = false
  ∧ get "images" sample_patch = JArr [ JStr "https://cdn/3.jpg"; JStr "https://cdn/5.jpg" ]
  ∧ ∃ w',
      updateProperty sample_client_missing sample_entry_text sample_entry_text
        "p1" sample_patch (Some "alice") sample_world
        = (Return (Some (patch_property sample_patch
                           (sample_property "p1" "alice" [ "https://cdn/3.jpg" ]))), w')
      ∧ linked (photos (db w')) "https://cdn/3.jpg" "p1"
      ∧ linked (photos (db w')) "https://cdn/5.jpg" "p1".
Proof.
  split; [reflexivity|]. split; [reflexivity|]. split; [reflexivity|].
  split; [reflexivity|]. split; [reflexivity|].
  destruct (update_links_every_image sample_client_missing sample_entry_text
              sample_entry_text "p1" sample_patch (Some "alice") sample_world
              (sample_property "p1" "alice" [ "https://cdn/3.jpg" ])
              [ JStr "https://cdn/3.jpg"; JStr "https://cdn/5.jpg" ]
              eq_refl eq_refl eq_refl eq_refl eq_refl)
    as (w' & Hrun & _ & Hlinked).
  exists w'. split; [exact Hrun|]. split; apply Hlinked.
  - apply elem_of_cons. left. reflexivity.
  - apply elem_of_cons. right. apply elem_of_cons. left. reflexivity.
Defined.

Lemma reconcile_adopts_only_listed_orphans_witness :
  NoDup (map photo_id (photos (db sample_world)))
  ∧ ∃ r w',
      reconcile_photos sample_client_missing sample_world = (Return r, w')
      ∧ properties (db w') = properties (db sample_world)
      ∧ Forall2 (adopted (properties (db sample_world)))
          (photos (db sample_world)) (photos (db w')).
Proof.
  assert (NoDup (map photo_id (photos (db sample_world)))) as Hids.
  { apply (bool_decide_unpack _). vm_compute. exact I. }
  split; [exact Hids|].
  destruct (reconcile_adopts_only_listed_orphans sample_client_missing sample_world Hids)
    as (r & w' & Hrun & Hprops & _ & Hadopted).
  exists r, w'. split; [exact Hrun|]. split; [exact Hprops | exact Hadopted].
Defined.

Lemma write_evicts_by_prefix_witness :
  let w1 := (getPropertyById 300 "p2" (getPropertyById 300 "p1" sample_world).2).2 in
  is_Some (cache w1 !! "property:p2")
  ∧ String.prefix "property:p1" "property:p2" = false
  ∧ String.prefix "properties:" "property:p2" = false
  ∧ ∃ r w',
      updateProperty sample_client_missing sample_entry_text sample_entry_text
        "p1" sample_patch (Some "alice") w1 = (Return r, w')
      ∧ cache w' !! "property:p1" = None
      ∧ cache w' !! "property:p2" = cache w1 !! "property:p2"
      ∧ ownership w' = ownership w1 ∖ {[ ("property", "p1") ]}.
Proof.
  intros w1. split; [vm_compute; eauto|]. split; [reflexivity|]. split; [reflexivity|].
  destruct (updateProperty sample_client_missing sample_entry_text sample_entry_text
              "p1" sample_patch (Some "alice") w1) as [[r|m] w'] eqn:Hrun;
    [|vm_compute in Hrun; discriminate].
  destruct (write_evicts_by_prefix sample_client_missing sample_entry_text
              sample_entry_text "p1" sample_patch (Some "alice") w1 w'
              (or_introl (ex_intro _ r Hrun)))
    as (Hlonger & Hkept & Hown).
  exists r, w'. split; [reflexivity|]. split; [exact (Hlonger "")|].
  split; [exact (Hkept "property:p2" eq_refl eq_refl) | exact Hown].
Defined.

Lemma recorded_view_not_seen_through_cache_witness :
  let w1 := (getPropertyById 300 "p1" sample_world).2 in
  let cached := CachedProperty (sample_property "p1" "alice" [ "https://cdn/3.jpg" ]) in
  cache_peek w1 "property:p1" = Some cached
  ∧ store_ready w1 = true
  ∧ map view_count (properties (db (recordPropertyView "p1" w1).2)) = [ 1; 0 ]
  ∧ (getPropertyById 300 "p1" (recordPropertyView "p1" w1).2).1 = Return (Some cached).
Proof.
  intros w1 cached.
  assert (cache_peek w1 "property:p1" = Some cached) as Hhit by reflexivity.
  split; [exact Hhit|]. split; [reflexivity|].
  destruct (recorded_view_not_seen_through_cache 300 "p1" w1)
    as (_ & _ & _ & Hcount & Hserved).
  split; [exact (Hcount eq_refl) | exact (proj1 (Hserved "p1" cached Hhit))].
Defined.

Lemma update_inserts_without_orphans_witness :
  let w := with_db {| properties := properties (db sample_world);
                      photos := [ sample_photo "ph3" "https://cdn/4.jpg" (Some "p2") ];
                      next_id := 0 |} sample_world in
  let patch := JObj [ ("images", JArr [ JStr "https://cdn/4.jpg" ]) ] in
  configured w = true
  ∧ faults w = []
  ∧ List.find (has_id "p2") (properties (db w))
    = Some (sample_property "p2" "bob" [ "https://cdn/4.jpg" ])
  ∧ not_owner (Some "bob") (sample_property "p2" "bob" [ "https://cdn/4.jpg" ]) = false
  ∧ get "images" patch = JArr [ JStr "https://cdn/4.jpg" ]
  ∧ Forall (λ r, is_orphan r = false) (photos (db w))
  ∧ linked (photos (db w)) "https://cdn/4.jpg" "p2"
  ∧ ∃ w' added,
      updateProperty sample_client_missing sample_entry_text sample_entry_text
        "p2" patch (Some "bob") w
        = (Return (Some (patch_property patch
                           (sample_property "p2" "bob" [ "https://cdn/4.jpg" ]))), w')
      ∧ photos (db w') = photos (db w) ++ added
      ∧ map row added = [ update_photo "p2" (Some "bob") "https://cdn/4.jpg" ].
Proof.
  intros w patch.
  assert (Forall (λ r, is_orphan r = false) (photos (db w))) as Hrows
    by (repeat constructor).
  split; [reflexivity|]. split; [reflexivity|]. split; [reflexivity|].
  split; [reflexivity|]. split; [reflexivity|]. split; [exact Hrows|].
  split.
  { exists (sample_photo "ph3" "https://cdn/4.jpg" (Some "p2")).
    split; [apply elem_of_cons; left; reflexivity|]. split; reflexivity. }
  destruct (update_inserts_without_orphans sample_client_missing sample_entry_text
              sample_entry_text "p2" patch (Some "bob") w
              (sample_property "p2" "bob" [ "https://cdn/4.jpg" ])
              [ JStr "https://cdn/4.jpg" ]
              eq_refl eq_refl eq_refl eq_refl eq_refl Hrows)
    as (w' & added & Hrun & Hphotos & Hadded & _).
  exists w', added. split; [exact Hrun|]. split; [exact Hphotos | exact Hadded].
Defined.
